(** * modelx spaces: a shallow embedding of [modelx/core/space.py]

    The development follows the Python module: Python exceptions and
    dictionaries first, then the C3 merge of [SpaceImpl._update_mro], the
    heap of spaces and cells, the constructor [SpaceImpl.__init__], the
    memoised creation of parametrised children in
    [SpaceContainerImpl.get_space], the synthesis of derived cells in
    [BaseMembers._update_data] and [DerivedMembers._update_data_cells], and
    the name operations [set_name], [remove_cells] and [revert_derived].
    The facts and the theorems come after the definitions.

    Conventions.  Objects live in a store and are named by their index in
    it; a method is a function from stores to a result and a store, and an
    exception is the result [Raise].  A list or dictionary attribute is a
    field of the object; where the Python code shares one list object
    between two names ([_update_mro]), the model writes the list back into
    the field.  The modules [modelx.core.base], [modelx.core.cells] and
    [modelx.core.util] are not among the sources: what is needed of them is
    a parameter of the model ([Collaborators]) or is modelled from the
    spec, and is marked so.  An operation reads the data of a lazily
    evaluated object as it stands; the recomputation that a read of the
    cells of a space runs first is [DerivedMembers_update_data]. *)

From stdpp Require Import base tactics option list strings pretty.
From Stdlib Require Import ZArith Lia.

Local Open Scope string_scope.
Local Open Scope list_scope.
Local Open Scope nat_scope.

(** ** Python exceptions and results *)

Inductive PyExc : Type :=
  | ValueError (msg : string)
  | TypeError (msg : string)
  | AttributeError (msg : string)
  | KeyError (msg : string)
  | NotImplementedError
  | UserError (msg : string).

Inductive Res (A : Type) : Type :=
  | Ok (a : A)
  | Raise (e : PyExc).
Arguments Ok {A} a.
Arguments Raise {A} e.

(** ** Python dictionaries

    A [dict] keeps its keys in insertion order, and the order is visible:
    [_update_data_cells] walks [items()] and stops in the middle.  So a
    dictionary is an association list with unique keys; assigning to an
    existing key keeps its position. *)

Module PyDict.
Section dict.
Context {K V : Type} `{EqDecision K}.

Fixpoint get (k : K) (d : list (K * V)) : option V :=
  match d with
  | [] => None
  | (k', v) :: d' => if decide (k = k') then Some v else get k d'
  end.

Definition mem (k : K) (d : list (K * V)) : bool :=
  match get k d with Some _ => true | None => false end.

Fixpoint set (k : K) (v : V) (d : list (K * V)) : list (K * V) :=
  match d with
  | [] => [(k, v)]
  | (k', v') :: d' =>
      if decide (k = k') then (k', v) :: d' else (k', v') :: set k v d'
  end.

Fixpoint del (k : K) (d : list (K * V)) : list (K * V) :=
  match d with
  | [] => []
  | (k', v') :: d' =>
      if decide (k = k') then d' else (k', v') :: del k d'
  end.

Definition keys (d : list (K * V)) : list K := map fst d.
Definition values (d : list (K * V)) : list V := map snd d.

(** [d.update(other)] *)
Definition update (d other : list (K * V)) : list (K * V) :=
  foldl (λ acc kv, set kv.1 kv.2 acc) d other.

End dict.
End PyDict.

(** ** Identifiers of heap objects *)

Abbreviation SpaceId := nat (only parsing).
Abbreviation CellsId := nat (only parsing).

(** ** The C3 merge of [SpaceImpl._update_mro]

    [seqs] is the list of sequences being merged.  Its members are list
    objects that the loop shortens in place, so the model threads the whole
    of [seqs] through the loop and hands the final [seqs] back: the last
    member is the very list object [self.direct_bases]. *)

Definition inconsistent_hierarchy : PyExc :=
  TypeError "inconsistent hierarchy, no C3 MRO is possible".

(** [list(filter(None, seqs))] *)
Definition non_empty (seqs : list (list SpaceId)) : list (list SpaceId) :=
  filter (λ s, s ≠ []) seqs.

(** [[s for s in non_empty if candidate in s[1:]]] *)
Definition not_head (candidate : SpaceId) (ne : list (list SpaceId))
  : list (list SpaceId) :=
  filter (λ s, candidate ∈ tail s) ne.

(** The [for seq in non_empty] loop that looks for a merge candidate.
    [todo] is the part of [non_empty] still to visit.  The result is the
    value of [candidate] after the loop: [None] when every head was
    rejected.  A member of [non_empty] is never empty, so [seq[0]] is
    defined; the model skips an empty sequence. *)
Fixpoint find_candidate (todo ne : list (list SpaceId)) : option SpaceId :=
  match todo with
  | [] => None
  | seq :: todo' =>
      match seq with
      | [] => find_candidate todo' ne
      | candidate :: _ =>
          match not_head candidate ne with
          | [] => Some candidate
          | _ :: _ => find_candidate todo' ne
          end
      end
  end.

(** The second [for seq in non_empty] loop: [del seq[0]] on every sequence
    headed by the candidate.  The deletion acts on the list objects that
    [seqs] holds. *)
Definition remove_candidate (candidate : SpaceId) (seqs : list (list SpaceId))
  : list (list SpaceId) :=
  map (λ seq, match seq with
              | [] => []
              | h :: t => if decide (h = candidate) then t else seq
              end) seqs.

(** One turn of [while True], when it neither returns nor raises. *)
Definition merge_step (seqs : list (list SpaceId))
  : option (SpaceId * list (list SpaceId)) :=
  match find_candidate (non_empty seqs) (non_empty seqs) with
  | Some candidate => Some (candidate, remove_candidate candidate seqs)
  | None => None
  end.

(** The [while True] loop.  [None] is a loop that has used up its fuel;
    [merge_loop_total] shows that [merge_fuel] turns are always enough. *)
Fixpoint merge_loop (fuel : nat) (seqs : list (list SpaceId))
    (res : list SpaceId) : option (Res (list SpaceId) * list (list SpaceId)) :=
  match fuel with
  | O => None
  | S fuel' =>
      match non_empty seqs with
      | [] => Some (Ok res, seqs)
      | _ :: _ =>
          match merge_step seqs with
          | None => Some (Raise inconsistent_hierarchy, seqs)
          | Some (candidate, seqs') =>
              merge_loop fuel' seqs' (res ++ [candidate])
          end
      end
  end.

Definition total_length (seqs : list (list SpaceId)) : nat :=
  foldr (λ s n, length s + n) 0 seqs.

Definition merge_fuel (seqs : list (list SpaceId)) : nat :=
  S (total_length seqs).

Definition c3_merge (seqs : list (list SpaceId))
  : option (Res (list SpaceId) * list (list SpaceId)) :=
  merge_loop (merge_fuel seqs) seqs [].

(** The merge is stuck when sequences are left and every head is in the
    tail of one of them: no valid head can be selected. *)
Definition stuck (seqs : list (list SpaceId)) : Prop :=
  non_empty seqs ≠ [] ∧
  ∀ c s, s ∈ non_empty seqs → head s = Some c →
         ∃ s', s' ∈ non_empty seqs ∧ c ∈ tail s'.

(** [k] successful turns of the loop. *)
Fixpoint merge_steps (k : nat) (seqs : list (list SpaceId))
  : option (list (list SpaceId)) :=
  match k with
  | O => Some seqs
  | S k' =>
      match merge_step seqs with
      | Some (_, seqs') => merge_steps k' seqs'
      | None => None
      end
  end.

(** ** Values, formulas and cells *)

(** What a reference, an argument or a cached result can hold. *)
Inductive Value : Type :=
  | VNone
  | VInt (n : Z)
  | VStr (s : string)
  | VSpace (i : SpaceId)
  | VCells (i : CellsId)
  | VBuiltins
  | VGetSelf (i : SpaceId).

#[global] Instance Value_eq_dec : EqDecision Value.
Proof. solve_decision. Defined.

(** A [Formula] object.  [formula_id] is the identity of the object: the
    test [a.formula is b.formula] compares it.  [parameters] is the declared
    signature, each parameter with its default if it has one.  [ParamFunc]
    is a subclass of [Formula] that adds nothing. *)
Record Formula : Type := mkFormula {
  formula_id : nat;
  parameters : list (string * option Value);
}.

Definition formula_is (a b : Formula) : bool :=
  bool_decide (formula_id a = formula_id b).

(** A container is the model or one of its spaces; both are
    [SpaceContainerImpl] objects. *)
Inductive Container : Type :=
  | TheModel
  | Space (i : SpaceId).

#[global] Instance Container_eq_dec : EqDecision Container.
Proof. solve_decision. Defined.

(** Modelled from the spec: [CellsImpl], of [modelx.core.cells], a module
    that is not among the sources.  A computed entry has a name, an owning
    container, a formula and a result store from argument tuples to values;
    [cells_parent] is the link to the owner, which [remove_cells] clears. *)
Record CellsImpl : Type := mkCellsImpl {
  cells_name : string;
  cells_parent : option SpaceId;
  formula : Formula;
  cells_data : list (list Value * Value);
}.

(** Modelled from the spec: a cell holding a single value is one whose
    formula has no parameters. *)
Definition has_single_value (c : CellsImpl) : bool :=
  match parameters (formula c) with [] => true | _ :: _ => false end.

(** Modelled from the spec: [set_value(args, v)] stores a literal value for
    [args] in the result store. *)
Definition set_value (args : list Value) (v : Value) (c : CellsImpl)
  : CellsImpl :=
  {| cells_name := cells_name c; cells_parent := cells_parent c;
     formula := formula c;
     cells_data := PyDict.set args v (cells_data c) |}.

Definition clear_parent (c : CellsImpl) : CellsImpl :=
  {| cells_name := cells_name c; cells_parent := None;
     formula := formula c; cells_data := cells_data c |}.

(** The state of an [AutoNamer], of [modelx.core.util]: the base name it was
    made with and how many names it has handed out. *)
Record AutoNamer : Type := mkAutoNamer {
  basename : string;
  last_postfix : nat;
}.

(** ** Lazily evaluated objects

    Every space owns the [LazyEval] objects that [_init_members] creates.
    The model keeps their data in the fields of the space and their
    [needs_update] flags in one list per space. *)

Inductive LazyKind : Type :=
  | K_arguments
  | K_self_cells | K_self_spaces | K_self_refs | K_dynamic_spaces
  | K_self_members
  | K_base_cells | K_base_spaces | K_base_refs
  | K_derived_cells | K_derived_spaces | K_derived_refs
  | K_cells | K_static_spaces | K_spaces | K_refs
  | K_namespace_impl | K_namespace.

#[global] Instance LazyKind_eq_dec : EqDecision LazyKind.
Proof. solve_decision. Defined.


(** ** Spaces

    The attributes of a [SpaceImpl] object, those it inherits from
    [SpaceContainerImpl] first.  The [set_] functions below assign one
    attribute. *)

Record SpaceImpl : Type := mkSpaceImpl {
  (* SpaceContainerImpl.__init__ *)
  param_spaces : list (list Value * SpaceId);
  spacenamer : AutoNamer;
  paramfunc : option Formula;
  (* SpaceImpl.__init__ *)
  name : string;
  parent : Container;
  cellsnamer : AutoNamer;
  _arguments : list (string * Value);
  direct_bases : list SpaceId;
  mro : list SpaceId;
  (* SpaceImpl._init_members *)
  _self_cells : list (string * CellsId);
  _self_spaces : list (string * SpaceId);
  _dynamic_spaces : list (string * SpaceId);
  _self_refs : list (string * Value);
  _derived_cells : list (string * CellsId);
  _derived_spaces : list (string * SpaceId);
  _derived_refs : list (string * Value);
  _global_refs : list (string * Value);
  (* the data of [_derived_cells._base_members] *)
  _base_cells : list (string * CellsId);
  (* the LazyEval objects of the space whose flag is set *)
  needs_update : list LazyKind;
}.

Definition set_param_spaces (v : list (list Value * SpaceId)) (s : SpaceImpl) : SpaceImpl :=
  {| param_spaces := v; spacenamer := spacenamer s; paramfunc := paramfunc s;
     name := name s; parent := parent s; cellsnamer := cellsnamer s;
     _arguments := _arguments s; direct_bases := direct_bases s;
     mro := mro s; _self_cells := _self_cells s;
     _self_spaces := _self_spaces s; _dynamic_spaces := _dynamic_spaces s;
     _self_refs := _self_refs s; _derived_cells := _derived_cells s;
     _derived_spaces := _derived_spaces s; _derived_refs := _derived_refs s;
     _global_refs := _global_refs s; _base_cells := _base_cells s;
     needs_update := needs_update s |}.

Definition set_spacenamer (v : AutoNamer) (s : SpaceImpl) : SpaceImpl :=
  {| param_spaces := param_spaces s; spacenamer := v;
     paramfunc := paramfunc s; name := name s; parent := parent s;
     cellsnamer := cellsnamer s; _arguments := _arguments s;
     direct_bases := direct_bases s; mro := mro s;
     _self_cells := _self_cells s; _self_spaces := _self_spaces s;
     _dynamic_spaces := _dynamic_spaces s; _self_refs := _self_refs s;
     _derived_cells := _derived_cells s;
     _derived_spaces := _derived_spaces s; _derived_refs := _derived_refs s;
     _global_refs := _global_refs s; _base_cells := _base_cells s;
     needs_update := needs_update s |}.

Definition set_direct_bases (v : list SpaceId) (s : SpaceImpl) : SpaceImpl :=
  {| param_spaces := param_spaces s; spacenamer := spacenamer s;
     paramfunc := paramfunc s; name := name s; parent := parent s;
     cellsnamer := cellsnamer s; _arguments := _arguments s;
     direct_bases := v; mro := mro s; _self_cells := _self_cells s;
     _self_spaces := _self_spaces s; _dynamic_spaces := _dynamic_spaces s;
     _self_refs := _self_refs s; _derived_cells := _derived_cells s;
     _derived_spaces := _derived_spaces s; _derived_refs := _derived_refs s;
     _global_refs := _global_refs s; _base_cells := _base_cells s;
     needs_update := needs_update s |}.

Definition set_mro (v : list SpaceId) (s : SpaceImpl) : SpaceImpl :=
  {| param_spaces := param_spaces s; spacenamer := spacenamer s;
     paramfunc := paramfunc s; name := name s; parent := parent s;
     cellsnamer := cellsnamer s; _arguments := _arguments s;
     direct_bases := direct_bases s; mro := v; _self_cells := _self_cells s;
     _self_spaces := _self_spaces s; _dynamic_spaces := _dynamic_spaces s;
     _self_refs := _self_refs s; _derived_cells := _derived_cells s;
     _derived_spaces := _derived_spaces s; _derived_refs := _derived_refs s;
     _global_refs := _global_refs s; _base_cells := _base_cells s;
     needs_update := needs_update s |}.

Definition set_self_cells (v : list (string * CellsId)) (s : SpaceImpl) : SpaceImpl :=
  {| param_spaces := param_spaces s; spacenamer := spacenamer s;
     paramfunc := paramfunc s; name := name s; parent := parent s;
     cellsnamer := cellsnamer s; _arguments := _arguments s;
     direct_bases := direct_bases s; mro := mro s; _self_cells := v;
     _self_spaces := _self_spaces s; _dynamic_spaces := _dynamic_spaces s;
     _self_refs := _self_refs s; _derived_cells := _derived_cells s;
     _derived_spaces := _derived_spaces s; _derived_refs := _derived_refs s;
     _global_refs := _global_refs s; _base_cells := _base_cells s;
     needs_update := needs_update s |}.

Definition set_self_spaces (v : list (string * SpaceId)) (s : SpaceImpl) : SpaceImpl :=
  {| param_spaces := param_spaces s; spacenamer := spacenamer s;
     paramfunc := paramfunc s; name := name s; parent := parent s;
     cellsnamer := cellsnamer s; _arguments := _arguments s;
     direct_bases := direct_bases s; mro := mro s;
     _self_cells := _self_cells s; _self_spaces := v;
     _dynamic_spaces := _dynamic_spaces s; _self_refs := _self_refs s;
     _derived_cells := _derived_cells s;
     _derived_spaces := _derived_spaces s; _derived_refs := _derived_refs s;
     _global_refs := _global_refs s; _base_cells := _base_cells s;
     needs_update := needs_update s |}.

Definition set_dynamic_spaces (v : list (string * SpaceId)) (s : SpaceImpl) : SpaceImpl :=
  {| param_spaces := param_spaces s; spacenamer := spacenamer s;
     paramfunc := paramfunc s; name := name s; parent := parent s;
     cellsnamer := cellsnamer s; _arguments := _arguments s;
     direct_bases := direct_bases s; mro := mro s;
     _self_cells := _self_cells s; _self_spaces := _self_spaces s;
     _dynamic_spaces := v; _self_refs := _self_refs s;
     _derived_cells := _derived_cells s;
     _derived_spaces := _derived_spaces s; _derived_refs := _derived_refs s;
     _global_refs := _global_refs s; _base_cells := _base_cells s;
     needs_update := needs_update s |}.

Definition set_self_refs (v : list (string * Value)) (s : SpaceImpl) : SpaceImpl :=
  {| param_spaces := param_spaces s; spacenamer := spacenamer s;
     paramfunc := paramfunc s; name := name s; parent := parent s;
     cellsnamer := cellsnamer s; _arguments := _arguments s;
     direct_bases := direct_bases s; mro := mro s;
     _self_cells := _self_cells s; _self_spaces := _self_spaces s;
     _dynamic_spaces := _dynamic_spaces s; _self_refs := v;
     _derived_cells := _derived_cells s;
     _derived_spaces := _derived_spaces s; _derived_refs := _derived_refs s;
     _global_refs := _global_refs s; _base_cells := _base_cells s;
     needs_update := needs_update s |}.

Definition set_derived_cells (v : list (string * CellsId)) (s : SpaceImpl) : SpaceImpl :=
  {| param_spaces := param_spaces s; spacenamer := spacenamer s;
     paramfunc := paramfunc s; name := name s; parent := parent s;
     cellsnamer := cellsnamer s; _arguments := _arguments s;
     direct_bases := direct_bases s; mro := mro s;
     _self_cells := _self_cells s; _self_spaces := _self_spaces s;
     _dynamic_spaces := _dynamic_spaces s; _self_refs := _self_refs s;
     _derived_cells := v; _derived_spaces := _derived_spaces s;
     _derived_refs := _derived_refs s; _global_refs := _global_refs s;
     _base_cells := _base_cells s; needs_update := needs_update s |}.

Definition set_derived_spaces (v : list (string * SpaceId)) (s : SpaceImpl) : SpaceImpl :=
  {| param_spaces := param_spaces s; spacenamer := spacenamer s;
     paramfunc := paramfunc s; name := name s; parent := parent s;
     cellsnamer := cellsnamer s; _arguments := _arguments s;
     direct_bases := direct_bases s; mro := mro s;
     _self_cells := _self_cells s; _self_spaces := _self_spaces s;
     _dynamic_spaces := _dynamic_spaces s; _self_refs := _self_refs s;
     _derived_cells := _derived_cells s; _derived_spaces := v;
     _derived_refs := _derived_refs s; _global_refs := _global_refs s;
     _base_cells := _base_cells s; needs_update := needs_update s |}.

Definition set_derived_refs (v : list (string * Value)) (s : SpaceImpl) : SpaceImpl :=
  {| param_spaces := param_spaces s; spacenamer := spacenamer s;
     paramfunc := paramfunc s; name := name s; parent := parent s;
     cellsnamer := cellsnamer s; _arguments := _arguments s;
     direct_bases := direct_bases s; mro := mro s;
     _self_cells := _self_cells s; _self_spaces := _self_spaces s;
     _dynamic_spaces := _dynamic_spaces s; _self_refs := _self_refs s;
     _derived_cells := _derived_cells s;
     _derived_spaces := _derived_spaces s; _derived_refs := v;
     _global_refs := _global_refs s; _base_cells := _base_cells s;
     needs_update := needs_update s |}.

Definition set_global_refs (v : list (string * Value)) (s : SpaceImpl) : SpaceImpl :=
  {| param_spaces := param_spaces s; spacenamer := spacenamer s;
     paramfunc := paramfunc s; name := name s; parent := parent s;
     cellsnamer := cellsnamer s; _arguments := _arguments s;
     direct_bases := direct_bases s; mro := mro s;
     _self_cells := _self_cells s; _self_spaces := _self_spaces s;
     _dynamic_spaces := _dynamic_spaces s; _self_refs := _self_refs s;
     _derived_cells := _derived_cells s;
     _derived_spaces := _derived_spaces s; _derived_refs := _derived_refs s;
     _global_refs := v; _base_cells := _base_cells s;
     needs_update := needs_update s |}.

Definition set_arguments (v : list (string * Value)) (s : SpaceImpl) : SpaceImpl :=
  {| param_spaces := param_spaces s; spacenamer := spacenamer s;
     paramfunc := paramfunc s; name := name s; parent := parent s;
     cellsnamer := cellsnamer s; _arguments := v;
     direct_bases := direct_bases s; mro := mro s;
     _self_cells := _self_cells s; _self_spaces := _self_spaces s;
     _dynamic_spaces := _dynamic_spaces s; _self_refs := _self_refs s;
     _derived_cells := _derived_cells s;
     _derived_spaces := _derived_spaces s; _derived_refs := _derived_refs s;
     _global_refs := _global_refs s; _base_cells := _base_cells s;
     needs_update := needs_update s |}.

Definition set_base_cells (v : list (string * CellsId)) (s : SpaceImpl) : SpaceImpl :=
  {| param_spaces := param_spaces s; spacenamer := spacenamer s;
     paramfunc := paramfunc s; name := name s; parent := parent s;
     cellsnamer := cellsnamer s; _arguments := _arguments s;
     direct_bases := direct_bases s; mro := mro s;
     _self_cells := _self_cells s; _self_spaces := _self_spaces s;
     _dynamic_spaces := _dynamic_spaces s; _self_refs := _self_refs s;
     _derived_cells := _derived_cells s;
     _derived_spaces := _derived_spaces s; _derived_refs := _derived_refs s;
     _global_refs := _global_refs s; _base_cells := v;
     needs_update := needs_update s |}.

Definition set_needs_update (v : list LazyKind) (s : SpaceImpl) : SpaceImpl :=
  {| param_spaces := param_spaces s; spacenamer := spacenamer s;
     paramfunc := paramfunc s; name := name s; parent := parent s;
     cellsnamer := cellsnamer s; _arguments := _arguments s;
     direct_bases := direct_bases s; mro := mro s;
     _self_cells := _self_cells s; _self_spaces := _self_spaces s;
     _dynamic_spaces := _dynamic_spaces s; _self_refs := _self_refs s;
     _derived_cells := _derived_cells s;
     _derived_spaces := _derived_spaces s; _derived_refs := _derived_refs s;
     _global_refs := _global_refs s; _base_cells := _base_cells s;
     needs_update := v |}.

(** ** The model and the store

    The model, as far as it is a [SpaceContainerImpl]: the attributes that
    [SpaceContainerImpl.__init__] sets ([ModelImpl] itself is in
    [modelx.core.model], not among the sources). *)
Record ModelImpl : Type := mkModelImpl {
  model_param_spaces : list (list Value * SpaceId);
  model_spacenamer : AutoNamer;
  model_paramfunc : option Formula;
  model_spaces : list (string * SpaceId);
}.

(** The heap: the spaces and cells created so far, each under its index,
    the one model, and [system.self]. *)
Record Store : Type := mkStore {
  heap_spaces : list SpaceImpl;
  heap_cells : list CellsImpl;
  the_model : ModelImpl;
  system_self : option Container;
}.

Definition set_heap_spaces (v : list SpaceImpl) (st : Store) : Store :=
  {| heap_spaces := v; heap_cells := heap_cells st;
     the_model := the_model st; system_self := system_self st |}.

Definition set_heap_cells (v : list CellsImpl) (st : Store) : Store :=
  {| heap_spaces := heap_spaces st; heap_cells := v;
     the_model := the_model st; system_self := system_self st |}.

Definition set_the_model (v : ModelImpl) (st : Store) : Store :=
  {| heap_spaces := heap_spaces st; heap_cells := heap_cells st;
     the_model := v; system_self := system_self st |}.

Definition set_system_self (v : option Container) (st : Store) : Store :=
  {| heap_spaces := heap_spaces st; heap_cells := heap_cells st;
     the_model := the_model st; system_self := v |}.

(** Mutation of the space object [i]. *)
Definition update_space (i : SpaceId) (f : SpaceImpl → SpaceImpl)
    (st : Store) : Store :=
  set_heap_spaces (alter f i (heap_spaces st)) st.

Definition update_cells (i : CellsId) (f : CellsImpl → CellsImpl)
    (st : Store) : Store :=
  set_heap_cells (alter f i (heap_cells st)) st.

Definition new_model : Store :=
  {| heap_spaces := []; heap_cells := [];
     the_model := {| model_param_spaces := [];
                     model_spacenamer := mkAutoNamer "Space" 0;
                     model_paramfunc := None; model_spaces := [] |};
     system_self := None |}.

(** ** Collaborators that are not among the sources

    [is_valid_name] and [AutoNamer.get_next] belong to [modelx.core.util],
    and [LazyEvalChainMap] to [modelx.core.base].  The operations stay
    parameters of the model.  [chain_getitem maps k] is [view[k]] and
    [chain_setitem maps k v] is [view[k] = v] on a chain map over [maps]:
    the assignment hands back the maps as it leaves them. *)

Class Collaborators : Type := {
  is_valid_name : string → bool;
  get_next : AutoNamer → list string → string * AutoNamer;
  chain_getitem : ∀ V : Type,
    list (list (string * V)) → string → option V;
  chain_setitem : ∀ V : Type,
    list (list (string * V)) → string → V → list (list (string * V));
}.
Arguments chain_getitem {_ V} maps k.
Arguments chain_setitem {_ V} maps k v.

(** [k in view]: a key of one of the maps. *)
Definition chain_mem {V : Type} (maps : list (list (string * V)))
    (k : string) : bool :=
  existsb (PyDict.mem k) maps.
Arguments chain_mem : simpl never.

(** What every mapping promises of item assignment, and that a chain map
    finds the keys of its maps with values they hold. *)
Class ChainMapLaws `{Collaborators} : Prop := {
  chain_setitem_length : ∀ V (maps : list (list (string * V))) k v,
    length (chain_setitem maps k v) = length maps;
  chain_getitem_setitem : ∀ V (maps : list (list (string * V))) k v,
    maps ≠ [] → chain_getitem (chain_setitem maps k v) k = Some v;
  chain_mem_setitem : ∀ V (maps : list (list (string * V))) k v,
    maps ≠ [] → chain_mem (chain_setitem maps k v) k = true;
  chain_getitem_mem : ∀ V (maps : list (list (string * V))) k,
    chain_mem maps k = true → is_Some (chain_getitem maps k);
}.

(** The views of a space, as the lists of maps they chain.  [_spaces]
    chains [_static_spaces] and [_dynamic_spaces], and [_static_spaces]
    chains [_self_spaces] and [_derived_spaces]. *)
Definition cells_maps (s : SpaceImpl) : list (list (string * CellsId)) :=
  [_self_cells s; _derived_cells s].

Definition static_spaces_maps (s : SpaceImpl)
  : list (list (string * SpaceId)) :=
  [_self_spaces s; _derived_spaces s].

Definition spaces_maps (s : SpaceImpl) : list (list (string * SpaceId)) :=
  static_spaces_maps s ++ [_dynamic_spaces s].

Definition refs_maps (s : SpaceImpl) : list (list (string * Value)) :=
  [_global_refs s; _arguments s; _self_refs s; _derived_refs s].

Definition self_members_keys (s : SpaceImpl) : list string :=
  PyDict.keys (_self_cells s) ++ PyDict.keys (_self_spaces s) ++
  PyDict.keys (_self_refs s) ++ PyDict.keys (_dynamic_spaces s).

(** [name in self.namespace]: [NameSpaceDict._update_data] fills the
    namespace from [cells], [spaces] and [refs]. *)
Definition in_namespace (s : SpaceImpl) (nm : string) : bool :=
  chain_mem (cells_maps s) nm || chain_mem (spaces_maps s) nm
  || chain_mem (refs_maps s) nm.

(** Writing the maps of a view back into the fields they come from. *)
Definition put_static_spaces (maps : list (list (string * SpaceId)))
    (s : SpaceImpl) : SpaceImpl :=
  match maps with
  | [a; b] => set_derived_spaces b (set_self_spaces a s)
  | _ => s
  end.

Definition put_refs (maps : list (list (string * Value)))
    (s : SpaceImpl) : SpaceImpl :=
  match maps with
  | [g; a; r; d] =>
      set_derived_refs d (set_self_refs r (set_arguments a
        (set_global_refs g s)))
  | _ => s
  end.

(** ** Containers: what [SpaceContainerImpl] gives the model and a space *)

Definition c_paramfunc (st : Store) (c : Container) : option Formula :=
  match c with
  | TheModel => model_paramfunc (the_model st)
  | Space i => s ← heap_spaces st !! i; paramfunc s
  end.

Definition c_param_spaces (st : Store) (c : Container)
  : list (list Value * SpaceId) :=
  match c with
  | TheModel => model_param_spaces (the_model st)
  | Space i => default [] (param_spaces <$> heap_spaces st !! i)
  end.

Definition c_spacenamer (st : Store) (c : Container) : AutoNamer :=
  match c with
  | TheModel => model_spacenamer (the_model st)
  | Space i =>
      default (mkAutoNamer "Space" 0) (spacenamer <$> heap_spaces st !! i)
  end.

(** The names in [parent.spaces]. *)
Definition spaces_keys (st : Store) (c : Container) : list string :=
  match c with
  | TheModel => PyDict.keys (model_spaces (the_model st))
  | Space i =>
      match heap_spaces st !! i with
      | Some s => concat (map PyDict.keys (spaces_maps s))
      | None => []
      end
  end.

(** [has_space]: [name in self.spaces]. *)
Definition has_space (st : Store) (c : Container) (nm : string) : bool :=
  match c with
  | TheModel => PyDict.mem nm (model_spaces (the_model st))
  | Space i =>
      match heap_spaces st !! i with
      | Some s => chain_mem (spaces_maps s) nm
      | None => false
      end
  end.

Definition put_param_spaces (c : Container)
    (v : list (list Value * SpaceId)) (st : Store) : Store :=
  match c with
  | TheModel =>
      set_the_model
        {| model_param_spaces := v;
           model_spacenamer := model_spacenamer (the_model st);
           model_paramfunc := model_paramfunc (the_model st);
           model_spaces := model_spaces (the_model st) |} st
  | Space i => update_space i (set_param_spaces v) st
  end.

Definition put_spacenamer (c : Container) (v : AutoNamer) (st : Store)
  : Store :=
  match c with
  | TheModel =>
      set_the_model
        {| model_param_spaces := model_param_spaces (the_model st);
           model_spacenamer := v;
           model_paramfunc := model_paramfunc (the_model st);
           model_spaces := model_spaces (the_model st) |} st
  | Space i => update_space i (set_spacenamer v) st
  end.

Definition put_model_spaces (v : list (string * SpaceId)) (st : Store)
  : Store :=
  set_the_model
    {| model_param_spaces := model_param_spaces (the_model st);
       model_spacenamer := model_spacenamer (the_model st);
       model_paramfunc := model_paramfunc (the_model st);
       model_spaces := v |} st.

(** ** Invalidation

    Modelled from the spec: [LazyEval], of [modelx.core.base].  A lazily
    evaluated object has a [needs_update] flag and observers;
    [set_update] sets the flag (unless [skip_self]) and passes
    [set_update] on to every observer, and [update_data] recomputes the
    object when the flag is set and then clears the flag.  A chain map
    observes the maps it chains.  The other observers are the ones that
    [SpaceImpl._init_members] and [BaseMembers.__init__] register. *)

Abbreviation LazyRef := (nat * LazyKind)%type (only parsing).

Definition mark (k : LazyKind) (s : SpaceImpl) : SpaceImpl :=
  if bool_decide (k ∈ needs_update s) then s
  else set_needs_update (needs_update s ++ [k]) s.

Definition unmark (k : LazyKind) (s : SpaceImpl) : SpaceImpl :=
  set_needs_update (filter (λ k', k' ≠ k) (needs_update s)) s.

Definition flagged (st : Store) (o : LazyRef) : bool :=
  match heap_spaces st !! o.1 with
  | Some s => bool_decide (o.2 ∈ needs_update s)
  | None => false
  end.

(** The spaces that have [i] among their bases: the [BaseMembers] of each
    observes [i._self_members]. *)
Definition derived_from (st : Store) (i : SpaceId) : list SpaceId :=
  concat (imap (λ d s, if bool_decide (i ∈ tail (mro s)) then [d] else [])
               (heap_spaces st)).

Definition observers (st : Store) (o : LazyRef) : list LazyRef :=
  let i := o.1 in
  match o.2 with
  | K_arguments => [(i, K_refs)]
  | K_self_cells => [(i, K_self_members); (i, K_cells)]
  | K_self_spaces => [(i, K_self_members); (i, K_static_spaces)]
  | K_self_refs => [(i, K_self_members); (i, K_refs)]
  | K_dynamic_spaces => [(i, K_self_members); (i, K_spaces)]
  | K_self_members =>
      [(i, K_derived_cells); (i, K_derived_spaces); (i, K_derived_refs)]
      ++ concat (map (λ d, [(d, K_base_cells); (d, K_base_spaces);
                            (d, K_base_refs)])
                     (derived_from st i))
  | K_base_cells => [(i, K_derived_cells)]
  | K_base_spaces => [(i, K_derived_spaces)]
  | K_base_refs => [(i, K_derived_refs)]
  | K_derived_cells => [(i, K_cells)]
  | K_derived_spaces => [(i, K_static_spaces)]
  | K_derived_refs => [(i, K_refs)]
  | K_cells => [(i, K_namespace_impl)]
  | K_static_spaces => [(i, K_spaces)]
  | K_spaces => [(i, K_namespace_impl)]
  | K_refs => [(i, K_namespace_impl)]
  | K_namespace_impl => [(i, K_namespace)]
  | K_namespace => []
  end.

(** [set_update()] on each of [os] in turn.  No path of observers is longer
    than seven links, from [_self_cells] to [_namespace]; [depth] bounds the
    length of the paths followed. *)
Fixpoint propagate (depth : nat) (os : list LazyRef) (st : Store) : Store :=
  match depth with
  | O => st
  | S depth' =>
      foldl (λ st o,
               propagate depth' (observers st o) (update_space o.1 (mark o.2) st))
            st os
  end.

(** The longest path of observers that starts at an object of the kind. *)
Definition height (k : LazyKind) : nat :=
  match k with
  | K_namespace => 0
  | K_namespace_impl => 1
  | K_cells | K_spaces | K_refs => 2
  | K_static_spaces | K_derived_cells | K_derived_refs | K_arguments => 3
  | K_derived_spaces | K_base_cells | K_base_refs => 4
  | K_base_spaces => 5
  | K_self_members => 6
  | K_self_cells | K_self_spaces | K_self_refs | K_dynamic_spaces => 7
  end.

Definition set_update (o : LazyRef) (skip_self : bool) (st : Store) : Store :=
  propagate 8 (observers st o)
    (if skip_self then st else update_space o.1 (mark o.2) st).

(** ** [SpaceImpl._update_mro] *)

Definition mro_of (st : Store) (b : SpaceId) : list SpaceId :=
  match heap_spaces st !! b with
  | Some s => mro s
  | None => []
  end.

(** [seqs] holds a copy of the [mro] of every direct base and, last, the
    list [self.direct_bases] itself, not a copy: what the merge deletes from
    that sequence it deletes from [self.direct_bases].  The model writes the
    last sequence back into the field.  [c3_merge_total] shows that the
    merge never runs out of fuel, so the last case is never taken. *)
Definition _update_mro (st : Store) (self_id : SpaceId) (self : SpaceImpl)
  : Res unit * SpaceImpl :=
  let seqs := map (mro_of st) (direct_bases self) ++ [direct_bases self] in
  match c3_merge seqs with
  | Some (Ok res, seqs') =>
      (Ok (), set_mro ([self_id] ++ res)
                (set_direct_bases (default [] (last seqs')) self))
  | Some (Raise e, seqs') =>
      (Raise e, set_direct_bases (default [] (last seqs')) self)
  | None => (Raise (UserError "unreachable"), self)
  end.

(** ** [SpaceImpl.__init__] *)

(** The [bases] argument: [None], one space, or a sequence of spaces. *)
Inductive Bases : Type :=
  | BasesNone
  | BasesOne (b : SpaceId)
  | BasesSeq (bs : list SpaceId).

Definition bases_list (bases : Bases) : list SpaceId :=
  match bases with
  | BasesNone => []
  | BasesOne b => [b]
  | BasesSeq bs => bs
  end.

(** The object as [__init__] has it when it calls [_update_mro]: the
    attributes set by [SpaceContainerImpl.__init__] and by the lines before
    the call.  The members are not there yet; their fields are empty. *)
Definition blank_space (parent : Container) (nm : string)
    (bases : Bases) (paramfunc : option Formula)
    (arguments : option (list (string * Value))) : SpaceImpl :=
  {| param_spaces := [];
     spacenamer := mkAutoNamer "Space" 0;
     paramfunc := paramfunc;
     name := nm;
     parent := parent;
     cellsnamer := mkAutoNamer "Cells" 0;
     _arguments := default [] arguments;
     direct_bases := bases_list bases;
     mro := [];
     _self_cells := []; _self_spaces := []; _dynamic_spaces := [];
     _self_refs := []; _derived_cells := []; _derived_spaces := [];
     _derived_refs := []; _global_refs := []; _base_cells := [];
     needs_update := [] |}.

(** [_init_members] creates the member maps and wires their observers (the
    wiring is [observers] above).  Modelled from the spec: derived members
    are recomputed when the own members of an ancestor change, never
    eagerly.  So every map starts empty and clean, but for [_global_refs],
    and the derived members are filled in when they are recomputed
    ([DerivedMembers_update_data] below). *)
Definition _init_members (self_id : SpaceId) (self : SpaceImpl) : SpaceImpl :=
  set_global_refs [("__builtins__", VBuiltins); ("get_self", VGetSelf self_id)]
    self.

(** [is_dynamic]: [bool(self._arguments)] *)
Definition is_dynamic (s : SpaceImpl) : bool :=
  match _arguments s with [] => false | _ :: _ => true end.

(** The last lines of [__init__]: the new space is entered in its parent. *)
Definition register `{Collaborators} (self_id : SpaceId) (self : SpaceImpl)
    (st : Store) : Store :=
  match parent self with
  | Space p =>
      if is_dynamic self then
        update_space p
          (λ ps, set_dynamic_spaces
                   (PyDict.set (name self) self_id (_dynamic_spaces ps)) ps) st
      else
        update_space p
          (λ ps, put_static_spaces
                   (chain_setitem (static_spaces_maps ps) (name self) self_id)
                   ps) st
  | TheModel =>
      put_model_spaces
        (PyDict.set (name self) self_id (model_spaces (the_model st))) st
  end.

Definition name_already_assigned : PyExc := ValueError "Name already assigned.".

Definition invalid_name (nm : string) : PyExc :=
  ValueError ("Invalid name '" ++ nm ++ "'.").

(** The first lines of the constructor: the name, given or made up by
    [parent.spacenamer]. *)
Definition init_named `{Collaborators} (parent : Container)
    (nm : option string) (st : Store) : string * Store :=
  match nm with
  | None =>
      let '(n, namer) :=
        get_next (c_spacenamer st parent) (spaces_keys st parent) in
      (n, put_spacenamer parent namer st)
  | Some n => (n, st)
  end.

(** The constructor.  The object under construction is [self]; it enters
    the heap once [_init_members] is through, under the next free index.
    When the constructor raises, the object is dropped and the store is
    left as the lines before the [raise] made it. *)
Definition SpaceImpl_init `{Collaborators} (parent : Container)
    (nm : option string) (bases : Bases) (paramfunc : option Formula)
    (arguments : option (list (string * Value))) (st : Store)
  : Res SpaceId * Store :=
  let '(nm, st) := init_named parent nm st in
  if has_space st parent nm then (Raise name_already_assigned, st)
  else if negb (is_valid_name nm) then (Raise (invalid_name nm), st)
  else
    let self_id := length (heap_spaces st) in
    let self := blank_space parent nm bases paramfunc arguments in
    match _update_mro st self_id self with
    | (Raise e, _) => (Raise e, st)
    | (Ok _, self) =>
        let self := _init_members self_id self in
        let st := set_heap_spaces (heap_spaces st ++ [self]) st in
        (Ok self_id, register self_id self st)
    end.

(** [SpaceContainerImpl.new_space] *)
Definition new_space `{Collaborators} (self : Container) (nm : option string)
    (bases : Bases) (paramfunc : option Formula)
    (arguments : option (list (string * Value))) (st : Store)
  : Res SpaceId * Store :=
  SpaceImpl_init self nm bases paramfunc arguments st.

(** ** [SpaceContainerImpl.get_space] *)

(** Modelled from the spec: [ObjectArgs], of [modelx.core.base].  The
    arguments are bound to the declared signature by position, then by
    name, then by default; [arguments] maps the parameter names to the
    values in the order of the signature, and [argvalues] is the tuple of
    the values. *)
Fixpoint bind_params (params : list (string * option Value))
    (args : list Value) (kwargs : list (string * Value))
  : Res (list (string * Value)) :=
  match params with
  | [] =>
      match args, kwargs with
      | [], [] => Ok []
      | _, _ => Raise (TypeError "too many arguments")
      end
  | (p, dflt) :: params' =>
      match args with
      | a :: args' =>
          if PyDict.mem p kwargs
          then Raise (TypeError "multiple values for argument")
          else
            match bind_params params' args' kwargs with
            | Ok bound => Ok ((p, a) :: bound)
            | Raise e => Raise e
            end
      | [] =>
          match PyDict.get p kwargs, dflt with
          | Some a, _ | None, Some a =>
              match bind_params params' [] (PyDict.del p kwargs) with
              | Ok bound => Ok ((p, a) :: bound)
              | Raise e => Raise e
              end
          | None, None => Raise (TypeError "missing a required argument")
          end
      end
  end.

(** The keyword arguments of [new_space] that a parameter formula returns.
    A key that the mapping lacks is [None] here, the default of
    [new_space]. *)
Record SpaceKwargs : Type := mkSpaceKwargs {
  kw_name : option string;
  kw_bases : Bases;
  kw_paramfunc : option Formula;
}.

Definition no_kwargs : SpaceKwargs :=
  {| kw_name := None; kw_bases := BasesNone; kw_paramfunc := None |}.

(** How parameter formulas run: [SpaceArgs.eval_formula] calls the
    function of [paramfunc] with the bound arguments in the namespace of
    the container.  The call returns [None] or a mapping, or raises, and
    may change the store on the way (a formula may call [get_space]). *)
Definition ParamFuncRun : Type :=
  Formula → Container → list (string * Value) → Store →
  Res (option SpaceKwargs) * Store.

Definition get_space `{Collaborators} (run : ParamFuncRun) (self : Container)
    (args : list Value) (kwargs : list (string * Value)) (st : Store)
  : Res SpaceId * Store :=
  match c_paramfunc st self with
  | None =>
      (Raise (AttributeError "'NoneType' object has no attribute 'signature'"),
       st)
  | Some pf =>
      match bind_params (parameters pf) args kwargs with
      | Raise e => (Raise e, st)
      | Ok arguments =>
          let argvalues := PyDict.values arguments in
          match PyDict.get argvalues (c_param_spaces st self) with
          | Some space => (Ok space, st)
          | None =>
              let last_self := system_self st in
              let st := set_system_self (Some self) st in
              let '(space_args, st) := run pf self arguments st in
              let st := set_system_self last_self st in
              match space_args with
              | Raise e => (Raise e, st)
              | Ok space_args =>
                  (* [None] becomes the empty mapping; [get_impls] leaves
                     the spaces of the model as they are *)
                  let space_args := default no_kwargs space_args in
                  match new_space self (kw_name space_args)
                          (kw_bases space_args) (kw_paramfunc space_args)
                          (Some arguments) st with
                  | (Raise e, st) => (Raise e, st)
                  | (Ok space, st) =>
                      (Ok space,
                       put_param_spaces self
                         (PyDict.set argvalues space (c_param_spaces st self))
                         st)
                  end
              end
          end
      end
  end.

(** ** Cells of a space *)

(** Modelled from the spec: the constructor of [CellsImpl], of
    [modelx.core.cells].  It makes a computed entry of the given name, bound
    to the container [space], whose formula is the [Formula] object it is
    given.  The new object gets the next free index of the heap. *)
Definition CellsImpl_init (space : SpaceId) (nm : string) (func : Formula)
    (st : Store) : CellsId * Store :=
  (length (heap_cells st),
   set_heap_cells
     (heap_cells st ++
        [{| cells_name := nm; cells_parent := Some space; formula := func;
            cells_data := [] |}]) st).

(** [set_cells]: the assignment and the [set_update(skip_self=True)] that
    follows it. *)
Definition set_cells (self : SpaceId) (nm : string) (cells : CellsId)
    (st : Store) : Store :=
  set_update (self, K_self_cells) true
    (update_space self
       (λ s, set_self_cells (PyDict.set nm cells (_self_cells s)) s) st).

Definition new_cells (self : SpaceId) (nm : string) (func : Formula)
    (st : Store) : CellsId * Store :=
  let '(cells, st) := CellsImpl_init self nm func st in
  (cells, set_cells self nm cells st).

(** ** [BaseMembers._update_data] *)

(** One turn of the loop over [zip(bases, bases[1:])]: the own members of
    [base] are added, and the names that [base_next] has among its own
    members are taken out.  [attr] reads the attribute [self_<member>]. *)
Definition BaseMembers_step {V : Type}
    (attr : SpaceImpl → list (string * V)) (st : Store)
    (data : list (string * V)) (pair : SpaceId * SpaceId)
  : list (string * V) :=
  match heap_spaces st !! pair.1, heap_spaces st !! pair.2 with
  | Some base, Some base_next =>
      let data := PyDict.update data (attr base) in
      let keys :=
        filter (λ k, k ∉ self_members_keys base_next) (PyDict.keys data) in
      foldl (λ d nm, if bool_decide (nm ∈ keys) then d else PyDict.del nm d)
            data (PyDict.keys data)
  | _, _ => data
  end.

Definition BaseMembers_update_data {V : Type}
    (attr : SpaceImpl → list (string * V)) (st : Store) (space : SpaceImpl)
  : list (string * V) :=
  let bases := reverse (mro space) in
  foldl (BaseMembers_step attr st) [] (zip bases (tail bases)).

(** The property [base_members] of the derived cells of [self]:
    [update_data()] on the [BaseMembers] object. *)
Definition base_members (self : SpaceId) (st : Store) : Store :=
  if flagged st (self, K_base_cells) then
    update_space self
      (λ s, unmark K_base_cells
              (set_base_cells (BaseMembers_update_data _self_cells st s) s))
      st
  else st.

(** ** [DerivedMembers._update_data_cells] *)

(** [self.data[key].formula is base_cell.formula], for a [key] in
    [self.data]. *)
Definition same_formula (st : Store) (data : list (string * CellsId))
    (key : string) (base_cell : CellsImpl) : bool :=
  match PyDict.get key data with
  | Some c =>
      match heap_cells st !! c with
      | Some cell => formula_is (formula cell) (formula base_cell)
      | None => false
      end
  | None => false
  end.

(** The loop over [self.base_members.items()].  When it meets a derived
    cell whose formula is the formula of the base cell, the method returns:
    the items after it are not visited. *)
Fixpoint update_cells_items (self : SpaceId)
    (items : list (string * CellsId)) (data : list (string * CellsId))
    (st : Store) : list (string * CellsId) * Store :=
  match items with
  | [] => (data, st)
  | (key, base_cell) :: items' =>
      match heap_cells st !! base_cell with
      | None => (data, st)
      | Some base =>
          if same_formula st data key base then (data, st)
          else
            let data := PyDict.del key data in
            let '(cell, st) :=
              CellsImpl_init self (cells_name base) (formula base) st in
            update_cells_items self items' (PyDict.set key cell data) st
      end
  end.

(** The body of the method on the data of the derived cells and the
    inheritable cells [base]: first the derived cells that are no longer
    inheritable go, then the loop runs. *)
Definition update_data_cells_on (self : SpaceId)
    (base : list (string * CellsId)) (data : list (string * CellsId))
    (st : Store) : list (string * CellsId) * Store :=
  let keys := filter (λ k, k ∉ PyDict.keys base) (PyDict.keys data) in
  let data := foldl (λ d key, PyDict.del key d) data keys in
  update_cells_items self base data st.

Definition _update_data_cells (self : SpaceId) (st : Store) : Store :=
  let st := base_members self st in
  match heap_spaces st !! self with
  | None => st
  | Some s =>
      let '(data, st) :=
        update_data_cells_on self (_base_cells s) (_derived_cells s) st in
      update_space self (set_derived_cells data) st
  end.

(** [update_data()] on [_derived_cells]: the recomputation runs when the flag
    is set, and the flag is cleared. *)
Definition DerivedMembers_update_data (self : SpaceId) (st : Store) : Store :=
  if flagged st (self, K_derived_cells) then
    update_space self (unmark K_derived_cells) (_update_data_cells self st)
  else st.

(** ** [SpaceImpl.set_name] *)

Definition not_a_scalar (nm : string) : PyExc :=
  AttributeError ("Cells '" ++ nm ++ "' is not a scalar.").

Definition set_name `{Collaborators} (self : SpaceId) (nm : string)
    (value : Value) (st : Store) : Res unit * Store :=
  if negb (is_valid_name nm) then (Raise (ValueError ""), st)
  else
    match heap_spaces st !! self with
    | None => (Raise (KeyError "no such space"), st)
    | Some s =>
        if in_namespace s nm then
          if chain_mem (refs_maps s) nm then
            let st :=
              update_space self
                (λ s, put_refs (chain_setitem (refs_maps s) nm value) s) st in
            (Ok (), set_update (self, K_refs) false st)
          else if chain_mem (cells_maps s) nm then
            match chain_getitem (cells_maps s) nm with
            | None => (Raise (KeyError nm), st)
            | Some c =>
                match heap_cells st !! c with
                | None => (Raise (KeyError nm), st)
                | Some cell =>
                    if has_single_value cell
                    then (Ok (), update_cells c (set_value [] value) st)
                    else (Raise (not_a_scalar nm), st)
                end
            end
          else (Raise (ValueError ""), st)
        else
          let st :=
            update_space self
              (λ s, set_self_refs (PyDict.set nm value (_self_refs s)) s) st in
          (Ok (), set_update (self, K_self_refs) true st)
    end.

(** ** [SpaceImpl.remove_cells] *)

(** The [for base in self.direct_bases] loop ends with a [break] that is
    not under the [if]: only the first direct base is ever looked at. *)
Definition remove_cells `{Collaborators} (self : SpaceId) (nm : string)
    (st : Store) : Res unit * Store :=
  match heap_spaces st !! self with
  | None => (Raise (KeyError "no such space"), st)
  | Some s =>
      let st :=
        match PyDict.get nm (_self_cells s) with
        | Some c =>
            update_space self
              (λ s, set_self_cells (PyDict.del nm (_self_cells s)) s)
              (update_cells c clear_parent st)
        | None => st
        end in
      match direct_bases s with
      | [] => (Ok (), st)
      | base :: _ =>
          match heap_spaces st !! base with
          | None => (Raise (KeyError "no such space"), st)
          | Some b =>
              if chain_mem (cells_maps b) nm then
                match cell ← chain_getitem (cells_maps b) nm;
                      heap_cells st !! cell with
                | None => (Raise (KeyError nm), st)
                | Some base_cells =>
                    let '(cells, st) :=
                      new_cells self nm (formula base_cells) st in
                    (Ok (),
                     update_space self
                       (λ s, set_derived_cells
                               (PyDict.set nm cells (_derived_cells s)) s) st)
                end
              else (Ok (), st)
          end
      end
  end.

(** ** [SpaceImpl.revert_derived] *)

Definition revert_derived (self : SpaceId) (nm : string) (st : Store)
  : Res unit * Store :=
  (Raise NotImplementedError, st).

(** ** Hierarchies

    What the linearisation is measured against.  [decl] records, for every
    space of the heap, the direct bases it was created with (the field
    [direct_bases] cannot serve: the merge empties it). *)

(** [a] comes before [b] in [l]. *)
Definition precedes (a b : SpaceId) (l : list SpaceId) : Prop :=
  [a; b] `sublist_of` l.

(** [t] is a base of [c], direct or through other bases. *)
Inductive transitive_base (decl : list (list SpaceId))
  : SpaceId → SpaceId → Prop :=
  | tb_direct c b bs :
      decl !! c = Some bs → b ∈ bs → transitive_base decl c b
  | tb_step c b t bs :
      decl !! c = Some bs → b ∈ bs → transitive_base decl b t →
      transitive_base decl c t.

(** The linearisation of the space [i] of the heap is in order: it starts
    with the space, it holds the whole linearisation of each of its members
    in the same order, and it holds the declared bases, which are older
    spaces. *)
Definition linearised (st : Store) (decl : list (list SpaceId))
    (i : SpaceId) : Prop :=
  head (mro_of st i) = Some i ∧
  (∀ c, c ∈ mro_of st i →
        c < length (heap_spaces st) ∧
        mro_of st c `sublist_of` mro_of st i) ∧
  (∀ bs b, decl !! i = Some bs → b ∈ bs → b < i ∧ b ∈ mro_of st i).

Definition hierarchy_ok (st : Store) (decl : list (list SpaceId)) : Prop :=
  length decl = length (heap_spaces st) ∧
  ∀ i, i < length (heap_spaces st) → linearised st decl i.

(** ** Sample collaborators

    One way the missing operations can be: [collections.ChainMap] for the
    chain maps (a lookup takes the first map that has the key, an
    assignment goes to the first map), ASCII identifiers for the valid
    names, and a namer that counts up from its last number until the name
    is free. *)

Fixpoint first_getitem {V : Type} (maps : list (list (string * V)))
    (k : string) : option V :=
  match maps with
  | [] => None
  | m :: maps' =>
      match PyDict.get k m with
      | Some v => Some v
      | None => first_getitem maps' k
      end
  end.

Definition first_setitem {V : Type} (maps : list (list (string * V)))
    (k : string) (v : V) : list (list (string * V)) :=
  match maps with
  | [] => []
  | m :: maps' => PyDict.set k v m :: maps'
  end.

Definition is_letter (a : Ascii.ascii) : bool :=
  let n := Ascii.nat_of_ascii a in
  ((65 <=? n) && (n <=? 90)) || ((97 <=? n) && (n <=? 122)) || (n =? 95).

Definition is_digit (a : Ascii.ascii) : bool :=
  let n := Ascii.nat_of_ascii a in (48 <=? n) && (n <=? 57).

Fixpoint all_chars (p : Ascii.ascii → bool) (s : string) : bool :=
  match s with
  | EmptyString => true
  | String a s' => p a && all_chars p s'
  end.

Definition is_identifier (s : string) : bool :=
  match s with
  | EmptyString => false
  | String a s' =>
      is_letter a && all_chars (λ c, is_letter c || is_digit c) s'
  end.

Fixpoint count_up (fuel : nat) (base : string) (n : nat)
    (existing : list string) : string * nat :=
  let result := (base ++ pretty n)%string in
  match fuel with
  | O => (result, n)
  | S fuel' =>
      if bool_decide (result ∈ existing)
      then count_up fuel' base (S n) existing
      else (result, n)
  end.

Definition counting_get_next (namer : AutoNamer) (existing : list string)
  : string * AutoNamer :=
  let '(result, n) :=
    count_up (length existing) (basename namer) (S (last_postfix namer))
             existing in
  (result, mkAutoNamer (basename namer) n).

Definition sample_collaborators : Collaborators := {|
  is_valid_name := is_identifier;
  get_next := counting_get_next;
  chain_getitem := @first_getitem;
  chain_setitem := @first_setitem;
|}.

(** ** Sample stores

    A diamond: the space [O], the spaces [A] and [B] with base [O], to
    which [C] with the bases [A] and [B] can be added.  And the two orders
    of two bases that cannot be merged: [X] with the bases [O1], [O2] and
    [Y] with the bases [O2], [O1]. *)

Definition sample_new_space (nm : string) (bases : Bases) (st : Store)
  : Store :=
  (new_space (H := sample_collaborators) TheModel (Some nm) bases None None
     st).2.

Definition diamond_store : Store :=
  sample_new_space "B" (BasesOne 0)
    (sample_new_space "A" (BasesOne 0)
       (sample_new_space "O" BasesNone new_model)).

Definition diamond_decl : list (list SpaceId) := [[]; [0]; [0]].

Definition conflict_store : Store :=
  sample_new_space "Y" (BasesSeq [1; 0])
    (sample_new_space "X" (BasesSeq [0; 1])
       (sample_new_space "O2" BasesNone
          (sample_new_space "O1" BasesNone new_model))).

(** ** What the memoisation is measured against *)

(** [SpaceArgs(self, args, kwargs).argvalues]: the key of the cache of
    parametrised children, when the arguments can be bound. *)
Definition argvalues_of (st : Store) (self : Container) (args : list Value)
    (kwargs : list (string * Value)) : option (list Value) :=
  pf ← c_paramfunc st self;
  match bind_params (parameters pf) args kwargs with
  | Ok arguments => Some (PyDict.values arguments)
  | Raise _ => None
  end.

Definition container_exists (st : Store) (c : Container) : Prop :=
  match c with
  | TheModel => True
  | Space i => i < length (heap_spaces st)
  end.

(** The caches of parametrised children hold spaces of the heap, and no
    space under two keys. *)
Definition cache_ok (st : Store) : Prop :=
  ∀ c k s, PyDict.get k (c_param_spaces st c) = Some s →
    s < length (heap_spaces st) ∧
    ∀ k', PyDict.get k' (c_param_spaces st c) = Some s → k' = k.

(** Formulas that act on the store through the operations of the model:
    they keep the caches in order and discard no space. *)
Definition well_behaved (run : ParamFuncRun) : Prop :=
  ∀ pf c a st, cache_ok st →
    cache_ok (run pf c a st).2 ∧
    length (heap_spaces st) ≤ length (heap_spaces (run pf c a st).2).

(** ** Sample formulas and parametrised stores *)

(** A parameter formula [lambda a: None]. *)
Definition returns_None : ParamFuncRun :=
  λ pf c arguments st, (Ok None, st).

(** A parameter formula that raises. *)
Definition raises : ParamFuncRun :=
  λ pf c arguments st, (Raise (UserError "formula"), st).

(** A parameter formula that returns an empty mapping. *)
Definition returns_empty_mapping : ParamFuncRun :=
  λ pf c arguments st, (Ok (Some no_kwargs), st).

Definition one_parameter : Formula :=
  {| formula_id := 0; parameters := [("a", None)] |}.

(** The model with one space [P] whose parameter formula has the one
    parameter [a]. *)
Definition parametrised_store : Store :=
  (new_space (H := sample_collaborators) TheModel (Some "P") BasesNone
     (Some one_parameter) None new_model).2.

(** The space [P] of a model after [P.x = 1]: [x] is a reference of [P]. *)
Definition store_with_reference : Store :=
  (set_name (H := sample_collaborators) 0 "x" (VInt 1)
     (sample_new_space "P" BasesNone new_model)).2.

(** [parametrised_store] after the call [P[1]] with a formula that returns
    [None]. *)
Definition store_after_first_call : Store :=
  (get_space (H := sample_collaborators) returns_None (Space 0) [VInt 1] []
     parametrised_store).2.

(** ** What invalidation leaves alone *)

(** [st'] is [st] but for flags that have been set. *)
Definition flags_only (st st' : Store) : Prop :=
  heap_cells st' = heap_cells st ∧
  the_model st' = the_model st ∧
  system_self st' = system_self st ∧
  length (heap_spaces st') = length (heap_spaces st) ∧
  ∀ j s, heap_spaces st !! j = Some s →
    ∃ s', heap_spaces st' !! j = Some s' ∧
          s' = set_needs_update (needs_update s') s ∧
          ∀ k, k ∈ needs_update s → k ∈ needs_update s'.


(** ** Sample stores with cells

    The model with the space [P] and the space [C] whose base is [P], as
    [m.new_space("P")] and [m.new_space("C", bases=P)] make them. *)

Definition base_and_derived : Store :=
  sample_new_space "C" (BasesOne 0)
    (sample_new_space "P" BasesNone new_model).

Definition formula_a : Formula :=
  {| formula_id := 1; parameters := [("t", None)] |}.

Definition formula_b : Formula :=
  {| formula_id := 2; parameters := [] |}.

Definition formula_x : Formula :=
  {| formula_id := 3; parameters := [] |}.

Definition formula_own_x : Formula :=
  {| formula_id := 4; parameters := [] |}.

(** [P.new_cells("a", ...)], then the cells of [C] are read: [C] gets the
    derived cell [a]. *)
Definition one_inherited_cell : Store :=
  DerivedMembers_update_data 1
    (new_cells 0 "a" formula_a base_and_derived).2.

(** Then [P.new_cells("b", ...)], and the cells of [C] are read again. *)
Definition two_inheritable_cells : Store :=
  DerivedMembers_update_data 1
    (new_cells 0 "b" formula_b one_inherited_cell).2.

(** [P.new_cells("x", ...)], [C.new_cells("x", ...)] to override it, and
    the cells of [C] are read: [x] is an own cell of [C], and there is no
    derived cell [x]. *)
Definition overridden_cell : Store :=
  DerivedMembers_update_data 1
    (new_cells 1 "x" formula_own_x
       (new_cells 0 "x" formula_x base_and_derived).2).2.

(** Then [C.remove_cells("x")], and the cells of [C] are read again. *)
Definition override_removed : Store :=
  DerivedMembers_update_data 1
    (remove_cells (H := sample_collaborators) 1 "x" overridden_cell).2.

(** ** More of [SpaceContainerImpl] and [SpaceImpl] *)

(** The assignment [self.paramfunc = v]. *)
Definition assign_paramfunc (v : option Formula) (s : SpaceImpl) : SpaceImpl :=
  {| param_spaces := param_spaces s; spacenamer := spacenamer s;
     paramfunc := v; name := name s; parent := parent s;
     cellsnamer := cellsnamer s; _arguments := _arguments s;
     direct_bases := direct_bases s; mro := mro s;
     _self_cells := _self_cells s; _self_spaces := _self_spaces s;
     _dynamic_spaces := _dynamic_spaces s; _self_refs := _self_refs s;
     _derived_cells := _derived_cells s;
     _derived_spaces := _derived_spaces s; _derived_refs := _derived_refs s;
     _global_refs := _global_refs s; _base_cells := _base_cells s;
     needs_update := needs_update s |}.

Definition put_paramfunc (c : Container) (v : option Formula) (st : Store)
  : Store :=
  match c with
  | TheModel =>
      set_the_model
        {| model_param_spaces := model_param_spaces (the_model st);
           model_spacenamer := model_spacenamer (the_model st);
           model_paramfunc := v;
           model_spaces := model_spaces (the_model st) |} st
  | Space i => update_space i (assign_paramfunc v) st
  end.

Definition paramfunc_already_assigned : PyExc :=
  ValueError "paramfunc already assigned.".

(** [SpaceContainerImpl.set_paramfunc].  [ParamFunc(paramfunc)] is the
    [Formula] object of the function; the model is handed that object. *)
Definition set_paramfunc (self : Container) (paramfunc : Formula)
    (st : Store) : Res unit * Store :=
  match c_paramfunc st self with
  | None => (Ok (), put_paramfunc self (Some paramfunc) st)
  | Some _ => (Raise paramfunc_already_assigned, st)
  end.

(** [SpaceImpl.has_bases]: [len(self.mro) > 1] *)
Definition has_bases (s : SpaceImpl) : bool :=
  bool_decide (1 < length (mro s)).

(** ** Paths of observers

    [reaches st os o n]: [o] is one of [os], or an observer of one of them,
    and so on, [n] links away. *)
Fixpoint reaches (st : Store) (os : list LazyRef) (o : LazyRef) (n : nat)
  : Prop :=
  match n with
  | O => o ∈ os
  | S n' => ∃ o', o' ∈ os ∧ reaches st (observers st o') o n'
  end.

(** The space at the index [i] of the heap, for the samples. *)
Definition space_at (st : Store) (i : SpaceId) : SpaceImpl :=
  default (blank_space TheModel "" BasesNone None None) (heap_spaces st !! i).

(** The diamond with an own cell [x] in [A] and an own cell [x] in [B], and
    [C] with the bases [A] and [B]. *)
Definition two_bases_one_name : Store :=
  sample_new_space "C" (BasesSeq [1; 2])
    (new_cells 2 "x" formula_b
       (new_cells 1 "x" formula_a diamond_store).2).2.

(** ** Recomputation of the derived cells, by its effect *)


(** The members that a space holds of its own, and its place in the
    hierarchy. *)
Definition own_members (s : SpaceImpl) :=
  (_self_cells s, _self_spaces s, _self_refs s, _dynamic_spaces s,
   mro s, direct_bases s).

(** [st'] is [st] but for cells bound to [self] that have been added to
    the heap, and for the derived members and the flags of [self]. *)
Definition only_derives (self : SpaceId) (st st' : Store) : Prop :=
  (∃ new, heap_cells st' = heap_cells st ++ new ∧
          Forall (λ c, cells_parent c = Some self ∧ cells_data c = []) new) ∧
  the_model st' = the_model st ∧
  system_self st' = system_self st ∧
  length (heap_spaces st') = length (heap_spaces st) ∧
  (∀ j, j ≠ self → heap_spaces st' !! j = heap_spaces st !! j) ∧
  own_members <$> heap_spaces st' !! self
  = own_members <$> heap_spaces st !! self.





(** * Facts *)

(** ** Dictionaries *)

Section dict_facts.
Context {K V : Type} `{EqDecision K}.
Implicit Types (k : K) (v : V) (d : list (K * V)).

Lemma get_set_eq k v d : PyDict.get k (PyDict.set k v d) = Some v.
Proof.
  induction d as [|[k' v'] d IH]; simpl.
  - by rewrite decide_True.
  - destruct (decide (k = k')) as [->|Hne]; simpl.
    + by rewrite decide_True.
    + by rewrite decide_False.
Qed.

Lemma get_set_ne k k' v d : k ≠ k' → PyDict.get k' (PyDict.set k v d) = PyDict.get k' d.
Proof.
  intros Hne. induction d as [|[k0 v0] d IH]; simpl.
  - by rewrite decide_False.
  - destruct (decide (k = k0)) as [->|Hne0]; simpl.
    + by rewrite !decide_False.
    + destruct (decide (k' = k0)); [done|apply IH].
Qed.

Lemma mem_set_eq k v d : PyDict.mem k (PyDict.set k v d) = true.
Proof. unfold PyDict.mem. by rewrite get_set_eq. Qed.

Lemma mem_set_ne k k' v d : k ≠ k' → PyDict.mem k' (PyDict.set k v d) = PyDict.mem k' d.
Proof. intros. unfold PyDict.mem. by rewrite get_set_ne. Qed.

Lemma get_del_ne k k' d : k ≠ k' → PyDict.get k' (PyDict.del k d) = PyDict.get k' d.
Proof.
  intros Hne. induction d as [|[k0 v0] d IH]; simpl; [done|].
  destruct (decide (k = k0)) as [->|Hne0]; simpl.
  - by rewrite decide_False.
  - destruct (decide (k' = k0)); [done|apply IH].
Qed.

Lemma get_Some_elem_of k v d : PyDict.get k d = Some v → (k, v) ∈ d.
Proof.
  induction d as [|[k0 v0] d IH]; simpl; [done|].
  destruct (decide (k = k0)) as [->|Hne].
  - intros [= ->]. left.
  - intros H. right. by apply IH.
Qed.

Lemma mem_true_keys k d : PyDict.mem k d = true ↔ k ∈ PyDict.keys d.
Proof.
  unfold PyDict.mem, PyDict.keys. induction d as [|[k0 v0] d IH]; simpl.
  - split; [done|]. by intros ?%elem_of_nil.
  - destruct (decide (k = k0)) as [->|Hne].
    + split; [intros _; left|done].
    + rewrite IH. split; [by right|].
        intros [?|?]%elem_of_cons; [done|done].
Qed.

  (** Deleting a key of a dictionary with unique PyDict.keys removes it. *)
Lemma get_del_eq k d : NoDup (PyDict.keys d) → PyDict.get k (PyDict.del k d) = None.
Proof.
  induction d as [|[k0 v0] d IH]; simpl; [done|].
  intros [Hnotin Hnd]%NoDup_cons.
  destruct (decide (k = k0)) as [->|Hne]; simpl.
  - destruct (PyDict.get k0 d) eqn:E; [|done].
      exfalso. apply Hnotin. apply mem_true_keys. unfold PyDict.mem. by rewrite E.
  - rewrite decide_False by done. by apply IH.
Qed.
End dict_facts.

Lemma elem_of_map {A B : Type} (f : A → B) (l : list A) (y : B) :
  y ∈ map f l ↔ ∃ x, y = f x ∧ x ∈ l.
Proof. exact (list_elem_of_fmap f l y). Qed.

(** ** The C3 merge *)

Section merge_facts.
Implicit Types (seqs ne todo : list (list SpaceId)) (s : list SpaceId).
Implicit Types (c x : SpaceId) (res out : list SpaceId).

Lemma elem_of_non_empty seqs s : s ∈ non_empty seqs ↔ s ≠ [] ∧ s ∈ seqs.
Proof. unfold non_empty. by rewrite list_elem_of_filter. Qed.

Lemma non_empty_nil seqs : non_empty seqs = [] ↔ ∀ s, s ∈ seqs → s = [].
Proof.
  split.
  - intros Hnil s Hs. destruct s as [|x s]; [done|].
    assert (x :: s ∈ non_empty seqs) as Hin
      by (by apply elem_of_non_empty).
    rewrite Hnil in Hin. by apply elem_of_nil in Hin.
  - intros Hall. destruct (non_empty seqs) as [|s ne] eqn:E; [done|].
    assert (s ∈ non_empty seqs) as [Hne Hin]%elem_of_non_empty
      by (rewrite E; left).
    by specialize (Hall s Hin).
Qed.

Lemma not_head_nil c ne : not_head c ne = [] ↔ ∀ s, s ∈ ne → c ∉ tail s.
Proof.
  unfold not_head. split.
  - intros Hnil s Hs Hc.
    by eapply (filter_nil_not_elem_of (λ s, c ∈ tail s)).
  - intros Hall. destruct (filter _ ne) as [|s l] eqn:E; [done|].
    assert (s ∈ filter (λ s, c ∈ tail s) ne) as [Hc Hs]%list_elem_of_filter
      by (rewrite E; left).
    by destruct (Hall s Hs).
Qed.

Lemma find_candidate_Some todo ne c :
  find_candidate todo ne = Some c →
  (∃ s, s ∈ todo ∧ head s = Some c) ∧ ∀ s, s ∈ ne → c ∉ tail s.
Proof.
  induction todo as [|seq todo IH]; simpl; [done|].
  destruct seq as [|h t].
  - intros [(s & Hs & Hh) Hall]%IH. split; [|done].
    exists s. split; [by right|done].
  - destruct (not_head h ne) eqn:E.
    + intros [= <-]. split.
      * exists (h :: t). split; [left|done].
      * by apply not_head_nil.
    + intros [(s & Hs & Hh) Hall]%IH. split; [|done].
      exists s. split; [by right|done].
Qed.

Lemma find_candidate_None todo ne :
  find_candidate todo ne = None →
  ∀ s c, s ∈ todo → head s = Some c → ∃ s', s' ∈ ne ∧ c ∈ tail s'.
Proof.
  induction todo as [|seq todo IH]; simpl.
  - intros _ s c Hs. by apply elem_of_nil in Hs.
  - destruct seq as [|h t].
    + intros Hnone s c [->|Hs]%elem_of_cons Hh; [done|]. by eapply IH.
    + destruct (not_head h ne) as [|s' l] eqn:E; [done|].
      intros Hnone s c [->|Hs]%elem_of_cons Hh; [|by eapply IH].
      simpl in Hh. injection Hh as <-.
      assert (s' ∈ not_head h ne) as [Hc Hs']%list_elem_of_filter
        by (rewrite E; left).
      by exists s'.
Qed.

Lemma find_candidate_all_rejected todo ne :
  (∀ s c, s ∈ todo → head s = Some c → ∃ s', s' ∈ ne ∧ c ∈ tail s') →
  find_candidate todo ne = None.
Proof.
  induction todo as [|seq todo IH]; simpl; [done|].
  intros Hall. destruct seq as [|h t].
  - apply IH. intros s c Hs. apply Hall. by right.
  - destruct (Hall (h :: t) h) as (s' & Hs' & Hc); [left|done|].
    destruct (not_head h ne) eqn:E.
    + by destruct (proj1 (not_head_nil _ _) E s' Hs').
    + apply IH. intros s c Hs. apply Hall. by right.
Qed.

Lemma merge_step_Some seqs c seqs' :
  merge_step seqs = Some (c, seqs') →
  seqs' = remove_candidate c seqs ∧
  (∃ s, s ∈ seqs ∧ head s = Some c) ∧
  ∀ s, s ∈ seqs → c ∉ tail s.
Proof.
  unfold merge_step.
  destruct (find_candidate _ _) as [c'|] eqn:E; [|done].
  intros [= <- <-]. apply find_candidate_Some in E as [(s & Hs & Hh) Hall].
  split; [done|]. split.
  - exists s. by apply elem_of_non_empty in Hs as [_ Hs].
  - intros s' Hs'. destruct s' as [|x s'].
    + simpl. by intros ?%elem_of_nil.
    + apply Hall. by apply elem_of_non_empty.
Qed.

Lemma merge_step_None seqs : merge_step seqs = None ↔
  ∀ s c, s ∈ non_empty seqs → head s = Some c →
         ∃ s', s' ∈ non_empty seqs ∧ c ∈ tail s'.
Proof.
  unfold merge_step. split.
  - destruct (find_candidate _ _) eqn:E; [done|]. intros _.
    by apply find_candidate_None.
  - intros Hall. by rewrite find_candidate_all_rejected.
Qed.

Lemma stuck_merge_step seqs :
  stuck seqs ↔ non_empty seqs ≠ [] ∧ merge_step seqs = None.
Proof.
  unfold stuck. split; intros [Hne Hall]; (split; [done|]).
  - apply (proj2 (merge_step_None seqs)). intros s c. apply Hall.
  - intros c s. by apply (proj1 (merge_step_None seqs)).
Qed.

(** What [del seq[0]] does to a sequence that does not have the candidate
    in its tail. *)
Lemma remove_candidate_elem c seqs s' :
  s' ∈ remove_candidate c seqs →
  ∃ s, s ∈ seqs ∧
       s' = match s with
            | [] => []
            | h :: t => if decide (h = c) then t else s
            end.
Proof.
  unfold remove_candidate. induction seqs as [|s0 seqs IH]; simpl.
  - by intros ?%elem_of_nil.
  - intros [->|Hs']%elem_of_cons.
    + exists s0. split; [left|done].
    + destruct (IH Hs') as (s & Hs & ->). exists s. split; [by right|done].
Qed.

Lemma elem_of_remove_candidate c seqs s :
  s ∈ seqs →
  match s with
  | [] => []
  | h :: t => if decide (h = c) then t else s
  end ∈ remove_candidate c seqs.
Proof.
  unfold remove_candidate. induction seqs as [|s0 seqs IH]; simpl.
  - by intros ?%elem_of_nil.
  - intros [->|Hs]%elem_of_cons; [left|right; by apply IH].
Qed.

Lemma remove_candidate_length c seqs :
  length (remove_candidate c seqs) = length seqs.
Proof. unfold remove_candidate. by rewrite length_map. Qed.

Lemma total_length_remove_le c seqs :
  total_length (remove_candidate c seqs) ≤ total_length seqs.
Proof.
  induction seqs as [|s seqs IH]; simpl; [done|].
  destruct s as [|h t]; simpl; [lia|].
  destruct (decide (h = c)); simpl; lia.
Qed.

Lemma total_length_remove_lt c seqs :
  (∃ s, s ∈ seqs ∧ head s = Some c) →
  total_length (remove_candidate c seqs) < total_length seqs.
Proof.
  intros (s & Hs & Hh). induction seqs as [|s0 seqs IH]; simpl.
  - by apply elem_of_nil in Hs.
  - apply elem_of_cons in Hs as [<-|Hs].
    + destruct s as [|h t]; [done|]. simpl in Hh. injection Hh as ->.
      rewrite decide_True by done.
      pose proof (total_length_remove_le c seqs). simpl. lia.
    + specialize (IH Hs).
      destruct s0 as [|h t]; simpl; [lia|].
      destruct (decide (h = c)); simpl; lia.
Qed.

(** The loop returns or raises within [merge_fuel] turns. *)
Lemma merge_loop_total fuel seqs res :
  total_length seqs < fuel → is_Some (merge_loop fuel seqs res).
Proof.
  revert seqs res. induction fuel as [|fuel IH]; intros seqs res Hlt; [lia|].
  simpl. destruct (non_empty seqs); [by eexists|].
  destruct (merge_step seqs) as [[c seqs']|] eqn:E; [|by eexists].
  apply IH. apply merge_step_Some in E as (-> & Hhead & _).
  apply total_length_remove_lt in Hhead. lia.
Qed.

Lemma c3_merge_total seqs : is_Some (c3_merge seqs).
Proof. apply merge_loop_total. unfold merge_fuel. lia. Qed.

(** More fuel does not change the outcome. *)
Lemma merge_loop_fuel_mono fuel fuel' seqs res r :
  merge_loop fuel seqs res = Some r → fuel ≤ fuel' →
  merge_loop fuel' seqs res = Some r.
Proof.
  revert fuel' seqs res. induction fuel as [|fuel IH];
    intros fuel' seqs res; [done|].
  intros Hrun Hle. destruct fuel' as [|fuel']; [lia|].
  simpl in *. destruct (non_empty seqs); [done|].
  destruct (merge_step seqs) as [[c seqs']|]; [|done].
  apply IH; [done|lia].
Qed.

(** The outcome of a merge that returns. *)
Lemma merge_loop_Ok fuel seqs res out seqs' :
  merge_loop fuel seqs res = Some (Ok out, seqs') →
  ∃ suffix,
    out = res ++ suffix ∧
    (∀ s, s ∈ seqs → s `sublist_of` suffix) ∧
    (∀ x, x ∈ suffix → ∃ s, s ∈ seqs ∧ x ∈ s) ∧
    NoDup suffix ∧
    (∀ s, s ∈ seqs' → s = []) ∧
    length seqs' = length seqs.
Proof.
  revert seqs res. induction fuel as [|fuel IH]; intros seqs res; [done|].
  simpl. destruct (non_empty seqs) as [|s0 ne] eqn:Hne.
  - intros [= <- <-]. exists []. rewrite app_nil_r.
    rewrite non_empty_nil in Hne.
    split_and!; [done| |by intros x ?%elem_of_nil|constructor|done|done].
    intros s Hs. by rewrite (Hne s Hs).
  - destruct (merge_step seqs) as [[c seqs1]|] eqn:E; [|done].
    intros Hrun. apply IH in Hrun
      as (suffix & -> & Hsub & Hel & Hnd & Hempty & Hlen).
    apply merge_step_Some in E as (-> & (sc & Hsc & Hhead) & Htail).
    exists (c :: suffix). rewrite <- app_assoc. simpl.
    split_and!; [done| | | |done|].
    + intros s Hs. specialize (Htail s Hs).
      pose proof (Hsub _ (elem_of_remove_candidate c seqs s Hs)) as Hs'.
      destruct s as [|h t]; [apply sublist_nil_l|].
      destruct (decide (h = c)) as [->|Hhc].
      * by apply sublist_skip.
      * by apply sublist_cons.
    + intros x [->|Hx]%elem_of_cons.
      * exists sc. split; [done|]. destruct sc; [done|].
        simpl in Hhead. injection Hhead as ->. left.
      * apply Hel in Hx as (s' & Hs' & Hx).
        apply remove_candidate_elem in Hs' as (s & Hs & ->).
        exists s. split; [done|]. destruct s as [|h t]; [done|].
        destruct (decide (h = c)); [by right|done].
    + apply NoDup_cons. split; [|done]. intros Hc.
      apply Hel in Hc as (s' & Hs' & Hc).
      apply remove_candidate_elem in Hs' as (s & Hs & ->).
      specialize (Htail s Hs). destruct s as [|h t]; [done|].
      destruct (decide (h = c)) as [->|Hhc]; [done|].
      apply elem_of_cons in Hc as [->|Hc]; done.
    + by rewrite Hlen, remove_candidate_length.
Qed.

(** The loop raises exactly when, after some turns, the merge is stuck. *)
Lemma merge_loop_stuck k fuel seqs seqs_k res :
  merge_steps k seqs = Some seqs_k → stuck seqs_k →
  total_length seqs < fuel →
  merge_loop fuel seqs res = Some (Raise inconsistent_hierarchy, seqs_k).
Proof.
  revert fuel seqs res. induction k as [|k IH]; intros fuel seqs res; simpl.
  - intros [= <-] [Hne Hnone]%stuck_merge_step Hlt.
    destruct fuel as [|fuel]; [lia|]. simpl.
    destruct (non_empty seqs); [done|]. by rewrite Hnone.
  - destruct (merge_step seqs) as [[c seqs1]|] eqn:E; [|done].
    intros Hsteps Hstuck Hlt. destruct fuel as [|fuel]; [lia|]. simpl.
    destruct (non_empty seqs) eqn:Hne.
    { unfold merge_step in E. by rewrite Hne in E. }
    rewrite E. apply merge_step_Some in E as (-> & Hhead & _).
    apply total_length_remove_lt in Hhead.
    eapply IH; [done|done|lia].
Qed.

Lemma merge_loop_Raise fuel seqs res e seqs' :
  merge_loop fuel seqs res = Some (Raise e, seqs') →
  e = inconsistent_hierarchy ∧
  ∃ k, merge_steps k seqs = Some seqs' ∧ stuck seqs'.
Proof.
  revert seqs res. induction fuel as [|fuel IH]; intros seqs res; [done|].
  simpl. destruct (non_empty seqs) eqn:Hne; [done|].
  destruct (merge_step seqs) as [[c seqs1]|] eqn:E.
  - intros (-> & k & Hsteps & Hstuck)%IH. split; [done|].
    exists (S k). simpl. by rewrite E.
  - intros [= <- <-]. split; [done|]. exists 0. split; [done|].
    apply stuck_merge_step. by rewrite Hne.
Qed.

End merge_facts.

(** ** The store *)

Section store_facts.
Context `{!Collaborators}.
Implicit Types (st : Store) (s : SpaceImpl) (i c : SpaceId).

Lemma heap_spaces_update_space i f st :
  heap_spaces (update_space i f st) = alter f i (heap_spaces st).
Proof. done. Qed.

Lemma length_update_space i f st :
  length (heap_spaces (update_space i f st)) = length (heap_spaces st).
Proof. by rewrite heap_spaces_update_space, length_alter. Qed.

Lemma mro_of_update_space i f st c :
  (∀ s, mro (f s) = mro s) →
  mro_of (update_space i f st) c = mro_of st c.
Proof.
  intros Hf. unfold mro_of. rewrite heap_spaces_update_space.
  destruct (decide (i = c)) as [->|Hne].
  - rewrite list_lookup_alter_eq. destruct (heap_spaces st !! c); simpl; auto.
  - by rewrite list_lookup_alter_ne.
Qed.

Lemma mro_put_static_spaces maps s : mro (put_static_spaces maps s) = mro s.
Proof. by destruct maps as [|a [|b [|? ?]]]. Qed.

Lemma heap_spaces_put_spacenamer parent namer st c :
  mro_of (put_spacenamer parent namer st) c = mro_of st c ∧
  length (heap_spaces (put_spacenamer parent namer st))
  = length (heap_spaces st).
Proof.
  destruct parent as [|p]; simpl; [done|].
  split; [by apply mro_of_update_space|apply length_update_space].
Qed.

Lemma register_mro_of self_id self st c :
  mro_of (register self_id self st) c = mro_of st c.
Proof.
  unfold register. destruct (parent self) as [|p]; [done|].
  destruct (is_dynamic self); apply mro_of_update_space; [done|].
  intros s. apply mro_put_static_spaces.
Qed.

Lemma register_length self_id self st :
  length (heap_spaces (register self_id self st)) = length (heap_spaces st).
Proof.
  unfold register. destruct (parent self) as [|p]; [done|].
  destruct (is_dynamic self); apply length_update_space.
Qed.

Lemma register_lookup self_id self st i :
  ∃ f, heap_spaces (register self_id self st) !! i
       = f <$> heap_spaces st !! i ∧
       (∀ s, mro (f s) = mro s ∧ direct_bases (f s) = direct_bases s ∧
             param_spaces (f s) = param_spaces s).
Proof.
  unfold register. destruct (parent self) as [|p].
  { exists id. split; [|done]. simpl. by destruct (_ !! i). }
  destruct (decide (p = i)) as [->|Hne].
  - destruct (is_dynamic self); eexists; rewrite heap_spaces_update_space,
      list_lookup_alter_eq; (split; [done|]); intros s; [done|].
    unfold put_static_spaces.
    by destruct (chain_setitem _ _ _) as [|a [|b [|? ?]]].
  - exists id. destruct (is_dynamic self);
      rewrite heap_spaces_update_space, list_lookup_alter_ne by done;
      (split; [by destruct (_ !! i)|done]).
Qed.

Lemma init_named_mro_of parent nm st n st0 c :
  init_named parent nm st = (n, st0) →
  mro_of st0 c = mro_of st c ∧
  length (heap_spaces st0) = length (heap_spaces st).
Proof.
  unfold init_named. destruct nm as [n'|].
  - by intros [= <- <-].
  - destruct (get_next _ _) as [n' namer]. intros [= <- <-].
    apply heap_spaces_put_spacenamer.
Qed.

(** Taking a successful construction apart. *)
Lemma SpaceImpl_init_Ok parent nm bases pf args st i st' :
  SpaceImpl_init parent nm bases pf args st = (Ok i, st') →
  ∃ n st0 res seqs',
    init_named parent nm st = (n, st0) ∧
    has_space st0 parent n = false ∧
    is_valid_name n = true ∧
    i = length (heap_spaces st) ∧
    c3_merge (map (mro_of st0) (bases_list bases) ++ [bases_list bases])
    = Some (Ok res, seqs') ∧
    let self :=
      _init_members i
        (set_mro ([i] ++ res)
           (set_direct_bases (default [] (last seqs'))
              (blank_space parent n bases pf args))) in
    st' = register i self (set_heap_spaces (heap_spaces st0 ++ [self]) st0).
Proof.
  unfold SpaceImpl_init.
  destruct (init_named parent nm st) as [n st0] eqn:Hnamed.
  destruct (has_space st0 parent n) eqn:Hhas; [done|].
  destruct (is_valid_name n) eqn:Hvalid; [|done]. simpl.
  unfold _update_mro. simpl.
  destruct (c3_merge _) as [[[res|e] seqs']|] eqn:Hmerge; [|done|done].
  intros [= <- <-].
  pose proof (init_named_mro_of _ _ _ _ _ 0 Hnamed) as [_ Hlen].
  exists n, st0, res, seqs'. rewrite Hlen. by split_and!.
Qed.

End store_facts.

(** ** Linearisations *)

Section linearisation_facts.
Context `{!Collaborators}.
Implicit Types (st : Store) (decl : list (list SpaceId)).
Implicit Types (i c t b : SpaceId).

Lemma sublist_singleton_elem_of (x : SpaceId) (l : list SpaceId) :
  x ∈ l → [x] `sublist_of` l.
Proof.
  induction l as [|y l IH]; [by intros ?%elem_of_nil|].
  intros [->|Hx]%elem_of_cons.
  - apply sublist_skip, sublist_nil_l.
  - by apply sublist_cons, IH.
Qed.

(** [_update_mro] returns or raises the error of an inconsistent hierarchy:
    the case of a merge out of fuel is never taken. *)
Lemma _update_mro_outcome st i (self : SpaceImpl) :
  (_update_mro st i self).1 = Ok () ∨
  (_update_mro st i self).1 = Raise inconsistent_hierarchy.
Proof.
  unfold _update_mro.
  destruct (c3_merge_total
              (map (mro_of st) (direct_bases self) ++ [direct_bases self]))
    as [[[res|e] seqs'] Hmerge]; rewrite Hmerge; simpl; [by left|].
  apply merge_loop_Raise in Hmerge as [-> _]. by right.
Qed.

(** What a successful construction does to the linearisations. *)
Lemma SpaceImpl_init_mro_of parent nm bases pf args st i st' :
  SpaceImpl_init parent nm bases pf args st = (Ok i, st') →
  ∃ res seqs',
    c3_merge (map (mro_of st) (bases_list bases) ++ [bases_list bases])
    = Some (Ok res, seqs') ∧
    i = length (heap_spaces st) ∧
    length (heap_spaces st') = S (length (heap_spaces st)) ∧
    mro_of st' i = i :: res ∧
    ∀ c, c < length (heap_spaces st) → mro_of st' c = mro_of st c.
Proof.
  intros (n & st0 & res & seqs' & Hnamed & _ & _ & -> & Hmerge & ->)
    %SpaceImpl_init_Ok.
  assert (∀ c, mro_of st0 c = mro_of st c) as Hmro
    by (intros c; by eapply init_named_mro_of).
  pose proof (init_named_mro_of _ _ _ _ _ 0 Hnamed) as [_ Hlen].
  exists res, seqs'. split_and!.
  - rewrite <- Hmerge. do 2 f_equal. apply map_ext. intros c. by rewrite Hmro.
  - done.
  - rewrite register_length. simpl. rewrite length_app. simpl. lia.
  - rewrite register_mro_of. unfold mro_of. simpl.
    rewrite <- Hlen. by rewrite list_lookup_middle.
  - intros c Hc. rewrite register_mro_of, <- Hmro. unfold mro_of. simpl.
    rewrite lookup_app_l by lia. done.
Qed.

Lemma transitive_base_in_mro st decl c t :
  hierarchy_ok st decl → transitive_base decl c t →
  c < length (heap_spaces st) ∧ t < c ∧ t ∈ mro_of st c.
Proof.
  intros [Hlen Hok]. induction 1 as [c b bs Hbs Hb|c b t bs Hbs Hb Htb IH].
  - assert (c < length (heap_spaces st)) as Hc
      by (rewrite <- Hlen; by eapply lookup_lt_Some).
    destruct (Hok c Hc) as (_ & _ & Hdecl). split; [done|]. by eapply Hdecl.
  - assert (c < length (heap_spaces st)) as Hc
      by (rewrite <- Hlen; by eapply lookup_lt_Some).
    destruct (Hok c Hc) as (_ & Hclosed & Hdecl).
    destruct (Hdecl bs b Hbs Hb) as [Hlt Hin].
    destruct IH as (_ & Htb' & Htin).
    destruct (Hclosed b Hin) as [_ Hsub].
    split_and!; [done|lia|]. by eapply elem_of_sublist.
Qed.

(** In the linearisation of a space, a member comes before its bases. *)
Lemma mro_precedes st decl i c t :
  hierarchy_ok st decl → i < length (heap_spaces st) →
  c ∈ mro_of st i → transitive_base decl c t →
  precedes c t (mro_of st i).
Proof.
  intros Hok Hi Hc Htb.
  destruct (transitive_base_in_mro _ _ _ _ Hok Htb) as (Hclt & Htc & Htin).
  destruct Hok as [Hlen Hok].
  destruct (Hok i Hi) as (_ & Hclosed & _).
  destruct (Hclosed c Hc) as [_ Hsub].
  destruct (Hok c Hclt) as (Hhead & _ & _).
  unfold precedes. etrans; [|exact Hsub].
  destruct (mro_of st c) as [|h rest]; [done|].
  simpl in Hhead. injection Hhead as ->.
  apply sublist_skip, sublist_singleton_elem_of.
  apply elem_of_cons in Htin as [->|Htin]; [lia|done].
Qed.

(** A construction keeps the hierarchy in order. *)
Lemma SpaceImpl_init_hierarchy_ok parent nm bases pf args st decl i st' :
  hierarchy_ok st decl →
  (∀ b, b ∈ bases_list bases → b < length (heap_spaces st)) →
  SpaceImpl_init parent nm bases pf args st = (Ok i, st') →
  hierarchy_ok st' (decl ++ [bases_list bases]).
Proof.
  intros [Hlen Hok] Hbases
    (res & seqs' & Hmerge & -> & Hlen' & Hnew & Hold)%SpaceImpl_init_mro_of.
  apply merge_loop_Ok in Hmerge
    as (suffix & Heq & Hsub & Hel & _ & _ & _). simpl in Heq. subst suffix.
  set (bs := bases_list bases) in *.
  assert (∀ b, b ∈ bs → mro_of st b `sublist_of` res) as Hbase_sub.
  { intros b Hb. apply Hsub, elem_of_app. left.
    apply elem_of_map. by exists b. }
  assert (bs `sublist_of` res) as Hbs_sub.
  { apply Hsub, elem_of_app. right. left. }
  assert (∀ c, c ∈ res →
            c < length (heap_spaces st) ∧ mro_of st c `sublist_of` res)
    as Hres.
  { intros c (s & [Hs|Hs]%elem_of_app & Hc)%Hel.
    - apply elem_of_map in Hs as (b & -> & Hb).
      destruct (Hok b (Hbases b Hb)) as (_ & Hclosed & _).
      destruct (Hclosed c Hc) as [Hlt Hsubc]. split; [done|].
      etrans; [exact Hsubc|]. by apply Hbase_sub.
    - apply list_elem_of_singleton in Hs as ->.
      split; [by apply Hbases|by apply Hbase_sub]. }
  split; [rewrite length_app, Hlen'; simpl; lia|].
  intros j Hj. rewrite Hlen' in Hj.
  destruct (decide (j = length (heap_spaces st))) as [->|Hne].
  - unfold linearised. rewrite Hnew. split_and!.
    + done.
    + intros c [->|Hc]%elem_of_cons.
      * rewrite Hnew, Hlen'. split; [lia|done].
      * destruct (Hres c Hc) as [Hlt Hsubc]. rewrite Hlen', Hold by done.
        split; [lia|]. by apply sublist_cons.
    + intros bs' b. rewrite <- Hlen, list_lookup_middle by done.
      intros [= <-] Hb. rewrite Hlen. split; [by apply Hbases|].
      right. by eapply elem_of_sublist.
  - assert (j < length (heap_spaces st)) as Hjlt by lia.
    destruct (Hok j Hjlt) as (Hhead & Hclosed & Hdecl).
    unfold linearised. rewrite (Hold j Hjlt). split_and!.
    + done.
    + intros c Hc. destruct (Hclosed c Hc) as [Hlt Hsubc].
      rewrite Hlen', Hold by done. split; [lia|done].
    + intros bs' b. rewrite lookup_app_l by lia. apply Hdecl.
Qed.

Lemma hierarchy_ok_new_model : hierarchy_ok new_model [].
Proof. split; [done|]. simpl. lia. Qed.

End linearisation_facts.

(** ** Construction that fails *)

Section construction_facts.
Context `{!Collaborators}.
Implicit Types (st : Store) (s : SpaceImpl) (i : SpaceId) (c : Container).

Lemma lookup_update_space i f st j :
  heap_spaces (update_space i f st) !! j
  = (if decide (i = j) then f else id) <$> heap_spaces st !! j.
Proof.
  rewrite heap_spaces_update_space. destruct (decide (i = j)) as [->|Hne].
  - by rewrite list_lookup_alter_eq.
  - rewrite list_lookup_alter_ne by done. by destruct (_ !! j).
Qed.

(** A mutation of one space that leaves a field alone leaves it alone in
    the whole heap. *)
Lemma update_space_preserves {A : Type} (g : SpaceImpl → A) i f st j :
  (∀ s, g (f s) = g s) →
  g <$> heap_spaces (update_space i f st) !! j = g <$> heap_spaces st !! j.
Proof.
  intros Hg. rewrite lookup_update_space.
  destruct (decide (i = j)); destruct (heap_spaces st !! j); simpl; [|done..].
  by rewrite Hg.
Qed.

Lemma spaces_keys_fmap st c :
  spaces_keys st c
  = match c with
    | TheModel => PyDict.keys (model_spaces (the_model st))
    | Space i =>
        default [] ((λ s, concat (map PyDict.keys (spaces_maps s)))
                      <$> heap_spaces st !! i)
    end.
Proof. destruct c as [|i]; [done|]. simpl. by destruct (_ !! i). Qed.

Lemma has_space_fmap st c n :
  has_space st c n
  = match c with
    | TheModel => PyDict.mem n (model_spaces (the_model st))
    | Space i =>
        default false ((λ s, chain_mem (spaces_maps s) n)
                         <$> heap_spaces st !! i)
    end.
Proof. destruct c as [|i]; [done|]. simpl. by destruct (_ !! i). Qed.

Lemma put_spacenamer_spaces parent namer st c :
  spaces_keys (put_spacenamer parent namer st) c = spaces_keys st c ∧
  ∀ n, has_space (put_spacenamer parent namer st) c n = has_space st c n.
Proof.
  split; [|intros n]; rewrite ?spaces_keys_fmap, ?has_space_fmap;
    destruct parent as [|p], c as [|i]; try done; unfold put_spacenamer;
    by rewrite update_space_preserves.
Qed.

Lemma init_named_spaces parent nm st n st0 :
  init_named parent nm st = (n, st0) →
  (∀ c, spaces_keys st0 c = spaces_keys st c) ∧
  (∀ c n', has_space st0 c n' = has_space st c n') ∧
  (∀ n', nm = Some n' → n = n' ∧ st0 = st).
Proof.
  unfold init_named. destruct nm as [n0|].
  - intros [= <- <-]. split_and!; [done|done|]. by intros n' [= <-].
  - destruct (get_next _ _) as [n0 namer]. intros [= <- <-]. split_and!.
    + intros c. apply put_spacenamer_spaces.
    + intros c n'. apply put_spacenamer_spaces.
    + done.
Qed.

Lemma map_mro_of_init_named parent nm st n st0 (bs : list SpaceId) :
  init_named parent nm st = (n, st0) →
  map (mro_of st0) bs = map (mro_of st) bs.
Proof.
  intros Hnamed. apply map_ext. intros b. by eapply init_named_mro_of.
Qed.

(** A constructor that raises leaves no space behind. *)
Lemma SpaceImpl_init_Raise parent nm bases pf args st e st0 :
  SpaceImpl_init parent nm bases pf args st = (Raise e, st0) →
  st0 = (init_named parent nm st).2.
Proof.
  unfold SpaceImpl_init. destruct (init_named parent nm st) as [n st1].
  destruct (has_space st1 parent n); [by intros [= _ <-]|].
  destruct (negb (is_valid_name n)); [by intros [= _ <-]|].
  destruct (_update_mro _ _ _) as [[[]|e'] self]; [done|].
  by intros [= _ <-].
Qed.

End construction_facts.

(** ** The cache of parametrised children *)

Section get_space_facts.
Context `{!Collaborators}.
Implicit Types (st : Store) (i sp : SpaceId) (c : Container).
Implicit Types (run : ParamFuncRun) (av : list Value).

Lemma c_param_spaces_update_space i f st c :
  (∀ s, param_spaces (f s) = param_spaces s) →
  c_param_spaces (update_space i f st) c = c_param_spaces st c.
Proof.
  intros Hf. destruct c as [|j]; [done|]. unfold c_param_spaces.
  by rewrite update_space_preserves.
Qed.

Lemma c_param_spaces_put_spacenamer parent namer st c :
  c_param_spaces (put_spacenamer parent namer st) c = c_param_spaces st c.
Proof.
  destruct parent as [|p]; [by destruct c|].
  by apply c_param_spaces_update_space.
Qed.

Lemma c_param_spaces_register self_id self st c :
  c_param_spaces (register self_id self st) c = c_param_spaces st c.
Proof.
  unfold register. destruct (parent self) as [|p]; [by destruct c|].
  destruct (is_dynamic self); apply c_param_spaces_update_space; [done|].
  intros s. unfold put_static_spaces.
  by destruct (chain_setitem _ _ _) as [|a [|b [|? ?]]].
Qed.

Lemma c_param_spaces_alloc self st c :
  param_spaces self = [] →
  c_param_spaces (set_heap_spaces (heap_spaces st ++ [self]) st) c
  = c_param_spaces st c.
Proof.
  intros Hself. destruct c as [|j]; [done|]. simpl.
  destruct (decide (j < length (heap_spaces st))) as [Hlt|Hge].
  - by rewrite lookup_app_l.
  - rewrite (lookup_ge_None_2 (heap_spaces st)) by lia.
    destruct (decide (j = length (heap_spaces st))) as [->|Hne].
    + rewrite list_lookup_middle by done. simpl. by rewrite Hself.
    + rewrite lookup_ge_None_2; [done|]. rewrite length_app. simpl. lia.
Qed.

Lemma init_named_frame parent nm st n st0 :
  init_named parent nm st = (n, st0) →
  (∀ c, c_param_spaces st0 c = c_param_spaces st c) ∧
  system_self st0 = system_self st.
Proof.
  unfold init_named. destruct nm as [n'|]; [by intros [= <- <-]|].
  destruct (get_next _ _) as [n' namer]. intros [= <- <-]. split.
  - intros c. apply c_param_spaces_put_spacenamer.
  - by destruct parent.
Qed.

Lemma register_system_self self_id self st :
  system_self (register self_id self st) = system_self st.
Proof.
  unfold register. destruct (parent self); [done|]. by destruct (is_dynamic _).
Qed.

(** What the constructor leaves alone: the caches and [system.self]; and it
    adds one space to the heap when it returns, none when it raises. *)
Lemma SpaceImpl_init_frame parent nm bases pf args st r st' :
  SpaceImpl_init parent nm bases pf args st = (r, st') →
  (∀ c, c_param_spaces st' c = c_param_spaces st c) ∧
  system_self st' = system_self st ∧
  match r with
  | Ok i =>
      i = length (heap_spaces st) ∧
      length (heap_spaces st') = S (length (heap_spaces st))
  | Raise _ => length (heap_spaces st') = length (heap_spaces st)
  end.
Proof.
  intros Hinit. destruct r as [i|e].
  - pose proof Hinit as (_ & _ & _ & -> & Hlen & _ & _)%SpaceImpl_init_mro_of.
    apply SpaceImpl_init_Ok in Hinit
      as (n & st0 & res & seqs' & Hnamed & _ & _ & _ & _ & ->).
    destruct (init_named_frame _ _ _ _ _ Hnamed) as [Hcache Hself].
    split_and!; [|by rewrite register_system_self|done|done].
    intros c. by rewrite c_param_spaces_register, c_param_spaces_alloc.
  - apply SpaceImpl_init_Raise in Hinit as ->.
    destruct (init_named parent nm st) as [n st0] eqn:Hnamed. simpl.
    destruct (init_named_frame _ _ _ _ _ Hnamed) as [Hcache Hself].
    pose proof (init_named_mro_of _ _ _ _ _ 0 Hnamed) as [_ Hlen].
    by split_and!.
Qed.

Lemma c_param_spaces_put_ne self v st c :
  c ≠ self → c_param_spaces (put_param_spaces self v st) c
             = c_param_spaces st c.
Proof.
  intros Hne. destruct self as [|i]; [by destruct c|].
  destruct c as [|j]; [done|]. unfold put_param_spaces, c_param_spaces.
  rewrite lookup_update_space, decide_False by congruence.
  by destruct (_ !! j).
Qed.

Lemma c_param_spaces_put_eq self v st :
  container_exists st self →
  c_param_spaces (put_param_spaces self v st) self = v.
Proof.
  destruct self as [|i]; [done|]. simpl. intros Hi.
  rewrite list_lookup_alter_eq.
  destruct (lookup_lt_is_Some_2 (heap_spaces st) i Hi) as [s ->]. done.
Qed.

Lemma c_param_spaces_put_dangling self v st :
  ¬ container_exists st self →
  c_param_spaces (put_param_spaces self v st) self = c_param_spaces st self.
Proof.
  destruct self as [|i]; [by intros []|]. simpl. intros Hi.
  rewrite list_lookup_alter_eq, lookup_ge_None_2 by lia. done.
Qed.

Lemma length_put_param_spaces self v st :
  length (heap_spaces (put_param_spaces self v st))
  = length (heap_spaces st).
Proof. destruct self; [done|apply length_update_space]. Qed.

Lemma system_self_put_param_spaces self v st :
  system_self (put_param_spaces self v st) = system_self st.
Proof. by destruct self. Qed.

Lemma container_exists_dec st c :
  container_exists st c ∨ ¬ container_exists st c.
Proof.
  destruct c as [|i]; [by left|]. simpl.
  destruct (decide (i < length (heap_spaces st))); [by left|by right].
Qed.

Lemma cache_ok_ext st st' :
  (∀ c, c_param_spaces st' c = c_param_spaces st c) →
  length (heap_spaces st) ≤ length (heap_spaces st') →
  cache_ok st → cache_ok st'.
Proof.
  intros Hcache Hlen Hok c k s. rewrite Hcache. intros Hk.
  destruct (Hok c k s Hk) as [Hlt Hinj]. split; [lia|done].
Qed.

Lemma cache_ok_set_system_self v st :
  cache_ok st → cache_ok (set_system_self v st).
Proof. apply cache_ok_ext; [by intros []|done]. Qed.

(** Entering a space that no cache holds keeps the caches in order. *)
Lemma cache_ok_put self av sp st :
  sp < length (heap_spaces st) →
  (∀ c k s, PyDict.get k (c_param_spaces st c) = Some s → s ≠ sp) →
  cache_ok st →
  cache_ok (put_param_spaces self
              (PyDict.set av sp (c_param_spaces st self)) st).
Proof.
  intros Hsp Hfresh Hok c k s. rewrite length_put_param_spaces.
  destruct (decide (c = self)) as [->|Hne].
  2: { rewrite c_param_spaces_put_ne by done. apply Hok. }
  destruct (container_exists_dec st self) as [Hex|Hex].
  2: { rewrite c_param_spaces_put_dangling by done. apply Hok. }
  rewrite c_param_spaces_put_eq by done.
  destruct (decide (av = k)) as [->|Hk].
  - rewrite get_set_eq. intros [= <-]. split; [done|]. intros k' Hk'.
    destruct (decide (k = k')) as [->|Hkk]; [done|].
    rewrite get_set_ne in Hk' by done. by destruct (Hfresh _ _ _ Hk').
  - rewrite get_set_ne by done. intros Hget.
    destruct (Hok _ _ _ Hget) as [Hlt Hinj]. split; [done|].
    intros k' Hk'. destruct (decide (av = k')) as [->|Hkk].
    + rewrite get_set_eq in Hk'. injection Hk' as <-.
      by destruct (Hfresh _ _ _ Hget).
    + rewrite get_set_ne in Hk' by done. by apply Hinj.
Qed.

(** Taking a call of [get_space] that returns apart: a hit, or a miss
    followed by the formula, the constructor and the entry in the cache. *)
Lemma get_space_Ok run self args kwargs st sp st' :
  get_space run self args kwargs st = (Ok sp, st') →
  ∃ pf arguments,
    c_paramfunc st self = Some pf ∧
    bind_params (parameters pf) args kwargs = Ok arguments ∧
    ((PyDict.get (PyDict.values arguments) (c_param_spaces st self) = Some sp
      ∧ st' = st) ∨
     (PyDict.get (PyDict.values arguments) (c_param_spaces st self) = None ∧
      ∃ space_args st_f st2,
        run pf self arguments (set_system_self (Some self) st)
        = (Ok space_args, st_f) ∧
        new_space self (kw_name (default no_kwargs space_args))
          (kw_bases (default no_kwargs space_args))
          (kw_paramfunc (default no_kwargs space_args)) (Some arguments)
          (set_system_self (system_self st) st_f) = (Ok sp, st2) ∧
        st' = put_param_spaces self
                (PyDict.set (PyDict.values arguments) sp
                   (c_param_spaces st2 self)) st2)).
Proof.
  unfold get_space. destruct (c_paramfunc st self) as [pf|] eqn:Hpf; [|done].
  destruct (bind_params _ _ _) as [arguments|] eqn:Hbind; [|done].
  destruct (PyDict.get _ _) as [sp'|] eqn:Hget.
  { intros [= <- <-]. exists pf, arguments. split_and!; [done|done|by left]. }
  simpl. destruct (run pf self arguments _) as [[space_args|e] st_f] eqn:Hrun;
    [|done].
  destruct (new_space _ _ _ _ _ _) as [[sp'|e] st2] eqn:Hnew; [|done].
  intros [= <- <-]. exists pf, arguments. split_and!; [done|done|right].
  split; [done|]. by exists space_args, st_f, st2.
Qed.

(** Every call of [get_space] keeps the caches in order and discards no
    space: a formula made of calls of [get_space] is well behaved. *)
Lemma get_space_cache_ok run self args kwargs st :
  well_behaved run → cache_ok st →
  cache_ok (get_space run self args kwargs st).2 ∧
  length (heap_spaces st)
  ≤ length (heap_spaces (get_space run self args kwargs st).2).
Proof.
  intros Hrun Hok. unfold get_space.
  destruct (c_paramfunc st self) as [pf|]; [|done].
  destruct (bind_params _ _ _) as [arguments|]; [|done].
  destruct (PyDict.get _ _) as [sp'|] eqn:Hget; [done|]. simpl.
  destruct (Hrun pf self arguments (set_system_self (Some self) st))
    as [Hok_f Hlen_f]; [by apply cache_ok_set_system_self|].
  destruct (run pf self arguments _) as [[space_args|e] st_f]; simpl in *.
  2: { split; [by apply cache_ok_set_system_self|done]. }
  apply (cache_ok_set_system_self (system_self st)) in Hok_f.
  destruct (new_space _ _ _ _ _ _) as [r st2] eqn:Hnew.
  apply SpaceImpl_init_frame in Hnew as (Hcache & _ & Hlen2). simpl in Hlen2.
  destruct r as [sp|e]; simpl.
  - destruct Hlen2 as [-> Hlen2]. rewrite length_put_param_spaces.
    split; [|lia]. apply cache_ok_put; [lia| |].
    + intros c k s. rewrite Hcache. intros Hk.
      destruct (Hok_f _ _ _ Hk) as [Hlt _]. simpl in Hlt. lia.
    + eapply cache_ok_ext; [exact Hcache|simpl; lia|done].
  - split; [|lia]. eapply cache_ok_ext; [exact Hcache|simpl; lia|done].
Qed.

(** [get_space] leaves [system.self] as it found it. *)
Lemma get_space_system_self_restored run self args kwargs st :
  system_self (get_space run self args kwargs st).2 = system_self st.
Proof.
  unfold get_space. destruct (c_paramfunc st self) as [pf|]; [|done].
  destruct (bind_params _ _ _) as [arguments|]; [|done].
  destruct (PyDict.get _ _) as [sp'|]; [done|]. simpl.
  destruct (run pf self arguments _) as [[space_args|e] st_f]; [|done].
  destruct (new_space _ _ _ _ _ _) as [r st2] eqn:Hnew.
  apply SpaceImpl_init_frame in Hnew as (_ & Hself & _).
  destruct r; simpl; by rewrite ?system_self_put_param_spaces, Hself.
Qed.

End get_space_facts.

Section memo_facts.
Context `{!Collaborators}.
Implicit Types (st : Store) (i sp : SpaceId) (c : Container).

Lemma argvalues_of_Some st self args kwargs av :
  argvalues_of st self args kwargs = Some av ↔
  ∃ pf arguments,
    c_paramfunc st self = Some pf ∧
    bind_params (parameters pf) args kwargs = Ok arguments ∧
    av = PyDict.values arguments.
Proof.
  unfold argvalues_of. destruct (c_paramfunc st self) as [pf|]; simpl.
  - destruct (bind_params _ _ _) as [arguments|e] eqn:Hbind.
    + split.
      * intros [= <-]. by exists pf, arguments.
      * intros (pf' & a & [= <-] & Ha & ->). congruence.
    + split; [done|]. intros (pf' & a & [= <-] & Ha & ->). congruence.
  - split; [done|]. by intros (pf' & a & ? & _).
Qed.

Lemma c_paramfunc_exists st c pf :
  c_paramfunc st c = Some pf → container_exists st c.
Proof.
  destruct c as [|i]; [done|]. simpl.
  destruct (heap_spaces st !! i) eqn:E; [|done]. intros _.
  by eapply lookup_lt_Some.
Qed.

Lemma container_exists_mono st st' c :
  length (heap_spaces st) ≤ length (heap_spaces st') →
  container_exists st c → container_exists st' c.
Proof. destruct c; simpl; [done|lia]. Qed.

(** A call that succeeds leaves its result in the cache, under the key of
    its arguments. *)
Lemma get_space_cached run self args kwargs st sp st' av :
  get_space run self args kwargs st = (Ok sp, st') →
  argvalues_of st self args kwargs = Some av →
  container_exists st' self →
  PyDict.get av (c_param_spaces st' self) = Some sp.
Proof.
  intros (pf & arguments & Hpf & Hbind & Hcases)%get_space_Ok
    (pf' & a' & Hpf' & Hbind' & ->)%argvalues_of_Some Hex.
  assert (a' = arguments) as -> by congruence.
  destruct Hcases as [[Hget ->]|(Hget & sa & st_f & st2 & _ & _ & ->)];
    [done|].
  rewrite c_param_spaces_put_eq; [apply get_set_eq|].
  eapply container_exists_mono; [|exact Hex].
  by rewrite length_put_param_spaces.
Qed.

Lemma cache_ok_new_model : cache_ok new_model.
Proof. by intros [|i] k s. Qed.

Lemma SpaceImpl_init_cache_ok parent nm bases pf args st r st' :
  SpaceImpl_init parent nm bases pf args st = (r, st') →
  cache_ok st → cache_ok st'.
Proof.
  intros (Hcache & _ & Hlen)%SpaceImpl_init_frame.
  apply cache_ok_ext; [done|]. destruct r; [|lia]. destruct Hlen. lia.
Qed.

Lemma register_lookup_ne self_id self st j :
  parent self ≠ Space j →
  heap_spaces (register self_id self st) !! j = heap_spaces st !! j.
Proof.
  unfold register. destruct (parent self) as [|p]; [done|]. intros Hne.
  destruct (is_dynamic self); rewrite lookup_update_space, decide_False
    by congruence; by destruct (_ !! j).
Qed.

Lemma lookup_put_param_spaces_ne self v st j :
  self ≠ Space j →
  heap_spaces (put_param_spaces self v st) !! j = heap_spaces st !! j.
Proof.
  destruct self as [|i]; [done|]. intros Hne. unfold put_param_spaces.
  rewrite lookup_update_space, decide_False by congruence.
  by destruct (_ !! j).
Qed.

End memo_facts.

(** ** Invalidation *)

Section invalidation_facts.
Implicit Types (st : Store) (i j : SpaceId) (k : LazyKind).

Lemma set_needs_update_id (s : SpaceImpl) :
  s = set_needs_update (needs_update s) s.
Proof. by destruct s. Qed.

Lemma mark_spec k (s : SpaceImpl) :
  mark k s = set_needs_update (needs_update (mark k s)) s ∧
  k ∈ needs_update (mark k s) ∧
  ∀ k', k' ∈ needs_update s → k' ∈ needs_update (mark k s).
Proof.
  unfold mark. case_bool_decide as Hk.
  - split_and!; [apply set_needs_update_id|done|done].
  - split_and!; [done| |].
    + simpl. apply elem_of_app. right. left.
    + intros k' Hk'. simpl. apply elem_of_app. by left.
Qed.

Lemma elem_of_mark k (s : SpaceImpl) : k ∈ needs_update (mark k s).
Proof. by destruct (mark_spec k s) as (_ & Hin & _). Qed.


Lemma flags_only_refl st : flags_only st st.
Proof.
  split_and!; [done..|]. intros j s Hs. exists s.
  split_and!; [done|apply set_needs_update_id|done].
Qed.

Lemma flags_only_trans st1 st2 st3 :
  flags_only st1 st2 → flags_only st2 st3 → flags_only st1 st3.
Proof.
  intros (Hc & Hm & Hs & Hl & H12) (Hc' & Hm' & Hs' & Hl' & H23).
  split_and!; [congruence..|]. intros j s Hj.
  destruct (H12 j s Hj) as (s2 & Hj2 & Heq2 & Hmono2).
  destruct (H23 j s2 Hj2) as (s3 & Hj3 & Heq3 & Hmono3).
  exists s3. split_and!; [done| |by auto].
  rewrite Heq3 at 1. rewrite Heq2. by destruct s.
Qed.

Lemma flags_only_mark i k st : flags_only st (update_space i (mark k) st).
Proof.
  split_and!; [done..|apply length_update_space|].
  intros j s Hj. rewrite lookup_update_space, Hj. simpl.
  destruct (decide (i = j)); simpl.
  - exists (mark k s). destruct (mark_spec k s) as (Heq & _ & Hmono).
    by split_and!.
  - exists s. split_and!; [done|apply set_needs_update_id|done].
Qed.

(** Invalidation sets flags and does nothing else. *)
Lemma propagate_flags_only depth os st :
  flags_only st (propagate depth os st).
Proof.
  revert os st. induction depth as [|depth IH]; intros os st; simpl.
  { apply flags_only_refl. }
  revert st. induction os as [|o os IHos]; intros st; simpl.
  { apply flags_only_refl. }
  eapply flags_only_trans; [|apply IHos].
  eapply flags_only_trans; [apply flags_only_mark|apply IH].
Qed.

Lemma set_update_flags_only o skip_self st :
  flags_only st (set_update o skip_self st).
Proof.
  unfold set_update. destruct skip_self.
  - apply propagate_flags_only.
  - eapply flags_only_trans; [apply flags_only_mark|].
    apply propagate_flags_only.
Qed.

(** An observer is lower than what it observes. *)
Lemma observers_height st (o : nat * LazyKind) :
  Forall (λ o' : nat * LazyKind, height o'.2 < height o.2) (observers st o).
Proof.
  destruct o as [i []]; unfold observers; simpl;
    repeat (apply Forall_cons; split; [simpl; lia|]);
    try apply Forall_nil_2.
  induction (derived_from st i) as [|d l IH]; simpl; [apply Forall_nil_2|].
  repeat (apply Forall_cons; split; [simpl; lia|]). exact IH.
Qed.

(** The depth that [set_update] allows is enough: a greater depth sets the
    same flags. *)
Lemma propagate_depth d n (os : list (nat * LazyKind)) st :
  Forall (λ o : nat * LazyKind, height o.2 < d) os →
  propagate (d + n) os st = propagate d os st.
Proof.
  revert os st. induction d as [|d IH]; intros os st Hos.
  - destruct os as [|o os].
    + by destruct n.
    + apply Forall_cons in Hos as [Ho _]. lia.
  - simpl. revert st. induction Hos as [|o os Ho Hos IHos]; intros st; simpl.
    + done.
    + rewrite IH; [apply IHos|].
      eapply Forall_impl; [apply observers_height|]. simpl. intros o'. lia.
Qed.

Lemma set_update_depth (o : nat * LazyKind) n st st' :
  propagate (8 + n) (observers st o) st' = propagate 8 (observers st o) st'.
Proof.
  apply propagate_depth. eapply Forall_impl; [apply observers_height|].
  simpl. intros o' Ho'. destruct o as [i []]; simpl in *; lia.
Qed.


End invalidation_facts.

(** ** The sample collaborators keep the promises of a chain map *)

Lemma first_getitem_mem {V : Type} (maps : list (list (string * V)))
    (k : string) :
  chain_mem maps k = true → is_Some (first_getitem maps k).
Proof.
  unfold chain_mem. induction maps as [|m maps IH]; simpl; [done|].
  unfold PyDict.mem. destruct (PyDict.get k m); [by eexists|]. simpl. done.
Qed.

Lemma sample_laws : @ChainMapLaws sample_collaborators.
Proof.
  split; simpl.
  - intros V [|m maps] k v; done.
  - intros V [|m maps] k v Hne; [done|]. simpl. by rewrite get_set_eq.
  - intros V [|m maps] k v Hne; [done|]. unfold chain_mem. simpl.
    by rewrite mem_set_eq.
  - intros V maps k. apply first_getitem_mem.
Qed.

(** ** Names of a space *)

Section set_name_facts.
Context `{!Collaborators}.
Implicit Types (st : Store) (s : SpaceImpl).



Lemma lookup_update_space_eq i f st s :
  heap_spaces st !! i = Some s →
  heap_spaces (update_space i f st) !! i = Some (f s).
Proof. intros Hs. by rewrite lookup_update_space, decide_True, Hs. Qed.

End set_name_facts.

(** ** Derived cells and removal *)

Section cells_facts.
Context `{!Collaborators}.
Implicit Types (st : Store) (s : SpaceImpl).

(** The early return of [_update_data_cells]: once a derived cell has the
    formula of its base cell, the items that follow are not looked at. *)
Lemma update_cells_items_return self key base_cell base items data st :
  heap_cells st !! base_cell = Some base →
  same_formula st data key base = true →
  update_cells_items self ((key, base_cell) :: items) data st = (data, st).
Proof. intros Hbase Hsame. simpl. by rewrite Hbase, Hsame. Qed.

(** The merge empties every sequence, [self.direct_bases] among them: a
    space that has been constructed has no direct bases left. *)
Lemma SpaceImpl_init_direct_bases parent nm bases pf args st i st' :
  SpaceImpl_init parent nm bases pf args st = (Ok i, st') →
  direct_bases <$> heap_spaces st' !! i = Some [].
Proof.
  intros (n & st0 & res & seqs' & Hnamed & _ & _ & -> & Hmerge & ->)
    %SpaceImpl_init_Ok.
  pose proof (init_named_mro_of _ _ _ _ _ 0 Hnamed) as [_ Hlen].
  apply merge_loop_Ok in Hmerge as (_ & _ & _ & _ & _ & Hempty & _).
  set (new := _init_members (length (heap_spaces st))
                (set_mro ([length (heap_spaces st)] ++ res)
                   (set_direct_bases (default [] (last seqs'))
                      (blank_space parent n bases pf args)))).
  destruct (register_lookup (length (heap_spaces st)) new
              (set_heap_spaces (heap_spaces st0 ++ [new]) st0)
              (length (heap_spaces st)))
    as (f & -> & Hf).
  simpl. rewrite <- Hlen, list_lookup_middle by done. simpl.
  destruct (Hf new) as (_ & -> & _). unfold new.
  simpl. destruct (last seqs') as [l|] eqn:Hlast; [|done]. simpl.
  f_equal. apply Hempty. apply last_Some in Hlast as [l' ->].
  apply elem_of_app. right. left.
Qed.

(** Without direct bases, [remove_cells] takes the own cell out and does
    nothing else: no derived cell is made, and no flag is set. *)
Lemma remove_cells_no_bases self nm st s :
  heap_spaces st !! self = Some s →
  direct_bases s = [] →
  ∃ st',
    remove_cells self nm st = (Ok (), st') ∧
    (λ s', (_derived_cells s', needs_update s')) <$> heap_spaces st' !! self
    = Some (_derived_cells s, needs_update s) ∧
    _self_cells <$> heap_spaces st' !! self
    = Some (match PyDict.get nm (_self_cells s) with
            | Some _ => PyDict.del nm (_self_cells s)
            | None => _self_cells s
            end).
Proof.
  intros Hs Hbases. unfold remove_cells. rewrite Hs, Hbases.
  eexists. split; [done|].
  destruct (PyDict.get nm (_self_cells s)) as [c|].
  - rewrite !lookup_update_space, !decide_True by done. simpl.
    by rewrite Hs.
  - by rewrite Hs.
Qed.

End cells_facts.

(** * The claims *)

(** C1.  When a container is constructed from a sequence of direct bases
    that are spaces of an orderly hierarchy, and the C3 merge goes through,
    the linearisation stored in [mro] starts with the container itself, has
    no repetition, puts every member before all of its direct and
    transitive bases, keeps the direct bases in the order they were given
    in, and depends on nothing but the direct bases, their order and their
    own linearisations: any construction from the same bases with the same
    linearisations gives the same order.  The hierarchy stays orderly, so
    this holds of every container built this way. *)
Theorem c3_linearization `{!Collaborators} parent nm bases pf args st decl
    i st' :
  hierarchy_ok st decl →
  (∀ b, b ∈ bases_list bases → b < length (heap_spaces st)) →
  SpaceImpl_init parent nm bases pf args st = (Ok i, st') →
  let m := mro_of st' i in
  let decl' := decl ++ [bases_list bases] in
  head m = Some i ∧
  NoDup m ∧
  (∀ c t, c ∈ m → transitive_base decl' c t → precedes c t m) ∧
  bases_list bases `sublist_of` m ∧
  (∀ parent2 nm2 pf2 args2 st2 i2 st2',
     map (mro_of st2) (bases_list bases)
     = map (mro_of st) (bases_list bases) →
     SpaceImpl_init parent2 nm2 bases pf2 args2 st2 = (Ok i2, st2') →
     tail (mro_of st2' i2) = tail m) ∧
  hierarchy_ok st' decl'.
Proof.
  intros Hok Hbases Hinit. simpl.
  pose proof (SpaceImpl_init_hierarchy_ok _ _ _ _ _ _ _ _ _ Hok Hbases Hinit)
    as Hok'.
  pose proof Hinit as
    (res & seqs' & Hmerge & -> & Hlen' & Hnew & Hold)%SpaceImpl_init_mro_of.
  pose proof Hmerge as (suffix & Heq & Hsub & Hel & Hnd & _ & _)%merge_loop_Ok.
  simpl in Heq. subst suffix. rewrite Hnew. split_and!.
  - done.
  - apply NoDup_cons. split; [|done].
    intros (s & [Hs|Hs]%elem_of_app & Hin)%Hel.
    + apply elem_of_map in Hs as (b & -> & Hb).
      destruct Hok as [_ Hok].
      destruct (Hok b (Hbases b Hb)) as (_ & Hclosed & _).
      destruct (Hclosed _ Hin) as [Hlt _]. lia.
    + apply list_elem_of_singleton in Hs as ->.
      specialize (Hbases _ Hin). lia.
  - intros c t Hc Htb. rewrite <- Hnew in *.
    eapply mro_precedes; [done|lia|done|done].
  - apply sublist_cons, Hsub, elem_of_app. right. left.
  - intros parent2 nm2 pf2 args2 st2 i2 st2' Hsame
      (res2 & seqs2 & Hmerge2 & _ & _ & -> & _)%SpaceImpl_init_mro_of.
    rewrite Hsame, Hmerge in Hmerge2. by injection Hmerge2 as <- _.
  - done.
Qed.

Lemma diamond_store_ok : hierarchy_ok diamond_store diamond_decl.
Proof.
  pose (H := sample_collaborators).
  assert (hierarchy_ok (sample_new_space "O" BasesNone new_model) [[]])
    as HO.
  { apply (SpaceImpl_init_hierarchy_ok TheModel (Some "O") BasesNone None
             None new_model [] 0);
      [apply hierarchy_ok_new_model| |vm_compute; reflexivity].
    by intros b ?%elem_of_nil. }
  assert (hierarchy_ok
            (sample_new_space "A" (BasesOne 0)
               (sample_new_space "O" BasesNone new_model)) [[]; [0]]) as HA.
  { apply (SpaceImpl_init_hierarchy_ok TheModel (Some "A") (BasesOne 0) None
             None _ [[]] 1 _ HO); [|vm_compute; reflexivity].
    intros b ->%list_elem_of_singleton. vm_compute. lia. }
  apply (SpaceImpl_init_hierarchy_ok TheModel (Some "B") (BasesOne 0) None
           None _ [[]; [0]] 2 _ HA); [|vm_compute; reflexivity].
  intros b ->%list_elem_of_singleton. vm_compute. lia.
Qed.

(** The diamond: [C] with the bases [A], [B] is linearised as
    [C, A, B, O]. *)
Lemma c3_linearization_witness :
  let st' := sample_new_space "C" (BasesSeq [1; 2]) diamond_store in
  mro_of st' 3 = [3; 1; 2; 0] ∧
  head (mro_of st' 3) = Some 3 ∧
  NoDup (mro_of st' 3) ∧
  (∀ c t, c ∈ mro_of st' 3 →
          transitive_base (diamond_decl ++ [[1; 2]]) c t →
          precedes c t (mro_of st' 3)) ∧
  [1; 2] `sublist_of` mro_of st' 3 ∧
  hierarchy_ok st' (diamond_decl ++ [[1; 2]]).
Proof.
  split; [vm_compute; reflexivity|].
  destruct (c3_linearization (H := sample_collaborators)
              TheModel (Some "C") (BasesSeq [1; 2]) None None
              diamond_store diamond_decl 3
              (sample_new_space "C" (BasesSeq [1; 2]) diamond_store)
              diamond_store_ok)
    as (Hhead & Hnd & Hprec & Hsub & _ & Hok).
  - intros b Hb. vm_compute.
    apply elem_of_cons in Hb as [->|Hb]; [lia|].
    apply list_elem_of_singleton in Hb as ->. lia.
  - vm_compute. reflexivity.
  - split_and!; assumption.
Defined.

(** C4.  When the merge of the direct bases gets stuck after some turns
    (sequences are left and every head is in the tail of one of them), the
    constructor raises: with a name that passes the two name checks the
    exception is the [TypeError] for an inconsistent hierarchy.  The
    raising constructor registers nothing: the child containers of every
    container are the ones from before, the heap has no new space, and
    with a given name the store is untouched. *)
Theorem inconsistent_bases_raise `{!Collaborators} parent nm bases pf args
    st k seqs_k :
  merge_steps k (map (mro_of st) (bases_list bases) ++ [bases_list bases])
  = Some seqs_k →
  stuck seqs_k →
  ∃ e st0,
    SpaceImpl_init parent nm bases pf args st = (Raise e, st0) ∧
    (has_space st parent (init_named parent nm st).1 = false →
     is_valid_name (init_named parent nm st).1 = true →
     e = inconsistent_hierarchy) ∧
    (∀ c, spaces_keys st0 c = spaces_keys st c) ∧
    length (heap_spaces st0) = length (heap_spaces st) ∧
    (∀ n, nm = Some n → st0 = st).
Proof.
  intros Hsteps Hstuck. unfold SpaceImpl_init.
  destruct (init_named parent nm st) as [n st0] eqn:Hnamed. simpl.
  pose proof (init_named_spaces _ _ _ _ _ Hnamed) as (Hkeys & Hhas & Hsame).
  pose proof (init_named_mro_of _ _ _ _ _ 0 Hnamed) as [_ Hlen].
  assert (∀ n', nm = Some n' → st0 = st) as Hst
    by (intros n' Hn'; by destruct (Hsame n' Hn')).
  rewrite Hhas.
  destruct (has_space st parent n) eqn:Hdup.
  { exists name_already_assigned, st0. by split_and!. }
  destruct (is_valid_name n) eqn:Hvalid; simpl.
  2: { exists (invalid_name n), st0. by split_and!. }
  unfold _update_mro. simpl.
  rewrite (map_mro_of_init_named _ _ _ _ _ _ Hnamed).
  unfold c3_merge, merge_fuel.
  rewrite (merge_loop_stuck k _ _ seqs_k []) by (done || lia).
  exists inconsistent_hierarchy, st0. by split_and!.
Qed.

(** [Z] with the bases [X] and [Y]: [X] puts [O1] before [O2] and [Y]
    puts [O2] before [O1]. *)
Lemma inconsistent_bases_raise_witness :
  SpaceImpl_init (H := sample_collaborators) TheModel (Some "Z")
    (BasesSeq [2; 3]) None None conflict_store
  = (Raise inconsistent_hierarchy, conflict_store).
Proof.
  destruct (inconsistent_bases_raise (H := sample_collaborators) TheModel
              (Some "Z") (BasesSeq [2; 3]) None None conflict_store
              2 [[0; 1]; [1; 0]; []])
    as (e & st0 & Hinit & He & _ & _ & Hst).
  - vm_compute. reflexivity.
  - apply stuck_merge_step. split; [done|]. vm_compute. reflexivity.
  - rewrite Hinit, (Hst "Z" eq_refl), He; [reflexivity|..];
      vm_compute; reflexivity.
Defined.

(** C7, as the code has it.  Creating a child container under a name that
    is already the name of a child container of the parent raises the
    [ValueError] for an assigned name; under a name that is free but not a
    valid name it raises the [ValueError] for an invalid name; under a name
    that is not valid it raises in any case.  The store, and with it every
    member collection of the parent, is unchanged.  The check is
    [has_space]: it looks at the child containers of the parent, not at
    the cells and references of the merged namespace. *)
Theorem new_space_name_errors `{!Collaborators} parent n bases pf args st :
  (has_space st parent n = true →
   new_space parent (Some n) bases pf args st
   = (Raise name_already_assigned, st)) ∧
  (has_space st parent n = false → is_valid_name n = false →
   new_space parent (Some n) bases pf args st = (Raise (invalid_name n), st)) ∧
  (is_valid_name n = false →
   ∃ e, new_space parent (Some n) bases pf args st = (Raise e, st)).
Proof.
  unfold new_space, SpaceImpl_init. simpl. split_and!.
  - by intros ->.
  - by intros -> ->.
  - intros ->. destruct (has_space st parent n); by eexists.
Qed.

(** The model has the child [A]: a second [A] is refused, and so is the
    name [1x]; the store stays as it is. *)
Lemma new_space_name_errors_witness :
  new_space (H := sample_collaborators) TheModel (Some "A") BasesNone None
    None diamond_store
  = (Raise name_already_assigned, diamond_store) ∧
  new_space (H := sample_collaborators) TheModel (Some "1x") BasesNone None
    None diamond_store
  = (Raise (invalid_name "1x"), diamond_store).
Proof.
  split.
  - apply (new_space_name_errors (H := sample_collaborators) TheModel "A").
    vm_compute. reflexivity.
  - apply (new_space_name_errors (H := sample_collaborators) TheModel "1x");
      vm_compute; reflexivity.
Defined.

(** C7 as the spec states it fails: [x] is a name of the merged namespace
    of [P] (a reference), [P] has no child container [x], and the child
    container [x] is created all the same. *)
Lemma name_of_reference_accepted :
  (λ s, in_namespace s "x") <$> heap_spaces store_with_reference !! 0
  = Some true ∧
  has_space store_with_reference (Space 0) "x" = false ∧
  (new_space (H := sample_collaborators) (Space 0) (Some "x") BasesNone None
     None store_with_reference).1 = Ok 1.
Proof. vm_compute. done. Qed.

(** C2.  Let a call of [get_space] on a container return a child, and let
    a second call follow on the store that the first one leaves.  When the
    argument tuples of the two calls are equal in value, the second call
    returns the same child and leaves the store alone whatever the
    parameter formula is: the formula is not evaluated again.  When they
    differ, a second call that returns gives another child.  Equality is
    equality of the tuples of bound values. *)
Theorem get_space_memoised `{!Collaborators} run self args1 kwargs1 args2
    kwargs2 st sp1 st1 av1 av2 :
  cache_ok st → well_behaved run →
  argvalues_of st self args1 kwargs1 = Some av1 →
  argvalues_of st1 self args2 kwargs2 = Some av2 →
  get_space run self args1 kwargs1 st = (Ok sp1, st1) →
  (av2 = av1 →
   ∀ run', get_space run' self args2 kwargs2 st1 = (Ok sp1, st1)) ∧
  (av2 ≠ av1 →
   ∀ sp2 st2, get_space run self args2 kwargs2 st1 = (Ok sp2, st2) →
              sp2 ≠ sp1).
Proof.
  intros Hok Hrun Hav1 Hav2 Hcall.
  pose proof Hav2 as (pf2 & a2 & Hpf2 & Hbind2 & ->)%argvalues_of_Some.
  pose proof (c_paramfunc_exists _ _ _ Hpf2) as Hex.
  pose proof (get_space_cached _ _ _ _ _ _ _ _ Hcall Hav1 Hex) as Hcached.
  destruct (get_space_cache_ok run self args1 kwargs1 st Hrun Hok)
    as [Hok1 _]. rewrite Hcall in Hok1. simpl in Hok1.
  destruct (Hok1 _ _ _ Hcached) as [Hlt Hinj]. split.
  - intros Heq run'. unfold get_space. by rewrite Hpf2, Hbind2, Heq, Hcached.
  - intros Hne sp2 st2 (pf & a & Hpf & Hbind & Hcases)%get_space_Ok.
    assert (a = a2) as -> by congruence.
    destruct Hcases as [[Hget _]|(_ & sa & st_f & st3 & Hf & Hnew & _)].
    + intros ->. by apply Hne, Hinj.
    + destruct (Hrun pf self a2 (set_system_self (Some self) st1))
        as [_ Hmono]; [by apply cache_ok_set_system_self|].
      rewrite Hf in Hmono. simpl in Hmono.
      apply SpaceImpl_init_frame in Hnew as (_ & _ & -> & _). simpl. lia.
Qed.

Lemma returns_None_well_behaved : well_behaved returns_None.
Proof. by intros pf c a st Hok. Qed.

Lemma parametrised_store_cache_ok : cache_ok parametrised_store.
Proof.
  apply (SpaceImpl_init_cache_ok (H := sample_collaborators) TheModel
           (Some "P") BasesNone (Some one_parameter) None new_model (Ok 0));
    [vm_compute; reflexivity|apply cache_ok_new_model].
Qed.

(** [P[1]] a second time is the child of the first call, even with a
    formula that would raise; [P[2]] is another child. *)
Lemma get_space_memoised_witness :
  get_space (H := sample_collaborators) raises (Space 0) [VInt 1] []
    store_after_first_call
  = (Ok 1, store_after_first_call) ∧
  (get_space (H := sample_collaborators) returns_None (Space 0) [VInt 2] []
     store_after_first_call).1 = Ok 2 ∧
  2 ≠ 1.
Proof.
  split; [|split; [vm_compute; reflexivity|]].
  - apply (get_space_memoised (H := sample_collaborators) returns_None
             (Space 0) [VInt 1] [] [VInt 1] [] parametrised_store 1
             store_after_first_call [VInt 1] [VInt 1]
             parametrised_store_cache_ok returns_None_well_behaved);
      vm_compute; reflexivity.
  - apply (get_space_memoised (H := sample_collaborators) returns_None
             (Space 0) [VInt 1] [] [VInt 2] [] parametrised_store 1
             store_after_first_call [VInt 1] [VInt 2]
             parametrised_store_cache_ok returns_None_well_behaved)
      with (st2 := (get_space (H := sample_collaborators) returns_None
                      (Space 0) [VInt 2] [] store_after_first_call).2);
      [vm_compute; reflexivity..|discriminate|vm_compute; reflexivity].
Defined.

(** C8.  On a call of [get_space] that misses the cache, the formula runs
    on a store in which [system.self] is the container: forcing
    [system.self] to the container at the entry of the formula changes
    nothing.  When the formula raises, the call raises the same exception
    and [system.self] is back at its former value; and every call, of any
    container, from any store, returning or raising, leaves [system.self]
    as it found it.  So a call made by the formula itself hands
    [system.self] back as the container of the outer call. *)
Theorem get_space_system_self `{!Collaborators} run self args kwargs st pf
    arguments :
  c_paramfunc st self = Some pf →
  bind_params (parameters pf) args kwargs = Ok arguments →
  PyDict.get (PyDict.values arguments) (c_param_spaces st self) = None →
  get_space run self args kwargs st
  = get_space (λ pf' c a st', run pf' c a (set_system_self (Some self) st'))
      self args kwargs st ∧
  (∃ r st_f,
     run pf self arguments (set_system_self (Some self) st) = (r, st_f) ∧
     system_self (set_system_self (Some self) st) = Some self ∧
     ∀ e, r = Raise e →
          get_space run self args kwargs st
          = (Raise e, set_system_self (system_self st) st_f)) ∧
  system_self (get_space run self args kwargs st).2 = system_self st ∧
  (∀ run2 self2 args2 kwargs2,
     system_self
       (get_space run2 self2 args2 kwargs2
          (set_system_self (Some self) st)).2 = Some self).
Proof.
  intros Hpf Hbind Hmiss. split_and!.
  - unfold get_space. by rewrite Hpf, Hbind, Hmiss.
  - destruct (run pf self arguments (set_system_self (Some self) st))
      as [r st_f] eqn:Hrun.
    exists r, st_f. split_and!; [done|done|]. intros e ->.
    unfold get_space. by rewrite Hpf, Hbind, Hmiss, Hrun.
  - apply get_space_system_self_restored.
  - intros run2 self2 args2 kwargs2.
    by rewrite get_space_system_self_restored.
Qed.

(** [P[1]] with a formula that raises: the exception comes out and
    [system.self] is [None] as before. *)
Lemma get_space_system_self_witness :
  get_space (H := sample_collaborators) raises (Space 0) [VInt 1] []
    parametrised_store
  = (Raise (UserError "formula"), parametrised_store) ∧
  system_self parametrised_store = None.
Proof.
  split; [|reflexivity].
  destruct (get_space_system_self (H := sample_collaborators) raises
              (Space 0) [VInt 1] [] parametrised_store one_parameter
              [("a", VInt 1)])
    as (_ & (r & st_f & Hrun & _ & Hraise) & _); [reflexivity..|].
  injection Hrun as <- <-. by rewrite (Hraise _ eq_refl).
Defined.

(** C10.  On a call of [get_space] that misses the cache, let the formula
    return [None], and let the name that the namer of the container makes up
    be a valid name that no child of the container has.  Then the call does
    not raise: it returns a new space, made with no base, no parameter
    formula and a made-up name, whose arguments are the arguments of the
    call; the space is in the cache under the argument tuple; and a formula
    that returns an empty mapping gives the same result and the same
    store. *)
Theorem get_space_formula_None `{!Collaborators} run self args kwargs st pf
    arguments st_f n st_n :
  c_paramfunc st self = Some pf →
  bind_params (parameters pf) args kwargs = Ok arguments →
  PyDict.get (PyDict.values arguments) (c_param_spaces st self) = None →
  run pf self arguments (set_system_self (Some self) st) = (Ok None, st_f) →
  container_exists st_f self →
  init_named self None (set_system_self (system_self st) st_f) = (n, st_n) →
  has_space st_n self n = false →
  is_valid_name n = true →
  ∃ sp st',
    get_space run self args kwargs st = (Ok sp, st') ∧
    sp = length (heap_spaces st_f) ∧
    PyDict.get (PyDict.values arguments) (c_param_spaces st' self) = Some sp ∧
    (∃ s, heap_spaces st' !! sp = Some s ∧
          _arguments s = arguments ∧ name s = n ∧ parent s = self ∧
          paramfunc s = None ∧ mro s = [sp] ∧ direct_bases s = []) ∧
    ∀ run',
      run' pf self arguments (set_system_self (Some self) st)
      = (Ok (Some no_kwargs), st_f) →
      get_space run' self args kwargs st = (Ok sp, st').
Proof.
  intros Hpf Hbind Hmiss Hrun Hex Hnamed Hhas Hvalid.
  pose proof (init_named_mro_of _ _ _ _ _ 0 Hnamed) as [_ Hlen].
  simpl in Hlen.
  set (new := _init_members (length (heap_spaces st_f))
                (set_mro [length (heap_spaces st_f)]
                   (set_direct_bases []
                      (blank_space self n BasesNone None (Some arguments))))).
  set (st2 := register (length (heap_spaces st_f)) new
                (set_heap_spaces (heap_spaces st_n ++ [new]) st_n)).
  assert (new_space self None BasesNone None (Some arguments)
            (set_system_self (system_self st) st_f)
          = (Ok (length (heap_spaces st_f)), st2)) as Hnew.
  { unfold new_space, SpaceImpl_init. rewrite Hnamed, Hhas, Hvalid. simpl.
    unfold _update_mro. simpl. by rewrite Hlen. }
  assert (length (heap_spaces st2) = S (length (heap_spaces st_f))) as Hlen2.
  { unfold st2. rewrite register_length. simpl. rewrite length_app. simpl.
    lia. }
  assert (self ≠ Space (length (heap_spaces st_f))) as Hself.
  { intros ->. simpl in Hex. lia. }
  exists (length (heap_spaces st_f)),
    (put_param_spaces self
       (PyDict.set (PyDict.values arguments) (length (heap_spaces st_f))
          (c_param_spaces st2 self)) st2).
  split_and!.
  - unfold get_space. rewrite Hpf, Hbind, Hmiss. simpl. rewrite Hrun. simpl.
    by rewrite Hnew.
  - done.
  - rewrite c_param_spaces_put_eq; [apply get_set_eq|].
    eapply container_exists_mono; [|exact Hex]. lia.
  - exists new. split; [|done].
    rewrite lookup_put_param_spaces_ne by done. unfold st2.
    rewrite register_lookup_ne by done. simpl.
    rewrite <- Hlen. by apply list_lookup_middle.
  - intros run' Hrun'. unfold get_space. rewrite Hpf, Hbind, Hmiss. simpl.
    rewrite Hrun'. simpl. by rewrite Hnew.
Qed.

(** [P[1]] with the formula [lambda a: None]: the child is the space 1,
    and it is in the cache of [P] under [(1,)]. *)
Lemma get_space_formula_None_witness :
  (get_space (H := sample_collaborators) returns_None (Space 0) [VInt 1] []
     parametrised_store).1 = Ok 1 ∧
  PyDict.get [VInt 1] (c_param_spaces store_after_first_call (Space 0))
  = Some 1 ∧
  get_space (H := sample_collaborators) returns_empty_mapping (Space 0)
    [VInt 1] [] parametrised_store
  = get_space (H := sample_collaborators) returns_None (Space 0) [VInt 1] []
      parametrised_store.
Proof.
  destruct (get_space_formula_None (H := sample_collaborators) returns_None
              (Space 0) [VInt 1] [] parametrised_store one_parameter
              [("a", VInt 1)] (set_system_self (Some (Space 0))
                                 parametrised_store)
              "Space1"
              (init_named (H := sample_collaborators) (Space 0) None
                 parametrised_store).2)
    as (sp & st' & Hcall & -> & Hcached & _ & Hsame);
    [vm_compute; reflexivity|vm_compute; reflexivity|vm_compute; reflexivity
    |vm_compute; reflexivity|vm_compute; lia|vm_compute; reflexivity
    |vm_compute; reflexivity|vm_compute; reflexivity|].
  unfold store_after_first_call. rewrite Hcall, (Hsame _ eq_refl).
  split_and!; [reflexivity|exact Hcached|reflexivity].
Defined.




(** C6 does not hold of the code.  [C] was created with the base [P], yet
    its [direct_bases] is empty: the merge of [_update_mro] has emptied the
    list.  [P] has the own cell [x] and [C] overrides it.  After
    [C.remove_cells("x")] the own cell is gone and its parent link is
    cleared, but the loop over [direct_bases] has nothing to visit and no
    flag is set: at the next read of the cells of [C] there is no cell [x],
    own or derived, and [x] is not in the namespace of [C], although [x]
    is inheritable from [P]. *)
Theorem remove_cells_leaves_name_unresolved :
  (λ s, (mro s, direct_bases s)) <$> heap_spaces overridden_cell !! 1
  = Some ([1; 0], []) ∧
  (remove_cells (H := sample_collaborators) 1 "x" overridden_cell).1
  = Ok () ∧
  cells_parent <$> heap_cells override_removed !! 1 = Some None ∧
  (λ s, (_self_cells s, _derived_cells s))
    <$> heap_spaces override_removed !! 1 = Some ([], []) ∧
  (λ s, in_namespace s "x") <$> heap_spaces override_removed !! 1
  = Some false ∧
  _self_cells <$> heap_spaces override_removed !! 0 = Some [("x", 0)] ∧
  BaseMembers_update_data _self_cells override_removed
    <$> heap_spaces override_removed !! 1 = Some [("x", 0)].
Proof. vm_compute. done. Qed.

(** C9.  [revert_derived] raises [NotImplementedError] on every space and
    every name, and the store it leaves is the store it was given: nothing
    is restored and nothing is changed. *)
Theorem revert_derived_unsupported self nm st :
  revert_derived self nm st = (Raise NotImplementedError, st).
Proof. reflexivity. Qed.

(** * More of the code *)

(** ** Dictionaries, further *)

Lemma list_filter_iff_in {A : Type} (P1 P2 : A → Prop)
    `{∀ x, Decision (P1 x)} `{∀ x, Decision (P2 x)} (l : list A) :
  (∀ x, x ∈ l → P1 x ↔ P2 x) → filter P1 l = filter P2 l.
Proof.
  induction l as [|a l IH]; intros Hiff; [done|].
  assert (filter P1 l = filter P2 l) as Hl
    by (apply IH; intros x Hx; apply Hiff; by right).
  destruct (decide (P1 a)) as [Ha|Ha].
  - rewrite !filter_cons_True by (done || by apply Hiff; [left|]).
    by rewrite Hl.
  - rewrite !filter_cons_False; [done|..|done].
    intros Hc. apply Ha, Hiff; [left|done].
Qed.

Section dict_more.
Context {K V : Type} `{EqDecision K}.
Implicit Types (d : list (K * V)) (k : K) (v : V).

Lemma set_fresh k v d :
  k ∉ PyDict.keys d → PyDict.set k v d = d ++ [(k, v)].
Proof.
  induction d as [|[k' v'] d IH]; simpl; [done|].
  intros [Hne Hd]%not_elem_of_cons.
  rewrite decide_False by done. by rewrite IH.
Qed.

Lemma keys_set_elem k v d k0 :
  k0 ∈ PyDict.keys (PyDict.set k v d) ↔ k0 = k ∨ k0 ∈ PyDict.keys d.
Proof.
  induction d as [|[k' v'] d IH]; simpl.
  - rewrite list_elem_of_singleton, elem_of_nil. tauto.
  - destruct (decide (k = k')) as [->|Hne]; simpl.
    + rewrite elem_of_cons. tauto.
    + rewrite !elem_of_cons, IH. tauto.
Qed.

Lemma NoDup_keys_set k v d :
  NoDup (PyDict.keys d) → NoDup (PyDict.keys (PyDict.set k v d)).
Proof.
  induction d as [|[k' v'] d IH]; simpl.
  - intros _. apply NoDup_singleton.
  - intros [Hk' Hd]%NoDup_cons.
    destruct (decide (k = k')) as [->|Hne]; simpl.
    + by apply NoDup_cons.
    + apply NoDup_cons. split; [|by apply IH].
      rewrite keys_set_elem. intros [->|?]; done.
Qed.

Lemma elem_of_set kv k v d :
  kv ∈ PyDict.set k v d → kv = (k, v) ∨ kv ∈ d.
Proof.
  induction d as [|[k' v'] d IH]; simpl.
  - intros ->%list_elem_of_singleton. by left.
  - destruct (decide (k = k')) as [->|Hne].
    + intros [->|?]%elem_of_cons; [by left|]. right. by right.
    + intros [->|[->|?]%IH]%elem_of_cons.
      * right. left.
      * by left.
      * right. by right.
Qed.

Lemma del_fresh k d : k ∉ PyDict.keys d → PyDict.del k d = d.
Proof.
  induction d as [|[k' v'] d IH]; simpl; [done|].
  intros [Hne Hd]%not_elem_of_cons.
  rewrite decide_False by done. by rewrite IH.
Qed.

Lemma del_filter k d :
  NoDup (PyDict.keys d) →
  PyDict.del k d = filter (λ kv, kv.1 ≠ k) d.
Proof.
  induction d as [|[k' v'] d IH]; simpl; [done|].
  intros [Hk' Hd]%NoDup_cons.
  destruct (decide (k = k')) as [->|Hne].
  - rewrite filter_cons_False by (simpl; intros Hc; by apply Hc).
    rewrite <- IH by done. by rewrite del_fresh.
  - rewrite filter_cons_True by (simpl; congruence). by rewrite IH.
Qed.

Lemma elem_of_del kv k d : kv ∈ PyDict.del k d → kv ∈ d.
Proof.
  induction d as [|[k' v'] d IH]; simpl; [done|].
  destruct (decide (k = k')) as [->|Hne].
  - intros ?. by right.
  - intros [->|?%IH]%elem_of_cons; [left|by right].
Qed.

Lemma keys_filter_sublist (P : K * V → Prop) `{∀ x, Decision (P x)} d :
  PyDict.keys (filter P d) `sublist_of` PyDict.keys d.
Proof.
  induction d as [|kv d IH]; simpl; [done|].
  destruct (decide (P kv)).
  - rewrite filter_cons_True by done. simpl. by apply sublist_skip.
  - rewrite filter_cons_False by done. by apply sublist_cons.
Qed.

Lemma NoDup_keys_filter (P : K * V → Prop) `{∀ x, Decision (P x)} d :
  NoDup (PyDict.keys d) → NoDup (PyDict.keys (filter P d)).
Proof. intros Hd. eapply sublist_NoDup; [exact Hd|apply keys_filter_sublist]. Qed.

Lemma elem_of_keys k d : k ∈ PyDict.keys d ↔ ∃ v, (k, v) ∈ d.
Proof.
  unfold PyDict.keys. rewrite elem_of_map. split.
  - intros ([k' v] & -> & Hin). by exists v.
  - intros [v Hin]. by exists (k, v).
Qed.

Lemma get_filter_key (Q : K → Prop) `{∀ x, Decision (Q x)} k d :
  PyDict.get k (filter (λ kv, Q kv.1) d)
  = if decide (Q k) then PyDict.get k d else None.
Proof.
  induction d as [|[k' v'] d IH]; simpl; [by destruct (decide (Q k))|].
  destruct (decide (Q k')) as [Hq|Hq].
  - rewrite filter_cons_True by done. simpl.
    destruct (decide (k = k')) as [->|Hne]; [by rewrite decide_True|done].
  - rewrite filter_cons_False by done. rewrite IH.
    destruct (decide (Q k)) as [Hk|Hk]; [|done].
    rewrite decide_False; [done|]. by intros ->.
Qed.

Lemma NoDup_keys_update d other :
  NoDup (PyDict.keys d) → NoDup (PyDict.keys (PyDict.update d other)).
Proof.
  unfold PyDict.update. revert d.
  induction other as [|[k v] other IH]; intros d Hd; simpl; [done|].
  by apply IH, NoDup_keys_set.
Qed.

Lemma elem_of_update kv d other :
  kv ∈ PyDict.update d other → kv ∈ d ∨ kv ∈ other.
Proof.
  unfold PyDict.update. revert d.
  induction other as [|[k v] other IH]; intros d; simpl; [by left|].
  intros [[->|?]%elem_of_set|?]%IH.
  - right. left.
  - by left.
  - right. by right.
Qed.

Lemma update_fresh d other :
  NoDup (PyDict.keys other) →
  (∀ k, k ∈ PyDict.keys other → k ∉ PyDict.keys d) →
  PyDict.update d other = d ++ other.
Proof.
  unfold PyDict.update. revert d.
  induction other as [|[k v] other IH]; intros d Hnd Hfresh; simpl.
  - by rewrite app_nil_r.
  - simpl in Hnd. apply NoDup_cons in Hnd as [Hk Hnd].
    rewrite set_fresh by (apply Hfresh; left).
    rewrite IH; [by rewrite <- app_assoc|done|].
    intros k0 Hk0. unfold PyDict.keys. rewrite map_app, elem_of_app.
    intros [Hin|Hin%list_elem_of_singleton].
    + by apply (Hfresh k0); [right|].
    + simpl in Hin. by subst.
Qed.

Lemma get_update_other k d other :
  NoDup (PyDict.keys other) → k ∈ PyDict.keys other →
  PyDict.get k (PyDict.update d other) = PyDict.get k other.
Proof.
  unfold PyDict.update. revert d.
  induction other as [|[k' v] other IH]; intros d Hnd Hk; simpl.
  - by apply elem_of_nil in Hk.
  - simpl in Hnd, Hk. apply NoDup_cons in Hnd as [Hk' Hnd].
    destruct (decide (k = k')) as [->|Hne].
    + clear IH Hk.
      assert (∀ d0, PyDict.get k' d0 = Some v →
                    PyDict.get k' (foldl (λ acc kv, PyDict.set kv.1 kv.2 acc)
                                     d0 other) = Some v) as Hkeep.
      { clear d. induction other as [|[k2 v2] other IH2]; intros d0 Hd0;
          simpl; [done|].
        simpl in Hk', Hnd. apply not_elem_of_cons in Hk' as [Hne Hk'].
        apply NoDup_cons in Hnd as [_ Hnd].
        apply IH2; [done..|]. rewrite get_set_ne by done. done. }
      apply Hkeep, get_set_eq.
    + apply elem_of_cons in Hk as [?|Hk]; [done|]. by apply IH.
Qed.

(** The loop that deletes from [d] every key of [ks] that is not in
    [keep]. *)
Lemma del_rejected (keep ks : list K) d :
  NoDup (PyDict.keys d) →
  foldl (λ d nm, if bool_decide (nm ∈ keep) then d else PyDict.del nm d)
        d ks
  = filter (λ kv, kv.1 ∈ keep ∨ kv.1 ∉ ks) d.
Proof.
  revert d. induction ks as [|k ks IH]; intros d Hd; simpl.
  - induction d as [|kv d IHd]; [done|].
    rewrite filter_cons_True by (right; apply not_elem_of_nil).
    f_equal. apply IHd. simpl in Hd. by apply NoDup_cons in Hd as [_ ?].
  - destruct (bool_decide (k ∈ keep)) eqn:Hkeep.
    + apply bool_decide_eq_true in Hkeep. rewrite IH by done.
      apply list_filter_iff. intros [k0 v0]. simpl.
      rewrite not_elem_of_cons.
      destruct (decide (k0 = k)) as [->|Hne]; [tauto|tauto].
    + apply bool_decide_eq_false in Hkeep.
      rewrite IH by (rewrite del_filter by done; by apply NoDup_keys_filter).
      rewrite del_filter by done. rewrite list_filter_filter.
      apply list_filter_iff. intros [k0 v0]. simpl.
      rewrite not_elem_of_cons.
      destruct (decide (k0 = k)) as [->|Hne]; [tauto|tauto].
Qed.

Lemma elem_of_del_rejected (keep ks : list K) d kv :
  kv ∈ foldl (λ d nm, if bool_decide (nm ∈ keep) then d else PyDict.del nm d)
         d ks →
  kv ∈ d.
Proof.
  revert d. induction ks as [|k ks IH]; intros d; simpl; [done|].
  intros Hin%IH. destruct (bool_decide _); [done|].
  by apply elem_of_del in Hin.
Qed.

(** The loop that deletes the keys [ks] from [d]. *)
Lemma del_all (ks : list K) d :
  NoDup (PyDict.keys d) →
  foldl (λ d key, PyDict.del key d) d ks = filter (λ kv, kv.1 ∉ ks) d.
Proof.
  revert d. induction ks as [|k ks IH]; intros d Hd; simpl.
  - induction d as [|kv d IHd]; [done|].
    rewrite filter_cons_True by apply not_elem_of_nil.
    f_equal. apply IHd. simpl in Hd. by apply NoDup_cons in Hd as [_ ?].
  - rewrite IH by (rewrite del_filter by done; by apply NoDup_keys_filter).
    rewrite del_filter by done. rewrite list_filter_filter.
    apply list_filter_iff. intros [k0 v0]. simpl.
    rewrite not_elem_of_cons. tauto.
Qed.

End dict_more.

(** ** The linearisation, further *)

Section linearisation_more.
Context `{!Collaborators}.

Lemma SpaceImpl_init_rejects parent n bases pf args st :
  has_space st parent n = false → is_valid_name n = true →
  (∀ res seqs',
     c3_merge (map (mro_of st) (bases_list bases) ++ [bases_list bases])
     ≠ Some (Ok res, seqs')) →
  SpaceImpl_init parent (Some n) bases pf args st
  = (Raise inconsistent_hierarchy, st).
Proof.
  intros Hhas Hvalid Hno. unfold SpaceImpl_init. simpl.
  rewrite Hhas, Hvalid. simpl. unfold _update_mro. simpl.
  destruct (c3_merge _) as [[[res|e] seqs']|] eqn:Hmerge.
  - by destruct (Hno res seqs').
  - by apply merge_loop_Raise in Hmerge as [-> _].
  - by destruct (c3_merge_total
                   (map (mro_of st) (bases_list bases) ++ [bases_list bases]))
      as [r Hr]; rewrite Hr in Hmerge.
Qed.

Lemma SpaceImpl_init_accepts parent n bases pf args st res seqs' :
  has_space st parent n = false → is_valid_name n = true →
  c3_merge (map (mro_of st) (bases_list bases) ++ [bases_list bases])
  = Some (Ok res, seqs') →
  ∃ st', SpaceImpl_init parent (Some n) bases pf args st
         = (Ok (length (heap_spaces st)), st').
Proof.
  intros Hhas Hvalid Hmerge. unfold SpaceImpl_init. simpl.
  rewrite Hhas, Hvalid. simpl. unfold _update_mro. simpl.
  rewrite Hmerge. by eexists.
Qed.

Lemma precedes_antisym (a b : SpaceId) (l : list SpaceId) :
  NoDup l → precedes a b l → precedes b a l → False.
Proof.
  unfold precedes. induction l as [|x l IH]; intros Hnd Hab Hba.
  - by apply sublist_nil_r in Hab.
  - apply NoDup_cons in Hnd as [Hx Hnd].
    apply sublist_cons_r in Hab as [Hab|(l1 & [= <- <-] & Hb)];
      apply sublist_cons_r in Hba as [Hba|(l2 & [= <- <-] & Ha)].
    + by apply IH.
    + apply Hx. eapply elem_of_sublist; [|exact Hab].
      apply elem_of_cons. right. left.
    + apply Hx. eapply elem_of_sublist; [|exact Hba].
      apply elem_of_cons. right. left.
    + apply Hx. eapply elem_of_sublist; [|exact Hb]. left.
Qed.




End linearisation_more.

(** X1.  A sequence of bases that names a space twice is refused: with a
    name that passes the two name checks the constructor raises the
    [TypeError] for an inconsistent hierarchy, and the store is the one it
    was given. *)
Theorem repeated_base_rejected `{!Collaborators} parent n bases pf args st :
  has_space st parent n = false → is_valid_name n = true →
  ¬ NoDup (bases_list bases) →
  new_space parent (Some n) bases pf args st
  = (Raise inconsistent_hierarchy, st).
Proof.
  intros Hhas Hvalid Hdup. apply SpaceImpl_init_rejects; [done..|].
  intros res seqs' (suffix & _ & Hsub & _ & Hnd & _)%merge_loop_Ok.
  apply Hdup. apply (sublist_NoDup _ suffix); [done|].
  apply Hsub, elem_of_app. right. left.
Qed.

Lemma repeated_base_rejected_witness :
  new_space (H := sample_collaborators) TheModel (Some "D")
    (BasesSeq [1; 1]) None None diamond_store
  = (Raise inconsistent_hierarchy, diamond_store).
Proof.
  apply (repeated_base_rejected (H := sample_collaborators));
    [vm_compute; reflexivity|vm_compute; reflexivity|].
  intros [Hx _]%NoDup_cons. apply Hx. left.
Defined.

(** X2.  Bases given in an order that puts a space before one of its own
    descendants are refused: when [b1] comes before [b2] in the bases and
    [b1] is in the linearisation of [b2] after [b2] itself, the constructor
    raises the [TypeError] for an inconsistent hierarchy and leaves the
    store as it was. *)
Theorem base_before_descendant_rejected `{!Collaborators} parent n bases pf
    args st b1 b2 :
  has_space st parent n = false → is_valid_name n = true →
  precedes b1 b2 (bases_list bases) →
  head (mro_of st b2) = Some b2 → b1 ∈ tail (mro_of st b2) →
  new_space parent (Some n) bases pf args st
  = (Raise inconsistent_hierarchy, st).
Proof.
  intros Hhas Hvalid Hprec Hhead Htail.
  apply SpaceImpl_init_rejects; [done..|].
  intros res seqs' (suffix & _ & Hsub & _ & Hnd & _)%merge_loop_Ok.
  apply (precedes_antisym b1 b2 suffix Hnd).
  - unfold precedes. etransitivity; [exact Hprec|].
    apply Hsub, elem_of_app. right. left.
  - unfold precedes.
    assert (mro_of st b2 `sublist_of` suffix) as Hm.
    { apply Hsub, elem_of_app. left. apply elem_of_map. exists b2.
      split; [done|]. eapply elem_of_sublist; [|exact Hprec].
      apply elem_of_cons. right. left. }
    etransitivity; [|exact Hm].
    destruct (mro_of st b2) as [|h t]; [done|].
    injection Hhead as ->. simpl in Htail.
    apply sublist_skip. by apply singleton_sublist_l.
Qed.

(** [O] before [A], whose base is [O]. *)
Lemma base_before_descendant_rejected_witness :
  new_space (H := sample_collaborators) TheModel (Some "D")
    (BasesSeq [0; 1]) None None diamond_store
  = (Raise inconsistent_hierarchy, diamond_store).
Proof.
  apply (base_before_descendant_rejected (H := sample_collaborators)
           TheModel "D" (BasesSeq [0; 1]) None None diamond_store 0 1).
  - vm_compute. reflexivity.
  - vm_compute. reflexivity.
  - unfold precedes. simpl. reflexivity.
  - vm_compute. reflexivity.
  - vm_compute. left.
Defined.

(** X3.  The linearisation of a new container holds the container, its
    direct bases and the members of the linearisations of its direct bases,
    and nothing else; after the container itself no space is repeated. *)
Theorem mro_members `{!Collaborators} parent nm bases pf args st i st' :
  new_space parent nm bases pf args st = (Ok i, st') →
  NoDup (tail (mro_of st' i)) ∧
  ∀ c, c ∈ mro_of st' i ↔
       c = i ∨ c ∈ bases_list bases ∨
       ∃ b, b ∈ bases_list bases ∧ c ∈ mro_of st b.
Proof.
  intros (res & seqs' & Hmerge & -> & _ & Hnew & _)%SpaceImpl_init_mro_of.
  apply merge_loop_Ok in Hmerge as (suffix & Heq & Hsub & Hel & Hnd & _).
  simpl in Heq. subst suffix. rewrite Hnew. split; [done|].
  intros c. rewrite elem_of_cons. split.
  - intros [->|Hc]; [by left|]. right.
    destruct (Hel c Hc) as (s & [Hs|Hs]%elem_of_app & Hin).
    + right. apply elem_of_map in Hs as (b & -> & Hb). by exists b.
    + left. by apply list_elem_of_singleton in Hs as ->.
  - intros [->|[Hc|(b & Hb & Hc)]]; [by left|right..].
    + eapply elem_of_sublist; [exact Hc|].
      apply Hsub, elem_of_app. right. left.
    + eapply elem_of_sublist; [exact Hc|].
      apply Hsub, elem_of_app. left. apply elem_of_map. by exists b.
Qed.

Lemma mro_members_witness :
  let st' := sample_new_space "C" (BasesSeq [1; 2]) diamond_store in
  NoDup (tail (mro_of st' 3)) ∧
  ∀ c, c ∈ mro_of st' 3 ↔
       c = 3 ∨ c ∈ [1; 2] ∨ ∃ b, b ∈ [1; 2] ∧ c ∈ mro_of diamond_store b.
Proof.
  apply (mro_members (H := sample_collaborators) TheModel (Some "C")
           (BasesSeq [1; 2]) None None diamond_store 3).
  vm_compute. reflexivity.
Defined.



(** X5.  Without bases the hierarchy check cannot fail: with a name that
    passes the two name checks the constructor returns the next free index
    of the heap, and the linearisation of the new container is the
    container alone. *)
Theorem no_bases_linearization `{!Collaborators} parent n bases pf args st :
  has_space st parent n = false → is_valid_name n = true →
  bases_list bases = [] →
  ∃ st',
    new_space parent (Some n) bases pf args st
    = (Ok (length (heap_spaces st)), st') ∧
    mro_of st' (length (heap_spaces st)) = [length (heap_spaces st)].
Proof.
  intros Hhas Hvalid Hb.
  assert (c3_merge (map (mro_of st) (bases_list bases) ++ [bases_list bases])
          = Some (Ok [], [[]])) as Hmerge by (by rewrite Hb).
  destruct (SpaceImpl_init_accepts parent n bases pf args st _ _
              Hhas Hvalid Hmerge) as [st' Hinit].
  exists st'. split; [done|].
  apply SpaceImpl_init_mro_of in Hinit
    as (res & seqs' & Hmerge' & _ & _ & Hnew & _).
  rewrite Hmerge in Hmerge'. by injection Hmerge' as <- _.
Qed.

Lemma no_bases_linearization_witness :
  ∃ st',
    new_space (H := sample_collaborators) TheModel (Some "D") BasesNone
      None None diamond_store = (Ok 3, st') ∧
    mro_of st' 3 = [3].
Proof.
  apply (no_bases_linearization (H := sample_collaborators) TheModel "D"
           BasesNone None None diamond_store).
  - vm_compute. reflexivity.
  - vm_compute. reflexivity.
  - reflexivity.
Defined.

(** X6.  [has_bases] is true of a new container exactly when it was given
    at least one base. *)
Theorem has_bases_iff `{!Collaborators} parent nm bases pf args st i st' :
  new_space parent nm bases pf args st = (Ok i, st') →
  ∃ s, heap_spaces st' !! i = Some s ∧
       (has_bases s = true ↔ bases_list bases ≠ []).
Proof.
  intros (res & seqs' & Hmerge & -> & _ & Hnew & _)%SpaceImpl_init_mro_of.
  unfold mro_of in Hnew.
  destruct (heap_spaces st' !! length (heap_spaces st)) as [s|]; [|done].
  exists s. split; [done|].
  apply merge_loop_Ok in Hmerge as (suffix & Heq & Hsub & Hel & _).
  simpl in Heq. subst suffix.
  unfold has_bases. rewrite bool_decide_eq_true, Hnew. simpl. split.
  - intros Hlen Hb. destruct res as [|c res]; [simpl in Hlen; lia|].
    destruct (Hel c) as (s0 & Hs0 & Hc); [left|].
    rewrite Hb in Hs0. simpl in Hs0.
    apply list_elem_of_singleton in Hs0 as ->. by apply elem_of_nil in Hc.
  - intros Hb. destruct (bases_list bases) as [|b bs] eqn:Hbs; [done|].
    assert (b ∈ res) as Hin.
    { eapply elem_of_sublist; [|apply Hsub, elem_of_app; right; left]. left. }
    destruct res; [by apply elem_of_nil in Hin|simpl; lia].
Qed.

Lemma has_bases_iff_witness :
  ∃ s, heap_spaces (sample_new_space "D" (BasesOne 1) diamond_store) !! 3
       = Some s ∧
       (has_bases s = true ↔ [1] ≠ []).
Proof.
  apply (has_bases_iff (H := sample_collaborators) TheModel (Some "D")
           (BasesOne 1) None None diamond_store 3).
  vm_compute. reflexivity.
Defined.

(** X7.  Construction leaves [direct_bases] empty, whatever bases were
    given: the merge consumes the list it is handed.  The bases are kept,
    in their order, in the linearisation only. *)
Theorem construction_empties_direct_bases `{!Collaborators} parent nm bases
    pf args st i st' :
  new_space parent nm bases pf args st = (Ok i, st') →
  ∃ s, heap_spaces st' !! i = Some s ∧
       direct_bases s = [] ∧
       bases_list bases `sublist_of` tail (mro s).
Proof.
  intros Hinit.
  pose proof (SpaceImpl_init_direct_bases _ _ _ _ _ _ _ _ Hinit) as Hdb.
  apply SpaceImpl_init_mro_of in Hinit
    as (res & seqs' & Hmerge & -> & _ & Hnew & _).
  unfold mro_of in Hnew.
  destruct (heap_spaces st' !! length (heap_spaces st)) as [s|]; [|done].
  exists s. split; [done|]. split; [by injection Hdb|].
  apply merge_loop_Ok in Hmerge as (suffix & Heq & Hsub & _).
  simpl in Heq. subst suffix. rewrite Hnew. simpl.
  apply Hsub, elem_of_app. right. left.
Qed.

Lemma construction_empties_direct_bases_witness :
  ∃ s, heap_spaces (sample_new_space "C" (BasesSeq [1; 2]) diamond_store) !! 3
       = Some s ∧
       direct_bases s = [] ∧
       [1; 2] `sublist_of` tail (mro s).
Proof.
  apply (construction_empties_direct_bases (H := sample_collaborators)
           TheModel (Some "C") (BasesSeq [1; 2]) None None diamond_store 3).
  vm_compute. reflexivity.
Defined.

(** ** The inheritable members *)

Section base_members_more.
Context {V : Type} (attr : SpaceImpl → list (string * V)).

Lemma zip_tail_snoc {A : Type} (l : list A) (x : A) :
  zip (l ++ [x]) (tail (l ++ [x]))
  = zip l (tail l) ++ match last l with Some y => [(y, x)] | None => [] end.
Proof.
  induction l as [|a l IH]; [done|].
  destruct l as [|b l]; [done|].
  change (zip ((a :: b :: l) ++ [x]) (tail ((a :: b :: l) ++ [x])))
    with ((a, b) :: zip ((b :: l) ++ [x]) (tail ((b :: l) ++ [x]))).
  rewrite IH. done.
Qed.

(** One turn of the loop, on a dictionary: the own members of [base] are
    added, and the names of the own members of [base_next] go. *)
Lemma BaseMembers_step_spec st data pair :
  NoDup (PyDict.keys data) →
  BaseMembers_step attr st data pair
  = match heap_spaces st !! pair.1, heap_spaces st !! pair.2 with
    | Some base, Some base_next =>
        filter (λ kv, kv.1 ∉ self_members_keys base_next)
               (PyDict.update data (attr base))
    | _, _ => data
    end.
Proof.
  intros Hnd. unfold BaseMembers_step.
  destruct (heap_spaces st !! pair.1) as [base|]; [|done].
  destruct (heap_spaces st !! pair.2) as [base_next|]; [|done].
  rewrite del_rejected by by apply NoDup_keys_update.
  apply list_filter_iff_in. intros [k v] Hin. simpl.
  assert (k ∈ PyDict.keys (PyDict.update data (attr base))) as Hk
    by (apply elem_of_keys; by exists v).
  rewrite list_elem_of_filter. split.
  - by intros [[? _]|?].
  - intros ?. by left.
Qed.

Lemma BaseMembers_step_NoDup st data pair :
  NoDup (PyDict.keys data) →
  NoDup (PyDict.keys (BaseMembers_step attr st data pair)).
Proof.
  intros Hnd. rewrite BaseMembers_step_spec by done.
  destruct (heap_spaces st !! pair.1) as [base|]; [|done].
  destruct (heap_spaces st !! pair.2) as [base_next|]; [|done].
  by apply NoDup_keys_filter, NoDup_keys_update.
Qed.

Lemma BaseMembers_foldl_NoDup st data pairs :
  NoDup (PyDict.keys data) →
  NoDup (PyDict.keys (foldl (BaseMembers_step attr st) data pairs)).
Proof.
  revert data. induction pairs as [|p pairs IH]; intros data Hnd; simpl;
    [done|].
  by apply IH, BaseMembers_step_NoDup.
Qed.

Lemma BaseMembers_foldl_elem st data pairs kv :
  kv ∈ foldl (BaseMembers_step attr st) data pairs →
  kv ∈ data ∨
  ∃ p base, p ∈ pairs ∧ heap_spaces st !! p.1 = Some base ∧ kv ∈ attr base.
Proof.
  revert data. induction pairs as [|p pairs IH]; intros data; simpl;
    [by left|].
  intros [Hin|(p' & base & Hp' & Hb & Hin)]%IH.
  - unfold BaseMembers_step in Hin.
    destruct (heap_spaces st !! p.1) as [base|] eqn:Hb; [|by left].
    destruct (heap_spaces st !! p.2) as [base_next|]; [|by left].
    assert (kv ∈ PyDict.update data (attr base)) as Hup
      by (by apply elem_of_del_rejected in Hin).
    apply elem_of_update in Hup as [?|?]; [by left|].
    right. exists p, base. split_and!; [left|done|done].
  - right. exists p', base. split_and!; [by right|done|done].
Qed.

(** The loop of [_update_data], by its last turn: the pair of the nearest
    base [b] and the space itself. *)
Lemma BaseMembers_update_data_last st (s : SpaceImpl) i b rest :
  mro s = i :: b :: rest →
  ∃ data0 pairs,
    NoDup (PyDict.keys data0) ∧
    data0 = foldl (BaseMembers_step attr st) [] pairs ∧
    (∀ p, p ∈ pairs → p.1 ∈ rest) ∧
    BaseMembers_update_data attr st s
    = BaseMembers_step attr st data0 (b, i).
Proof.
  intros Hmro. unfold BaseMembers_update_data. rewrite Hmro.
  rewrite reverse_cons, zip_tail_snoc, foldl_app.
  rewrite last_reverse. simpl.
  exists (foldl (BaseMembers_step attr st) []
            (zip (reverse (b :: rest)) (tail (reverse (b :: rest))))),
    (zip (reverse (b :: rest)) (tail (reverse (b :: rest)))).
  split_and!; [|done| |done].
  - apply BaseMembers_foldl_NoDup. apply NoDup_nil_2.
  - intros [p1 p2] Hp. simpl.
    rewrite reverse_cons, zip_tail_snoc in Hp.
    apply elem_of_reverse.
    apply elem_of_app in Hp as [Hp|Hp].
    + by apply elem_of_zip_l in Hp.
    + destruct (last (reverse rest)) as [y|] eqn:Hlast;
        [|by apply elem_of_nil in Hp].
      apply list_elem_of_singleton in Hp as [= -> _].
      by apply last_Some_elem_of.
Qed.

End base_members_more.

(** X8.  The inheritable members that [BaseMembers._update_data] computes
    for a space with at least one base: no name is kept twice, no name of
    an own member of the space is among them, and every entry is an own
    member of one of the spaces that follow the space in its
    linearisation. *)
Theorem inheritable_members_sound {V : Type}
    (attr : SpaceImpl → list (string * V)) st (s : SpaceImpl) i b rest :
  mro s = i :: b :: rest →
  heap_spaces st !! i = Some s →
  is_Some (heap_spaces st !! b) →
  NoDup (PyDict.keys (BaseMembers_update_data attr st s)) ∧
  ∀ k v, (k, v) ∈ BaseMembers_update_data attr st s →
    (k ∉ self_members_keys s) ∧
    ∃ a base, a ∈ b :: rest ∧ heap_spaces st !! a = Some base ∧
              (k, v) ∈ attr base.
Proof.
  intros Hmro Hs [base Hb].
  destruct (BaseMembers_update_data_last attr st s i b rest Hmro)
    as (data0 & pairs & Hnd & Hdata0 & Hpairs & ->).
  split; [by apply BaseMembers_step_NoDup|].
  intros k v. rewrite BaseMembers_step_spec by done. simpl.
  rewrite Hb, Hs. intros [Hk Hin]%list_elem_of_filter. simpl in Hk.
  split; [done|].
  apply elem_of_update in Hin as [Hin|Hin].
  - rewrite Hdata0 in Hin.
    apply BaseMembers_foldl_elem in Hin
      as [Hin|(p & base' & Hp & Hb' & Hin)]; [by apply elem_of_nil in Hin|].
    exists p.1, base'. split_and!; [|done|done].
    right. by apply Hpairs.
  - exists b, base. split_and!; [left|done|done].
Qed.

(** [C] with the base [P], when [P] has the own cells [a] and [b]. *)
Lemma inheritable_members_sound_witness :
  NoDup (PyDict.keys
           (BaseMembers_update_data _self_cells two_inheritable_cells
              (space_at two_inheritable_cells 1))) ∧
  ∀ k v, (k, v) ∈ BaseMembers_update_data _self_cells two_inheritable_cells
                    (space_at two_inheritable_cells 1) →
    (k ∉ self_members_keys (space_at two_inheritable_cells 1)) ∧
    ∃ a base, a ∈ [0] ∧ heap_spaces two_inheritable_cells !! a = Some base ∧
              (k, v) ∈ _self_cells base.
Proof.
  apply (inheritable_members_sound _self_cells two_inheritable_cells
           (space_at two_inheritable_cells 1) 1 0 []).
  - vm_compute. reflexivity.
  - vm_compute. reflexivity.
  - vm_compute. eexists. reflexivity.
Defined.

(** X9.  The nearest base wins: for a name among the own members of the
    first base of the linearisation, the inheritable member is the one of
    that base, whatever the bases after it hold under the name; and it is
    dropped when the space has an own member of the name. *)
Theorem nearest_base_wins {V : Type} (attr : SpaceImpl → list (string * V))
    st (s : SpaceImpl) i b rest base k :
  mro s = i :: b :: rest →
  heap_spaces st !! i = Some s →
  heap_spaces st !! b = Some base →
  NoDup (PyDict.keys (attr base)) →
  k ∈ PyDict.keys (attr base) →
  PyDict.get k (BaseMembers_update_data attr st s)
  = if decide (k ∈ self_members_keys s) then None
    else PyDict.get k (attr base).
Proof.
  intros Hmro Hs Hb Hnd Hk.
  destruct (BaseMembers_update_data_last attr st s i b rest Hmro)
    as (data0 & pairs & Hnd0 & _ & _ & ->).
  rewrite BaseMembers_step_spec by done. simpl. rewrite Hb, Hs.
  pose proof (get_filter_key (λ k, k ∉ self_members_keys s) k
                (PyDict.update data0 (attr base))) as Hget.
  simpl in Hget. rewrite Hget. clear Hget.
  destruct (decide (k ∈ self_members_keys s)).
  - by rewrite decide_False by (intros Hc; by apply Hc).
  - rewrite decide_True by done. by apply get_update_other.
Qed.

(** [C] has the bases [A] and [B], and both have an own cell [x]: the
    inheritable [x] is the one of [A]. *)
Lemma nearest_base_wins_witness :
  PyDict.get "x" (BaseMembers_update_data _self_cells two_bases_one_name
                    (space_at two_bases_one_name 3))
  = Some 0.
Proof.
  rewrite (nearest_base_wins _self_cells two_bases_one_name
             (space_at two_bases_one_name 3) 3 1 [2; 0]
             (space_at two_bases_one_name 1) "x").
  - vm_compute. reflexivity.
  - vm_compute. reflexivity.
  - vm_compute. reflexivity.
  - vm_compute. reflexivity.
  - vm_compute. apply NoDup_singleton.
  - vm_compute. left.
Defined.

(** X10.  With a single base that has no bases of its own, the inheritable
    members are the own members of the base, in their order, without the
    names of the own members of the space. *)
Theorem single_base_members {V : Type} (attr : SpaceImpl → list (string * V))
    st (s : SpaceImpl) i b base :
  mro s = [i; b] →
  heap_spaces st !! i = Some s →
  heap_spaces st !! b = Some base →
  NoDup (PyDict.keys (attr base)) →
  BaseMembers_update_data attr st s
  = filter (λ kv, kv.1 ∉ self_members_keys s) (attr base).
Proof.
  intros Hmro Hs Hb Hnd. unfold BaseMembers_update_data. rewrite Hmro.
  change (zip (reverse [i; b]) (tail (reverse [i; b]))) with [(b, i)].
  simpl. rewrite BaseMembers_step_spec by apply NoDup_nil_2.
  simpl. rewrite Hb, Hs. f_equal.
  rewrite update_fresh; [done|done|].
  intros k _. apply not_elem_of_nil.
Qed.

Lemma single_base_members_witness :
  BaseMembers_update_data _self_cells two_inheritable_cells
    (space_at two_inheritable_cells 1)
  = filter (λ kv, kv.1 ∉ self_members_keys (space_at two_inheritable_cells 1))
      [("a", 0); ("b", 2)].
Proof.
  apply (single_base_members _self_cells two_inheritable_cells
           (space_at two_inheritable_cells 1) 1 0
           (space_at two_inheritable_cells 0)).
  - vm_compute. reflexivity.
  - vm_compute. reflexivity.
  - vm_compute. reflexivity.
  - vm_compute. apply NoDup_cons. split; [|apply NoDup_singleton].
    intros Hx%list_elem_of_singleton. discriminate.
Defined.

(** ** The derived cells *)

Section derived_cells_more.

Lemma set_heap_cells_id st : set_heap_cells (heap_cells st) st = st.
Proof. by destruct st. Qed.

Lemma update_cells_items_store self items data st :
  ∃ new,
    (update_cells_items self items data st).2
    = set_heap_cells (heap_cells st ++ new) st ∧
    Forall (λ c, cells_parent c = Some self ∧ cells_data c = []) new.
Proof.
  revert data st. induction items as [|[key bc] items IH]; intros data st.
  - exists []. by rewrite app_nil_r, set_heap_cells_id.
  - simpl.
    destruct (heap_cells st !! bc) as [base|];
      [|exists []; by rewrite app_nil_r, set_heap_cells_id].
    destruct (same_formula st data key base);
      [exists []; by rewrite app_nil_r, set_heap_cells_id|].
    unfold CellsImpl_init.
    edestruct IH as (new & -> & Hnew).
    eexists (_ :: new). split.
    + simpl. by rewrite <- app_assoc.
    + by apply Forall_cons.
Qed.

Lemma only_derives_refl self st : only_derives self st st.
Proof.
  split_and!; try done. exists []. by rewrite app_nil_r.
Qed.

Lemma only_derives_trans self st1 st2 st3 :
  only_derives self st1 st2 → only_derives self st2 st3 →
  only_derives self st1 st3.
Proof.
  intros ((new1 & Hc1 & Hn1) & Hm1 & Hs1 & Hl1 & Ho1 & Hw1)
         ((new2 & Hc2 & Hn2) & Hm2 & Hs2 & Hl2 & Ho2 & Hw2).
  split_and!; try congruence.
  - exists (new1 ++ new2). split; [|by apply Forall_app].
    by rewrite Hc2, Hc1, <- app_assoc.
  - intros j Hj. by rewrite Ho2, Ho1.
Qed.

Lemma only_derives_update_space self f st :
  (∀ s, own_members (f s) = own_members s) →
  only_derives self st (update_space self f st).
Proof.
  intros Hf. split_and!; try done.
  - exists []. by rewrite app_nil_r.
  - apply length_alter.
  - intros j Hj. simpl. by apply list_lookup_alter_ne.
  - simpl. rewrite list_lookup_alter, decide_True by done.
    destruct (heap_spaces st !! self) as [s|]; simpl; [|done].
    by rewrite Hf.
Qed.

Lemma only_derives_items self items data st :
  only_derives self st (update_cells_items self items data st).2.
Proof.
  destruct (update_cells_items_store self items data st) as (new & -> & Hnew).
  split_and!; try done. by exists new.
Qed.

Lemma only_derives_base_members self st :
  only_derives self st (base_members self st).
Proof.
  unfold base_members. destruct (flagged _ _); [|apply only_derives_refl].
  by apply only_derives_update_space.
Qed.

Lemma only_derives_update_data_cells self st :
  only_derives self st (_update_data_cells self st).
Proof.
  unfold _update_data_cells.
  eapply only_derives_trans; [apply only_derives_base_members|].
  destruct (heap_spaces (base_members self st) !! self) as [s|];
    [|apply only_derives_refl].
  unfold update_data_cells_on.
  destruct (update_cells_items _ _ _ _) as [data st2] eqn:Hitems.
  eapply only_derives_trans; [|by apply only_derives_update_space].
  replace st2 with (data, st2).2 by done. rewrite <- Hitems.
  apply only_derives_items.
Qed.

End derived_cells_more.

Lemma derived_cells_frame_lemma self st :
  only_derives self st (DerivedMembers_update_data self st).
Proof.
  unfold DerivedMembers_update_data.
  destruct (flagged _ _); [|apply only_derives_refl].
  eapply only_derives_trans; [apply only_derives_update_data_cells|].
  by apply only_derives_update_space.
Qed.

(** X11.  Recomputing the derived cells of a space touches nothing else:
    the cells that were in the heap are as they were, every cell that is
    added is bound to the space and has no data, the model and the other
    spaces are unchanged, and so are the own members of the space and its
    place in the hierarchy. *)
Theorem derived_cells_update_frame self st :
  only_derives self st (DerivedMembers_update_data self st).
Proof.
  unfold DerivedMembers_update_data.
  destruct (flagged st (self, K_derived_cells)); [|apply only_derives_refl].
  apply (only_derives_trans self st (_update_data_cells self st)).
  - apply only_derives_update_data_cells.
  - by apply only_derives_update_space.
Qed.


Section derived_cells_names.

Lemma keys_del_elem {V : Type} (k k0 : string) (d : list (string * V)) :
  k0 ∈ PyDict.keys (PyDict.del k d) → k0 ∈ PyDict.keys d.
Proof.
  rewrite !elem_of_keys. intros [v Hin]. exists v.
  by apply elem_of_del in Hin.
Qed.

Lemma NoDup_keys_del {V : Type} (k : string) (d : list (string * V)) :
  NoDup (PyDict.keys d) → NoDup (PyDict.keys (PyDict.del k d)).
Proof.
  intros Hd. rewrite del_filter by done. by apply NoDup_keys_filter.
Qed.

Lemma update_cells_items_keys self items data st (B : list string) :
  (∀ k, k ∈ PyDict.keys data → k ∈ B) →
  (∀ k, k ∈ PyDict.keys items → k ∈ B) →
  ∀ k, k ∈ PyDict.keys (update_cells_items self items data st).1 → k ∈ B.
Proof.
  revert data st. induction items as [|[key bc] items IH];
    intros data st Hdata Hitems; simpl; [done|].
  destruct (heap_cells st !! bc) as [base|]; [|done].
  destruct (same_formula st data key base); [done|].
  unfold CellsImpl_init. apply IH.
  - intros k [->|Hk%keys_del_elem]%keys_set_elem; [|by apply Hdata].
    apply Hitems. left.
  - intros k Hk. apply Hitems. by right.
Qed.

Lemma update_cells_items_NoDup self items data st :
  NoDup (PyDict.keys data) →
  NoDup (PyDict.keys (update_cells_items self items data st).1).
Proof.
  revert data st. induction items as [|[key bc] items IH];
    intros data st Hdata; simpl; [done|].
  destruct (heap_cells st !! bc) as [base|]; [|done].
  destruct (same_formula st data key base); [done|].
  unfold CellsImpl_init. by apply IH, NoDup_keys_set, NoDup_keys_del.
Qed.

Lemma update_data_cells_on_keys self base data st :
  NoDup (PyDict.keys data) →
  NoDup (PyDict.keys (update_data_cells_on self base data st).1) ∧
  ∀ k, k ∈ PyDict.keys (update_data_cells_on self base data st).1 →
       k ∈ PyDict.keys base.
Proof.
  intros Hd. unfold update_data_cells_on. rewrite del_all by done. split.
  - by apply update_cells_items_NoDup, NoDup_keys_filter.
  - apply update_cells_items_keys; [|done].
    intros k (v & [Hk Hin]%list_elem_of_filter)%elem_of_keys. simpl in Hk.
    destruct (decide (k ∈ PyDict.keys base)) as [|Hno]; [done|].
    destruct Hk. apply list_elem_of_filter. split; [done|].
    apply elem_of_keys. by exists v.
Qed.

Lemma update_data_cells_on_spaces self base data st :
  heap_spaces (update_data_cells_on self base data st).2 = heap_spaces st.
Proof.
  unfold update_data_cells_on.
  by edestruct update_cells_items_store as (new & -> & _).
Qed.




End derived_cells_names.

(** X13.  After the derived cells of a space have been recomputed, every
    derived cell goes by the name of an inheritable cell, and no name is
    kept twice.  The inheritable cells are the ones that
    [BaseMembers._update_data] gives when the flag of the base members was
    set, and the cached ones otherwise. *)
Theorem derived_names_inheritable self st (s : SpaceImpl) :
  heap_spaces st !! self = Some s →
  NoDup (PyDict.keys (_derived_cells s)) →
  flagged st (self, K_derived_cells) = true →
  ∃ s',
    heap_spaces (DerivedMembers_update_data self st) !! self = Some s' ∧
    _base_cells s'
    = (if flagged st (self, K_base_cells)
       then BaseMembers_update_data _self_cells st s else _base_cells s) ∧
    NoDup (PyDict.keys (_derived_cells s')) ∧
    ∀ k, k ∈ PyDict.keys (_derived_cells s') →
         k ∈ PyDict.keys (_base_cells s').
Proof.
  intros Hs Hnd Hflag. unfold DerivedMembers_update_data. rewrite Hflag.
  unfold _update_data_cells.
  set (s1 := if flagged st (self, K_base_cells)
             then unmark K_base_cells
                    (set_base_cells (BaseMembers_update_data _self_cells st s)
                       s)
             else s).
  assert (heap_spaces (base_members self st) !! self = Some s1) as Hs1.
  { unfold base_members, s1. destruct (flagged st (self, K_base_cells));
      [|done].
    simpl. by rewrite list_lookup_alter, decide_True, Hs by done. }
  assert (_derived_cells s1 = _derived_cells s) as Hd1
    by (unfold s1; by destruct (flagged st (self, K_base_cells))).
  rewrite Hs1.
  pose proof (update_data_cells_on_keys self (_base_cells s1)
                (_derived_cells s1) (base_members self st)) as Hkeys.
  pose proof (update_data_cells_on_spaces self (_base_cells s1)
                (_derived_cells s1) (base_members self st)) as Hsp.
  destruct (update_data_cells_on _ _ _ _) as [data st2]. simpl in *.
  rewrite Hd1 in Hkeys. destruct (Hkeys Hnd) as [Hnd' Hsub].
  exists (unmark K_derived_cells (set_derived_cells data s1)).
  split_and!.
  - rewrite !list_lookup_alter, !decide_True, Hsp, Hs1 by done. done.
  - unfold s1. by destruct (flagged st (self, K_base_cells)).
  - done.
  - done.
Qed.

(** The cells of [C] are read after [P] got the cell [a]. *)
Lemma derived_names_inheritable_witness :
  ∃ s',
    heap_spaces
      (DerivedMembers_update_data 1
         (new_cells 0 "a" formula_a base_and_derived).2) !! 1 = Some s' ∧
    _base_cells s' = [("a", 0)] ∧
    NoDup (PyDict.keys (_derived_cells s')) ∧
    ∀ k, k ∈ PyDict.keys (_derived_cells s') →
         k ∈ PyDict.keys (_base_cells s').
Proof.
  apply (derived_names_inheritable 1
           (new_cells 0 "a" formula_a base_and_derived).2
           (space_at (new_cells 0 "a" formula_a base_and_derived).2 1)).
  - vm_compute. reflexivity.
  - vm_compute. apply NoDup_nil_2.
  - vm_compute. reflexivity.
Defined.



(** ** Invalidation, further *)

Section invalidation_more.
Implicit Types (st : Store) (o : nat * LazyKind).

Lemma flagged_mark i k st :
  i < length (heap_spaces st) →
  flagged (update_space i (mark k) st) (i, k) = true.
Proof.
  intros [s Hs]%lookup_lt_is_Some_2. unfold flagged. simpl.
  rewrite list_lookup_alter, decide_True, Hs by done. simpl.
  apply bool_decide_eq_true, elem_of_mark.
Qed.

Lemma flags_only_flagged st st' o :
  flags_only st st' → flagged st o = true → flagged st' o = true.
Proof.
  intros (_ & _ & _ & _ & Hsp). unfold flagged.
  destruct (heap_spaces st !! o.1) as [s|] eqn:Hs; [|done].
  destruct (Hsp _ _ Hs) as (s' & -> & _ & Hmono).
  rewrite !bool_decide_eq_true. apply Hmono.
Qed.

Lemma flags_only_mro st st' :
  flags_only st st' → mro <$> heap_spaces st' = mro <$> heap_spaces st.
Proof.
  intros (_ & _ & _ & Hlen & Hsp). apply list_eq. intros j.
  rewrite !list_lookup_fmap.
  destruct (heap_spaces st !! j) as [s|] eqn:Hs.
  - destruct (Hsp _ _ Hs) as (s' & -> & -> & _). done.
  - apply lookup_ge_None in Hs. rewrite <- Hlen in Hs.
    apply lookup_ge_None in Hs. by rewrite Hs.
Qed.

Lemma derived_from_mro st i :
  derived_from st i
  = concat (imap (λ d (m : list nat),
                    if bool_decide (i ∈ tail m) then [d] else [])
                 (mro <$> heap_spaces st)).
Proof. unfold derived_from. by rewrite imap_fmap. Qed.

Lemma flags_only_observers st st' o :
  flags_only st st' → observers st' o = observers st o.
Proof.
  intros Hfl. unfold observers.
  destruct o.2; try done.
  by rewrite !derived_from_mro, (flags_only_mro st st').
Qed.

Lemma elem_of_concat {A : Type} (x : A) (ls : list (list A)) :
  x ∈ concat ls ↔ ∃ l, x ∈ l ∧ l ∈ ls.
Proof.
  induction ls as [|l ls IH]; simpl.
  - split; [by intros ?%elem_of_nil|by intros (l & _ & ?%elem_of_nil)].
  - rewrite elem_of_app, IH. split.
    + intros [?|(l' & ? & ?)]; [exists l; split; [done|left]|].
      exists l'. split; [done|by right].
    + intros (l' & Hx & [->|?]%elem_of_cons); [by left|]. right. by exists l'.
Qed.

Lemma elem_of_derived_from st i d :
  d ∈ derived_from st i ↔
  ∃ ds, heap_spaces st !! d = Some ds ∧ i ∈ tail (mro ds).
Proof.
  unfold derived_from. rewrite elem_of_concat. split.
  - intros (l & Hd & (j & s & -> & Hj)%elem_of_lookup_imap).
    case_bool_decide as Hin; [|by apply elem_of_nil in Hd].
    apply list_elem_of_singleton in Hd as ->. by exists s.
  - intros (ds & Hds & Hin). exists [d]. split; [left|].
    apply elem_of_lookup_imap. exists d, ds.
    by rewrite bool_decide_eq_true_2.
Qed.

Lemma reaches_flags_only st st' os o n :
  flags_only st st' → reaches st' os o n ↔ reaches st os o n.
Proof.
  intros Hfl. revert os. induction n as [|n IH]; intros os; simpl; [done|].
  split; intros (o' & Ho' & Hr); exists o'; split; try done.
  - apply IH. by rewrite <- (flags_only_observers st st').
  - rewrite (flags_only_observers st st') by done. by apply IH.
Qed.

Lemma flags_only_length st st' :
  flags_only st st' → length (heap_spaces st') = length (heap_spaces st).
Proof. by intros (_ & _ & _ & Hlen & _). Qed.

(** [set_update] goes along every path of observers. *)
Lemma propagate_reaches depth n os st o :
  reaches st os o n → n < depth → o.1 < length (heap_spaces st) →
  flagged (propagate depth os st) o = true.
Proof.
  revert n os st. induction depth as [|depth IHd]; intros n os st Hr Hn Ho;
    [lia|].
  assert (∃ x, x ∈ os ∧
               match n with
               | O => o = x
               | S n' => reaches st (observers st x) o n'
               end) as (x & Hx & Hvia).
  { destruct n as [|n']; simpl in Hr; [by exists o|done]. }
  clear Hr. revert st Ho Hvia.
  induction os as [|y os IHos]; intros st Ho Hvia;
    [by apply elem_of_nil in Hx|].
  cbn [propagate foldl].
  set (st1 := propagate depth (observers st y)
                (update_space y.1 (mark y.2) st)).
  assert (flags_only st (update_space y.1 (mark y.2) st)) as Hmark
    by apply flags_only_mark.
  assert (flags_only st st1) as Hfl.
  { eapply flags_only_trans; [exact Hmark|apply propagate_flags_only]. }
  change (flagged (propagate (S depth) os st1) o = true).
  apply elem_of_cons in Hx as [->|Hx].
  - apply (flags_only_flagged st1); [apply propagate_flags_only|].
    destruct n as [|n'].
    + subst o. apply (flags_only_flagged (update_space y.1 (mark y.2) st));
        [apply propagate_flags_only|].
      destruct y as [i k]. by apply flagged_mark.
    + apply (IHd n'); [|lia|by rewrite (flags_only_length st)].
      by apply (reaches_flags_only st).
  - apply IHos; [done|by rewrite (flags_only_length st)|].
    destruct n as [|n']; [done|].
    rewrite (flags_only_observers st st1) by done.
    by apply (reaches_flags_only st).
Qed.

(** [set_update] never sets the flag of a map of own members: such a map
    observes nothing. *)
Lemma propagate_sources depth os st i k :
  height k = 7 →
  Forall (λ o : nat * LazyKind, height o.2 < 7) os →
  flagged (propagate depth os st) (i, k) = flagged st (i, k).
Proof.
  intros Hk. revert os st. induction depth as [|depth IHd]; intros os st Hos;
    [done|].
  revert st. induction Hos as [|y os Hy Hos IHos]; intros st; [done|].
  cbn [propagate foldl].
  change (flagged (propagate (S depth) os
                     (propagate depth (observers st y)
                        (update_space y.1 (mark y.2) st))) (i, k)
          = flagged st (i, k)).
  rewrite IHos, IHd.
  - unfold flagged. simpl. rewrite list_lookup_alter.
    destruct (decide (y.1 = i)) as [<-|]; [|done].
    destruct (heap_spaces st !! y.1) as [s|]; [|done]. simpl.
    apply bool_decide_ext. unfold mark.
    destruct (bool_decide (y.2 ∈ needs_update s)); [done|]. simpl.
    rewrite elem_of_app, list_elem_of_singleton.
    split; [|by left]. intros [?|Heq]; [done|]. subst k. lia.
  - eapply Forall_impl; [apply observers_height|]. simpl. lia.
Qed.

End invalidation_more.

Section invalidation_paths.
Implicit Types (st : Store) (o : nat * LazyKind).

Lemma reaches_snoc st os o o2 n :
  reaches st os o n → o2 ∈ observers st o → reaches st os o2 (S n).
Proof.
  revert os. induction n as [|n IH]; intros os; simpl.
  - intros Ho Ho2. by exists o.
  - intros (o' & Ho' & Hr) Ho2. exists o'. split; [done|]. by apply IH.
Qed.

Lemma base_members_observe st i d ds k :
  heap_spaces st !! d = Some ds → i ∈ tail (mro ds) →
  k ∈ [K_base_cells; K_base_spaces; K_base_refs] →
  (d, k) ∈ observers st (i, K_self_members).
Proof.
  intros Hds Hin Hk. unfold observers. simpl.
  do 3 (apply elem_of_cons; right).
  apply elem_of_concat.
  exists [(d, K_base_cells); (d, K_base_spaces); (d, K_base_refs)]. split.
  - apply elem_of_cons in Hk as [->|Hk]; [left|].
    apply elem_of_cons in Hk as [->|Hk]; [right; left|].
    apply list_elem_of_singleton in Hk as ->. right. right. left.
  - apply elem_of_map. exists d. split; [done|].
    apply elem_of_derived_from. by exists ds.
Qed.

(** A change of an own member of the space [i] invalidates the derived
    members and the namespace of [i], and the inheritable members, the
    derived members and the namespace of every space that has [i] among
    its bases. *)
Lemma set_update_self_members st i os :
  (i, K_self_members) ∈ os → i < length (heap_spaces st) →
  (∀ k, k ∈ [K_self_members; K_derived_cells; K_derived_spaces;
              K_derived_refs; K_cells; K_static_spaces; K_spaces; K_refs;
              K_namespace_impl; K_namespace] →
        flagged (propagate 8 os st) (i, k) = true) ∧
  (∀ d ds, heap_spaces st !! d = Some ds → i ∈ tail (mro ds) →
     ∀ k, k ∈ [K_base_cells; K_base_spaces; K_base_refs; K_derived_cells;
                K_derived_spaces; K_derived_refs; K_cells; K_static_spaces;
                K_spaces; K_refs; K_namespace_impl; K_namespace] →
          flagged (propagate 8 os st) (d, k) = true).
Proof.
  intros Hos Hi.
  assert (reaches st os (i, K_self_members) 0) as R0 by done.
  assert (∀ j n, reaches st os (j, K_derived_cells) n →
                 reaches st os (j, K_cells) (S n)) as Hcells.
  { intros j n R. apply (reaches_snoc _ _ _ _ _ R). left. }
  assert (∀ j n, reaches st os (j, K_derived_spaces) n →
                 reaches st os (j, K_static_spaces) (S n)) as Hstatic.
  { intros j n R. apply (reaches_snoc _ _ _ _ _ R). left. }
  assert (∀ j n, reaches st os (j, K_static_spaces) n →
                 reaches st os (j, K_spaces) (S n)) as Hspaces.
  { intros j n R. apply (reaches_snoc _ _ _ _ _ R). left. }
  assert (∀ j n, reaches st os (j, K_derived_refs) n →
                 reaches st os (j, K_refs) (S n)) as Hrefs.
  { intros j n R. apply (reaches_snoc _ _ _ _ _ R). left. }
  assert (∀ j n, reaches st os (j, K_cells) n →
                 reaches st os (j, K_namespace_impl) (S n)) as Himpl.
  { intros j n R. apply (reaches_snoc _ _ _ _ _ R). left. }
  assert (∀ j n, reaches st os (j, K_namespace_impl) n →
                 reaches st os (j, K_namespace) (S n)) as Hns.
  { intros j n R. apply (reaches_snoc _ _ _ _ _ R). left. }
  assert (reaches st os (i, K_derived_cells) 1) as Rdc
    by (apply (reaches_snoc _ _ _ _ _ R0); left).
  assert (reaches st os (i, K_derived_spaces) 1) as Rds
    by (apply (reaches_snoc _ _ _ _ _ R0); right; left).
  assert (reaches st os (i, K_derived_refs) 1) as Rdr
    by (apply (reaches_snoc _ _ _ _ _ R0); right; right; left).
  split.
  - intros k Hk.
    repeat (apply elem_of_cons in Hk as [->|Hk]);
      [..|by apply elem_of_nil in Hk].
    + by apply (propagate_reaches 8 0); [|lia|].
    + by apply (propagate_reaches 8 1); [|lia|].
    + by apply (propagate_reaches 8 1); [|lia|].
    + by apply (propagate_reaches 8 1); [|lia|].
    + by apply (propagate_reaches 8 2); [apply Hcells|lia|].
    + by apply (propagate_reaches 8 2); [apply Hstatic|lia|].
    + by apply (propagate_reaches 8 3); [apply Hspaces, Hstatic|lia|].
    + by apply (propagate_reaches 8 2); [apply Hrefs|lia|].
    + by apply (propagate_reaches 8 3); [apply Himpl, Hcells|lia|].
    + by apply (propagate_reaches 8 4); [apply Hns, Himpl, Hcells|lia|].
  - intros d ds Hds Hin.
    assert (d < length (heap_spaces st)) as Hd
      by (apply lookup_lt_is_Some_1; by eexists).
    assert (∀ k, k ∈ [K_base_cells; K_base_spaces; K_base_refs] →
                 reaches st os (d, k) 1) as Rb.
    { intros k Hk. apply (reaches_snoc _ _ _ _ _ R0).
      by apply (base_members_observe st i d ds). }
    assert (reaches st os (d, K_derived_cells) 2) as Rdc'.
    { apply (reaches_snoc _ _ (d, K_base_cells)); [apply Rb|]; left. }
    assert (reaches st os (d, K_derived_spaces) 2) as Rds'.
    { apply (reaches_snoc _ _ (d, K_base_spaces)); [apply Rb|left].
      right. left. }
    assert (reaches st os (d, K_derived_refs) 2) as Rdr'.
    { apply (reaches_snoc _ _ (d, K_base_refs)); [apply Rb|left].
      right. right. left. }
    intros k Hk.
    repeat (apply elem_of_cons in Hk as [->|Hk]);
      [..|by apply elem_of_nil in Hk].
    + by apply (propagate_reaches 8 1); [apply Rb; left|lia|].
    + by apply (propagate_reaches 8 1); [apply Rb; right; left|lia|].
    + by apply (propagate_reaches 8 1);
        [apply Rb; right; right; left|lia|].
    + by apply (propagate_reaches 8 2); [|lia|].
    + by apply (propagate_reaches 8 2); [|lia|].
    + by apply (propagate_reaches 8 2); [|lia|].
    + by apply (propagate_reaches 8 3); [apply Hcells|lia|].
    + by apply (propagate_reaches 8 3); [apply Hstatic|lia|].
    + by apply (propagate_reaches 8 4); [apply Hspaces, Hstatic|lia|].
    + by apply (propagate_reaches 8 3); [apply Hrefs|lia|].
    + by apply (propagate_reaches 8 4); [apply Himpl, Hcells|lia|].
    + by apply (propagate_reaches 8 5); [apply Hns, Himpl, Hcells|lia|].
Qed.

End invalidation_paths.

(** X15.  [new_cells] on a space of the heap makes a cell bound to the
    space under the next free index, with the formula and no data, and
    enters it in the own cells of the space.  The flag of the own cells
    is left as it was ([skip_self]); the derived members and the namespace
    of the space are invalidated, and so are the inheritable members, the
    derived members and the namespace of every space that has the space
    among its bases. *)
Theorem new_cells_invalidates self nm func st (s : SpaceImpl) :
  heap_spaces st !! self = Some s →
  let st' := (new_cells self nm func st).2 in
  (new_cells self nm func st).1 = length (heap_cells st) ∧
  heap_cells st'
  = heap_cells st ++ [{| cells_name := nm; cells_parent := Some self;
                         formula := func; cells_data := [] |}] ∧
  _self_cells <$> heap_spaces st' !! self
  = Some (PyDict.set nm (length (heap_cells st)) (_self_cells s)) ∧
  flagged st' (self, K_self_cells) = flagged st (self, K_self_cells) ∧
  (∀ k, k ∈ [K_self_members; K_derived_cells; K_cells; K_namespace_impl;
              K_namespace] →
        flagged st' (self, k) = true) ∧
  (∀ d ds, heap_spaces st !! d = Some ds → self ∈ tail (mro ds) →
     ∀ k, k ∈ [K_base_cells; K_derived_cells; K_cells; K_namespace_impl;
                K_namespace] →
          flagged st' (d, k) = true).
Proof.
  intros Hs. unfold new_cells, CellsImpl_init, set_cells, set_update.
  cbn [fst snd].
  set (st0 := update_space self _ _).
  assert (heap_spaces st0 !! self
          = Some (set_self_cells
                    (PyDict.set nm (length (heap_cells st)) (_self_cells s))
                    s)) as Hs0.
  { unfold st0. simpl. by rewrite list_lookup_alter, decide_True, Hs by done. }
  assert (self < length (heap_spaces st0)) as Hlt
    by (apply lookup_lt_is_Some_1; by eexists).
  pose proof (propagate_flags_only 8 (observers st0 (self, K_self_cells)) st0)
    as Hfl.
  destruct (set_update_self_members st0 self
              (observers st0 (self, K_self_cells))) as [Hown Hdesc];
    [left|done|].
  split_and!.
  - done.
  - destruct Hfl as (-> & _). done.
  - destruct Hfl as (_ & _ & _ & _ & Hsp).
    destruct (Hsp _ _ Hs0) as (s' & -> & -> & _). done.
  - rewrite propagate_sources; [|done|].
    + unfold flagged. cbn [fst snd]. rewrite Hs0, Hs. done.
    + repeat constructor.
  - intros k Hk. apply Hown.
    repeat (apply elem_of_cons in Hk as [->|Hk]);
      [..|by apply elem_of_nil in Hk].
    + left.
    + right. left.
    + do 4 right. left.
    + do 8 right. left.
    + do 9 right. left.
  - intros d ds Hds Hin k Hk.
    assert (∃ ds0, heap_spaces st0 !! d = Some ds0 ∧ mro ds0 = mro ds)
      as (ds0 & Hds0 & Hmro).
    { unfold st0. rewrite lookup_update_space. cbn [heap_spaces set_heap_cells].
      rewrite Hds. simpl. eexists. split; [reflexivity|].
      by destruct (decide (self = d)). }
    apply (Hdesc d ds0 Hds0); [by rewrite Hmro|].
    repeat (apply elem_of_cons in Hk as [->|Hk]);
      [..|by apply elem_of_nil in Hk].
    + left.
    + do 3 right. left.
    + do 6 right. left.
    + do 10 right. left.
    + do 11 right. left.
Qed.

(** [P.new_cells("a", ...)], when [C] has the base [P]: the derived cells
    of [C] are to be recomputed. *)
Lemma new_cells_invalidates_witness :
  (new_cells 0 "a" formula_a base_and_derived).1 = 0 ∧
  flagged (new_cells 0 "a" formula_a base_and_derived).2 (1, K_derived_cells)
  = true ∧
  flagged (new_cells 0 "a" formula_a base_and_derived).2 (0, K_self_cells)
  = false.
Proof.
  destruct (new_cells_invalidates 0 "a" formula_a base_and_derived
              (space_at base_and_derived 0))
    as (Hid & _ & _ & Hself & _ & Hdesc).
  - vm_compute. reflexivity.
  - split; [exact Hid|]. split.
    + apply (Hdesc 1 (space_at base_and_derived 1)).
      * vm_compute. reflexivity.
      * vm_compute. left.
      * right. left.
    + rewrite Hself. vm_compute. reflexivity.
Defined.





(** X18.  [remove_cells] on a space whose [direct_bases] is empty (as
    construction leaves it).  With an own cell of the name: the cell is
    unbound from the space and taken out of the own cells, and nothing
    else happens: no flag is set, the derived cells stay, every other
    space and every other cell is as it was.  Without an own cell of the
    name the store is left as it is. *)
Theorem remove_cells_detaches `{!Collaborators} self nm st (s : SpaceImpl) :
  heap_spaces st !! self = Some s →
  direct_bases s = [] →
  NoDup (PyDict.keys (_self_cells s)) →
  (PyDict.get nm (_self_cells s) = None →
   remove_cells self nm st = (Ok (), st)) ∧
  (∀ c, PyDict.get nm (_self_cells s) = Some c →
     ∃ st' s',
       remove_cells self nm st = (Ok (), st') ∧
       heap_spaces st' !! self = Some s' ∧
       PyDict.get nm (_self_cells s') = None ∧
       (∀ nm', nm' ≠ nm →
               PyDict.get nm' (_self_cells s') = PyDict.get nm' (_self_cells s)) ∧
       _derived_cells s' = _derived_cells s ∧
       needs_update s' = needs_update s ∧
       (∀ j, j ≠ self → heap_spaces st' !! j = heap_spaces st !! j) ∧
       heap_cells st' !! c = clear_parent <$> heap_cells st !! c ∧
       (∀ c', c' ≠ c → heap_cells st' !! c' = heap_cells st !! c')).
Proof.
  intros Hs Hdb Hnd. unfold remove_cells. rewrite Hs. split.
  - intros ->. by rewrite Hdb.
  - intros c ->. rewrite Hdb.
    exists (update_space self
              (λ s, set_self_cells (PyDict.del nm (_self_cells s)) s)
              (update_cells c clear_parent st)),
      (set_self_cells (PyDict.del nm (_self_cells s)) s).
    split_and!; try done.
    + by rewrite lookup_update_space_eq with (s := s).
    + simpl. by apply get_del_eq.
    + intros nm' Hne. simpl. by apply get_del_ne.
    + intros j Hj. rewrite lookup_update_space, decide_False by done.
      simpl. by destruct (heap_spaces st !! j).
    + simpl. by rewrite list_lookup_alter, decide_True.
    + intros c' Hc'. simpl. by rewrite list_lookup_alter_ne.
Qed.

(** [C.remove_cells("x")] when [C] overrides the cell [x] of [P]. *)
Lemma remove_cells_detaches_witness :
  ∃ st' s',
    remove_cells (H := sample_collaborators) 1 "x" overridden_cell
    = (Ok (), st') ∧
    heap_spaces st' !! 1 = Some s' ∧
    PyDict.get "x" (_self_cells s') = None ∧
    _derived_cells s' = [] ∧
    cells_parent <$> heap_cells st' !! 1 = Some None.
Proof.
  destruct (remove_cells_detaches (H := sample_collaborators) 1 "x"
              overridden_cell (space_at overridden_cell 1))
    as [_ Hown].
  - vm_compute. reflexivity.
  - vm_compute. reflexivity.
  - vm_compute. apply NoDup_singleton.
  - destruct (Hown 1) as (st' & s' & Hcall & Hs' & Hget & _ & Hd & _ & _ & Hc & _).
    + vm_compute. reflexivity.
    + exists st', s'. split_and!; [exact Hcall|exact Hs'|exact Hget| |].
      * rewrite Hd. vm_compute. reflexivity.
      * rewrite Hc. vm_compute. reflexivity.
Defined.

(** ** Children of a container *)

Section children_more.
Context `{!Collaborators} `{!ChainMapLaws}.

Lemma chain_mem_app {V : Type} (m1 m2 : list (list (string * V))) k :
  chain_mem (m1 ++ m2) k = chain_mem m1 k || chain_mem m2 k.
Proof. unfold chain_mem. apply existsb_app. Qed.

Lemma static_spaces_maps_put maps (s : SpaceImpl) :
  length maps = 2 → static_spaces_maps (put_static_spaces maps s) = maps.
Proof. destruct maps as [|a [|b [|? ?]]]; done. Qed.

(** The last lines of the constructor make the name a name of a child of
    the parent. *)
Lemma register_has_space self_id (self : SpaceImpl) st :
  container_exists st (parent self) →
  has_space (register self_id self st) (parent self) (name self) = true.
Proof.
  unfold register, has_space.
  destruct (parent self) as [|p]; simpl.
  - intros _. apply mem_set_eq.
  - intros [ps Hps]%lookup_lt_is_Some_2.
    destruct (is_dynamic self).
    + rewrite lookup_update_space_eq with (s := ps) by done.
      unfold spaces_maps. rewrite chain_mem_app. simpl.
      unfold chain_mem at 2. simpl. by rewrite mem_set_eq, orb_true_r.
    + rewrite lookup_update_space_eq with (s := ps) by done.
      unfold spaces_maps. rewrite chain_mem_app.
      rewrite static_spaces_maps_put by (by rewrite chain_setitem_length).
      by rewrite chain_mem_setitem.
Qed.

Lemma SpaceImpl_init_has_space par n bases pf args st i st' :
  container_exists st par →
  SpaceImpl_init par (Some n) bases pf args st = (Ok i, st') →
  has_space st' par n = true.
Proof.
  intros Hex (n' & st0 & res & seqs' & Hnamed & _ & _ & -> & _ & ->)
    %SpaceImpl_init_Ok.
  simpl in Hnamed. injection Hnamed as <- <-.
  set (self := _init_members _ _).
  change (has_space
            (register (length (heap_spaces st)) self
               (set_heap_spaces (heap_spaces st ++ [self]) st))
            (parent self) (name self) = true).
  apply register_has_space. simpl.
  destruct par as [|p]; simpl in *; [done|].
  rewrite length_app. simpl. lia.
Qed.







End children_more.

(** X19.  A child that [new_space] has made under a given name is a child
    of the parent from then on: [has_space] finds the name, and every
    further [new_space] of the parent with that name raises the
    [ValueError] for an assigned name and leaves the store as it is. *)
Theorem new_space_registers `{!Collaborators} `{!ChainMapLaws} parent n
    bases pf args st i st' :
  container_exists st parent →
  new_space parent (Some n) bases pf args st = (Ok i, st') →
  has_space st' parent n = true ∧
  ∀ bases' pf' args',
    new_space parent (Some n) bases' pf' args' st'
    = (Raise name_already_assigned, st').
Proof.
  intros Hex Hinit.
  assert (has_space st' parent n = true) as Hhas
    by (by eapply SpaceImpl_init_has_space).
  split; [done|]. intros bases' pf' args'.
  unfold new_space, SpaceImpl_init. simpl. by rewrite Hhas.
Qed.

Lemma new_space_registers_witness :
  has_space (sample_new_space "D" (BasesOne 1) diamond_store) TheModel "D"
  = true ∧
  ∀ bases' pf' args',
    new_space (H := sample_collaborators) TheModel (Some "D") bases' pf'
      args' (sample_new_space "D" (BasesOne 1) diamond_store)
    = (Raise name_already_assigned,
       sample_new_space "D" (BasesOne 1) diamond_store).
Proof.
  apply (new_space_registers (H := sample_collaborators) (H0 := sample_laws)
           TheModel "D" (BasesOne 1) None None diamond_store 3).
  - exact I.
  - vm_compute. reflexivity.
Defined.



(** X21.  [set_paramfunc] assigns a parameter formula once.  On a
    container without one it sets the formula; from then on every
    [set_paramfunc] raises the [ValueError] for an assigned formula and
    leaves the store, and with it the first formula, as it is. *)
Theorem set_paramfunc_once self f1 st :
  container_exists st self →
  c_paramfunc st self = None →
  ∃ st1,
    set_paramfunc self f1 st = (Ok (), st1) ∧
    c_paramfunc st1 self = Some f1 ∧
    ∀ f2, set_paramfunc self f2 st1 = (Raise paramfunc_already_assigned, st1).
Proof.
  intros Hex Hnone. unfold set_paramfunc at 1. rewrite Hnone.
  eexists. split; [reflexivity|].
  assert (c_paramfunc (put_paramfunc self (Some f1) st) self = Some f1)
    as Hset.
  { destruct self as [|i]; [done|]. simpl in *.
    apply lookup_lt_is_Some_2 in Hex as [s Hs].
    by rewrite list_lookup_alter, decide_True, Hs by done. }
  split; [done|]. intros f2. unfold set_paramfunc. by rewrite Hset.
Qed.

Lemma set_paramfunc_once_witness :
  ∃ st1,
    set_paramfunc (Space 0) one_parameter diamond_store = (Ok (), st1) ∧
    c_paramfunc st1 (Space 0) = Some one_parameter ∧
    ∀ f2, set_paramfunc (Space 0) f2 st1
          = (Raise paramfunc_already_assigned, st1).
Proof.
  apply (set_paramfunc_once (Space 0) one_parameter diamond_store).
  - vm_compute. lia.
  - vm_compute. reflexivity.
Defined.

Section dynamic_children.
Context `{!Collaborators}.

(** Modelled from the spec, as [bind_params] is: the bound arguments have
    the names of the signature, in its order. *)
Lemma bind_params_keys params args kwargs bound :
  bind_params params args kwargs = Ok bound →
  PyDict.keys bound = map fst params.
Proof.
  revert args kwargs bound.
  induction params as [|[p dflt] params IH]; intros args kwargs bound; simpl.
  - destruct args, kwargs; [|done..]. by intros [= <-].
  - destruct args as [|a args].
    + destruct (PyDict.get p kwargs) as [v|], dflt as [d|]; try done;
        (destruct (bind_params params [] _) as [bound'|] eqn:Hb; [|done]);
        intros [= <-]; simpl; f_equal; by eapply IH.
    + destruct (PyDict.mem p kwargs); [done|].
      destruct (bind_params params args kwargs) as [bound'|] eqn:Hb; [|done].
      intros [= <-]. simpl. f_equal. by eapply IH.
Qed.

End dynamic_children.

(** X22.  The child that [get_space] makes for a space with at least one
    parameter is a dynamic space: its arguments are the arguments bound to
    the signature, its parent is the space, and it is entered under its
    name in [_dynamic_spaces] of the parent.  This holds with every
    parameter formula that discards no space of the heap. *)
Theorem get_space_child_is_dynamic `{!Collaborators} (run : ParamFuncRun) p
    args kwargs st sp st' pf arguments :
  (∀ pf c a s,
     length (heap_spaces s) ≤ length (heap_spaces (run pf c a s).2)) →
  c_paramfunc st (Space p) = Some pf →
  parameters pf ≠ [] →
  bind_params (parameters pf) args kwargs = Ok arguments →
  PyDict.get (PyDict.values arguments) (c_param_spaces st (Space p)) = None →
  get_space run (Space p) args kwargs st = (Ok sp, st') →
  ∃ child ps',
    heap_spaces st' !! sp = Some child ∧
    heap_spaces st' !! p = Some ps' ∧
    parent child = Space p ∧
    _arguments child = arguments ∧
    is_dynamic child = true ∧
    PyDict.get (name child) (_dynamic_spaces ps') = Some sp.
Proof.
  intros Hgrow Hpf Hparams Hbind Hmiss Hcall.
  pose proof (c_paramfunc_exists _ _ _ Hpf) as Hex. simpl in Hex.
  apply get_space_Ok in Hcall
    as (pf' & a' & Hpf' & Hb' &
        [[Hhit _]|(_ & sa & st_f & st2 & Hr & Hnew & ->)]).
  { assert (pf' = pf) as -> by congruence.
    assert (a' = arguments) as -> by congruence. congruence. }
  assert (pf' = pf) as -> by congruence.
  assert (a' = arguments) as -> by congruence.
  assert (p < length (heap_spaces (set_system_self (system_self st) st_f)))
    as Hp.
  { pose proof (Hgrow pf (Space p) arguments
                  (set_system_self (Some (Space p)) st)) as Hle.
    rewrite Hr in Hle. simpl in *. lia. }
  apply SpaceImpl_init_Ok in Hnew
    as (n & st0 & res & seqs' & Hnamed & _ & _ & -> & _ & ->).
  pose proof (init_named_mro_of _ _ _ _ _ 0 Hnamed) as [_ Hlen].
  set (st_r := set_system_self (system_self st) st_f) in *.
  set (self := _init_members _ _).
  assert (is_dynamic self = true) as Hdyn.
  { unfold is_dynamic, self. simpl.
    destruct arguments as [|[k v] arguments]; [|done].
    apply bind_params_keys in Hbind. simpl in Hbind.
    by destruct (parameters pf). }
  assert (p < length (heap_spaces st0)) as Hp0 by lia.
  destruct (lookup_lt_is_Some_2 _ _ Hp0) as [ps0 Hps0].
  unfold register. change (parent self) with (Space p). rewrite Hdyn.
  change (name self) with n.
  exists self,
    (set_param_spaces
       (PyDict.set (PyDict.values arguments) (length (heap_spaces st_r))
          (c_param_spaces
             (update_space p
                (λ ps, set_dynamic_spaces
                         (PyDict.set n (length (heap_spaces st_r))
                            (_dynamic_spaces ps)) ps)
                (set_heap_spaces (heap_spaces st0 ++ [self]) st0))
             (Space p)))
       (set_dynamic_spaces
          (PyDict.set n (length (heap_spaces st_r)) (_dynamic_spaces ps0))
          ps0)).
  split_and!; try done.
  - unfold put_param_spaces. rewrite !lookup_update_space.
    rewrite !decide_False by lia. simpl.
    replace (length (heap_spaces st_f)) with (length (heap_spaces st0))
      by (by rewrite Hlen).
    by rewrite list_lookup_middle.
  - unfold put_param_spaces. rewrite !lookup_update_space.
    rewrite !decide_True by done. simpl.
    by rewrite lookup_app_l, Hps0 by done.
  - simpl. apply get_set_eq.
Qed.

(** [P[1]] with a formula that returns [None]. *)
Lemma get_space_child_is_dynamic_witness :
  ∃ child ps',
    heap_spaces store_after_first_call !! 1 = Some child ∧
    heap_spaces store_after_first_call !! 0 = Some ps' ∧
    parent child = Space 0 ∧
    _arguments child = [("a", VInt 1)] ∧
    is_dynamic child = true ∧
    PyDict.get (name child) (_dynamic_spaces ps') = Some 1.
Proof.
  apply (get_space_child_is_dynamic (H := sample_collaborators) returns_None 0
           [VInt 1] [] parametrised_store 1 store_after_first_call
           one_parameter [("a", VInt 1)]).
  - intros pf c a s. simpl. lia.
  - vm_compute. reflexivity.
  - discriminate.
  - vm_compute. reflexivity.
  - vm_compute. reflexivity.
  - vm_compute. reflexivity.
Defined.

(** ** What never changes a linearisation *)

Section mro_fixed.
Context `{!Collaborators}.

Lemma flags_only_mro_of st st' c :
  flags_only st st' → mro_of st' c = mro_of st c.
Proof.
  intros Hfl. apply flags_only_mro in Hfl.
  apply (f_equal (λ l, l !! c)) in Hfl. rewrite !list_lookup_fmap in Hfl.
  unfold mro_of.
  destruct (heap_spaces st' !! c), (heap_spaces st !! c); simpl in Hfl;
    congruence.
Qed.

Lemma only_derives_mro_of self st st' c :
  only_derives self st st' → mro_of st' c = mro_of st c.
Proof.
  intros (_ & _ & _ & _ & Hother & Hown). unfold mro_of.
  destruct (decide (c = self)) as [->|Hne]; [|by rewrite Hother].
  destruct (heap_spaces st' !! self), (heap_spaces st !! self);
    simpl in Hown; try done.
  by injection Hown.
Qed.

Lemma mro_of_heap_cells st v c : mro_of (set_heap_cells v st) c = mro_of st c.
Proof. done. Qed.

Lemma mro_of_put_refs maps (s : SpaceImpl) : mro (put_refs maps s) = mro s.
Proof. by destruct maps as [|g [|a [|r [|d [|? ?]]]]]. Qed.

Lemma new_cells_mro_of self nm func st c :
  mro_of (new_cells self nm func st).2 c = mro_of st c.
Proof.
  unfold new_cells, CellsImpl_init, set_cells. simpl.
  rewrite (flags_only_mro_of _ _ c (set_update_flags_only _ _ _)).
  by rewrite mro_of_update_space.
Qed.

Lemma set_name_mro_of self nm value st c :
  mro_of (set_name self nm value st).2 c = mro_of st c.
Proof.
  unfold set_name. destruct (negb (is_valid_name nm)); [done|].
  destruct (heap_spaces st !! self) as [s|]; [|done].
  destruct (in_namespace s nm).
  - destruct (chain_mem (refs_maps s) nm).
    + simpl. rewrite (flags_only_mro_of _ _ c (set_update_flags_only _ _ _)).
      apply mro_of_update_space. intros s0. apply mro_of_put_refs.
    + destruct (chain_mem (cells_maps s) nm); [|done].
      destruct (chain_getitem (cells_maps s) nm) as [c0|]; [|done].
      destruct (heap_cells st !! c0) as [cell|]; [|done].
      by destruct (has_single_value cell).
  - simpl. rewrite (flags_only_mro_of _ _ c (set_update_flags_only _ _ _)).
    by apply mro_of_update_space.
Qed.

Lemma remove_cells_mro_of self nm st c :
  mro_of (remove_cells self nm st).2 c = mro_of st c.
Proof.
  unfold remove_cells. destruct (heap_spaces st !! self) as [s|]; [|done].
  set (st1 := match PyDict.get nm (_self_cells s) with
              | Some c0 => _
              | None => st
              end).
  assert (mro_of st1 c = mro_of st c) as Hst1.
  { unfold st1. destruct (PyDict.get nm (_self_cells s)); [|done].
    by rewrite mro_of_update_space. }
  destruct (direct_bases s) as [|base ?]; [done|].
  destruct (heap_spaces st1 !! base) as [b|]; [|done].
  destruct (chain_mem (cells_maps b) nm); [|done].
  destruct (_ ≫= _) as [base_cells|]; [|done].
  pose proof (new_cells_mro_of self nm (formula base_cells) st1 c) as Hnew.
  destruct (new_cells self nm (formula base_cells) st1) as [cells st2].
  simpl in *. by rewrite mro_of_update_space, Hnew.
Qed.

End mro_fixed.

(** X23.  The linearisation of a space is fixed when the space is
    constructed.  [new_cells], [set_name], [remove_cells], the
    recomputation of the derived cells and [set_paramfunc] leave the
    linearisation of every space as it is, whether they return or raise;
    and so does a [new_space] for every space that was there before. *)
Theorem linearisation_is_fixed `{!Collaborators} st c :
  (∀ self nm func, mro_of (new_cells self nm func st).2 c = mro_of st c) ∧
  (∀ self nm value, mro_of (set_name self nm value st).2 c = mro_of st c) ∧
  (∀ self nm, mro_of (remove_cells self nm st).2 c = mro_of st c) ∧
  (∀ self, mro_of (DerivedMembers_update_data self st) c = mro_of st c) ∧
  (∀ self f, mro_of (set_paramfunc self f st).2 c = mro_of st c) ∧
  (∀ par nm bases pf args,
     c < length (heap_spaces st) →
     mro_of (new_space par nm bases pf args st).2 c = mro_of st c).
Proof.
  split_and!.
  - intros. apply new_cells_mro_of.
  - intros. apply set_name_mro_of.
  - intros. apply remove_cells_mro_of.
  - intros self. apply (only_derives_mro_of self).
    apply derived_cells_frame_lemma.
  - intros self f. unfold set_paramfunc.
    destruct (c_paramfunc st self); [done|]. simpl.
    destruct self as [|i]; [done|]. by apply mro_of_update_space.
  - intros par nm bases pf args Hc. unfold new_space.
    destruct (SpaceImpl_init par nm bases pf args st) as [[i|e] st'] eqn:Hinit.
    + apply SpaceImpl_init_mro_of in Hinit as (_ & _ & _ & _ & _ & _ & Hold).
      by apply Hold.
    + apply SpaceImpl_init_Raise in Hinit as ->.
      destruct (init_named par nm st) as [n st0] eqn:Hnamed.
      simpl. by destruct (init_named_mro_of _ _ _ _ _ c Hnamed) as [-> _].
Qed.

(** X24.  The space that [new_space] makes without bases, under a parent
    that exists: it has the name, the parent and the parameter formula it
    was given, no cached children and no own members, and the names of its
    namespace are the two global references and the names of its
    arguments. *)
Theorem fresh_space_namespace `{!Collaborators} par n bases pf args st i
    st' :
  container_exists st par →
  bases_list bases = [] →
  new_space par (Some n) bases pf args st = (Ok i, st') →
  ∃ child,
    heap_spaces st' !! i = Some child ∧
    name child = n ∧ parent child = par ∧ paramfunc child = pf ∧
    param_spaces child = [] ∧
    self_members_keys child = [] ∧
    mro child = [i] ∧
    ∀ k, in_namespace child k = true ↔
         k = "__builtins__" ∨ k = "get_self" ∨
         k ∈ PyDict.keys (default [] args).
Proof.
  intros Hex Hbases Hinit.
  pose proof Hinit as (res & seqs' & Hmerge & _ & _ & Hmro & _)
    %SpaceImpl_init_mro_of.
  rewrite Hbases in Hmerge. injection Hmerge as <- <-.
  apply SpaceImpl_init_Ok in Hinit
    as (n' & st0 & res & seqs' & Hnamed & _ & _ & -> & Hmerge & ->).
  simpl in Hnamed. injection Hnamed as <- <-.
  set (self := _init_members _ _) in *.
  exists self.
  assert (heap_spaces
            (register (length (heap_spaces st)) self
               (set_heap_spaces (heap_spaces st ++ [self]) st))
            !! length (heap_spaces st) = Some self) as Hlookup.
  { rewrite register_lookup_ne.
    - simpl. by apply list_lookup_middle.
    - change (parent self) with par. destruct par as [|p]; [done|].
      simpl in Hex. intros [= ->]. lia. }
  split; [done|].
  unfold mro_of in Hmro. rewrite Hlookup in Hmro.
  split_and!; try done.
  intros k. unfold in_namespace, chain_mem. simpl.
  rewrite !orb_false_r. unfold PyDict.mem at 1. simpl.
  destruct (decide (k = "__builtins__")) as [->|Hb]; [tauto|].
  destruct (decide (k = "get_self")) as [->|Hg]; [tauto|].
  simpl. rewrite mem_true_keys. tauto.
Qed.

Lemma fresh_space_namespace_witness :
  ∃ child,
    heap_spaces (sample_new_space "D" BasesNone diamond_store) !! 3
    = Some child ∧
    name child = "D" ∧ parent child = TheModel ∧ paramfunc child = None ∧
    param_spaces child = [] ∧
    self_members_keys child = [] ∧
    mro child = [3] ∧
    ∀ k, in_namespace child k = true ↔
         k = "__builtins__" ∨ k = "get_self" ∨ k ∈ PyDict.keys (@nil (string * Value)).
Proof.
  apply (fresh_space_namespace (H := sample_collaborators) TheModel "D"
           BasesNone None None diamond_store 3).
  - exact I.
  - reflexivity.
  - vm_compute. reflexivity.
Defined.
